(** * The agent orchestrator of Agentic-CLI (src/core/agent.ts)

    A shallow embedding of [AgentOrchestrator]: the asynchronous methods are
    programs over the effects they perform (reading the clock, timers, the AI
    provider, the two [Map]s of the orchestrator), written in the order of
    the source.  Two semantics run these programs:

    - [exec] runs one call to the end against a [World] that answers every
      suspension (timer, AI call) and says what the rest of the process did
      to the shared state meanwhile;
    - [step] is the event loop: calls made by the caller, jobs inside the
      p-queue, one transition per resumed continuation.

    JavaScript runs one continuation at a time, so the code between two
    [await]s is atomic, and reading [Date.now()] does not advance the
    clock.  A timer may fire before its delay has elapsed on that clock,
    as the timers of Node do, but not before the clock has advanced. *)

From Stdlib Require Import Ascii String ZArith QArith Lia.
From stdpp Require Import base option list gmap strings pretty.

Set Warnings "-register-all".
Open Scope string_scope.
Open Scope Z_scope.

(** ** Data model (src/types/agent.ts) *)

(** Values of type [any] that the orchestrator passes through: task inputs
    and parsed AI replies.  A number is the decimal [mantissa * 10^exponent]
    of its literal. *)
Inductive JsValue : Type :=
| JNull
| JBool (b : bool)
| JNumber (mantissa exponent : Z)
| JString (s : string)
| JArray (items : list JsValue)
| JObject (fields : list (string * JsValue)).

(** [JSON.parse] (None: it throws a SyntaxError) and
    [JSON.stringify (v, null, 2)] of the runtime. *)
Class JsonRuntime := {
  JSON_parse : string -> option JsValue;
  JSON_stringify : JsValue -> string
}.

Inductive TaskType := CodeEdit | Search | Git | Analyze | Custom.

Record AgentTask := {
  t_id : string;
  t_type : TaskType;
  t_description : string;
  t_input : JsValue;
  t_priority : Z;
  t_dependencies : option (list string);
  t_timeout : option Z;
  t_retryOnFailure : option bool
}.

Inductive ResultStatus := success | failure | partial.

Record Metrics := {
  duration : Z;
  tokensUsed : option Z;
  filesModified : option Z
}.

Record AgentResult := {
  r_taskId : string;
  r_status : ResultStatus;
  r_output : JsValue;
  r_error : option string;
  r_metrics : option Metrics
}.

Inductive AgentStatus := idle | busy | error.

Record Agent := {
  a_id : string;
  a_name : string;
  a_status : AgentStatus;
  a_currentTask : option AgentTask;
  a_capabilities : list string
}.

Record AgentConfig := {
  maxConcurrent : Z;
  timeout : Z;
  retryAttempts : Z;
  autoScale : option bool
}.

(** A thrown [Error]; the orchestrator only ever reads its message. *)
Record Error := { message : string }.

(** The AI provider's messages and responses (core/ai-provider.ts). *)
Inductive Role := system | user | assistant.
Record AIMessage := { role : Role; content : string }.
Record AIResponse := {
  resp_content : string;
  resp_tokensUsed : option Z;
  resp_model : string;
  resp_finishReason : option string
}.

Definition status_eqb (a b : ResultStatus) : bool :=
  match a, b with
  | success, success | failure, failure | partial, partial => true
  | _, _ => false
  end.


(** JavaScript truthiness of an optional boolean field. *)
Definition truthy (b : option bool) : bool :=
  match b with Some true => true | _ => false end.

(** ** Programs

    An [Agent] is an object: the registry and every snapshot hold
    references ([loc]) to it, and its fields are mutated in place. *)
Abbreviation loc := nat (only parsing).

(** Effects that complete within the running continuation. *)
Inductive Sync : Type -> Type :=
| DateNow : Sync Z
| MathRandom : Sync string
| ResultsGet (id : string) : Sync (option AgentResult)
| ResultsSet (id : string) (r : AgentResult) : Sync unit
| ResultsClear : Sync unit
| AgentNew (a : Agent) : Sync loc
| AgentsGet (id : string) : Sync (option loc)
| AgentsSet (id : string) (a : loc) : Sync unit
| AgentsCopy : Sync (gmap string loc)
| AgentsClear : Sync unit
| SetCurrentTask (a : loc) (t : option AgentTask) : Sync unit
| SetStatus (a : loc) (s : AgentStatus) : Sync unit.

(** Promises the code awaits: the continuation is suspended until the
    timer fires, the provider answers, or the queue has settled the
    promise of [onIdle]. *)
Inductive Await : Type -> Type :=
| SetTimeout (ms : Z) : Await unit
| AiChat (messages : list AIMessage) : Await (Error + AIResponse)
| QueueOnIdle : Await unit.

(** [Spin] stands for a loop that outlived the bound the model gives it;
    [safe_executeTask] and [executeTask_returns_outcome] below show that no
    run reaches it. *)
Inductive Prog (A : Type) : Type :=
| Ret (a : A)
| Throw (e : Error)
| Spin
| Do {X : Type} (e : Sync X) (k : X -> Prog A)
| Wait {X : Type} (e : Await X) (k : X -> Prog A).

Arguments Ret {A} a.
Arguments Throw {A} e.
Arguments Spin {A}.
Arguments Do {A X} e k.
Arguments Wait {A X} e k.

Fixpoint bind {A B} (p : Prog A) (f : A -> Prog B) : Prog B :=
  match p with
  | Ret a => f a
  | Throw e => Throw e
  | Spin => Spin
  | Do e k => Do e (fun x => bind (k x) f)
  | Wait e k => Wait e (fun x => bind (k x) f)
  end.

(** [try { p } catch (e) { h e }] *)
Fixpoint try_catch {A} (p : Prog A) (h : Error -> Prog A) : Prog A :=
  match p with
  | Ret a => Ret a
  | Throw e => h e
  | Spin => Spin
  | Do e k => Do e (fun x => try_catch (k x) h)
  | Wait e k => Wait e (fun x => try_catch (k x) h)
  end.

(** [try { p } finally { c }]: [c] runs on both exits and, completing
    normally, lets the completion of [p] through. *)
Fixpoint try_finally {A} (p : Prog A) (c : Prog unit) : Prog A :=
  match p with
  | Ret a => bind c (fun _ => Ret a)
  | Throw e => bind c (fun _ => Throw e)
  | Spin => Spin
  | Do e k => Do e (fun x => try_finally (k x) c)
  | Wait e k => Wait e (fun x => try_finally (k x) c)
  end.

Declare Scope prog_scope.
Delimit Scope prog_scope with prog.
Bind Scope prog_scope with Prog.
Notation "'do' x <- p ; q" := (bind p (fun x => q))
  (at level 10, x name, p at level 100, q at level 200) : prog_scope.
Open Scope prog_scope.

Definition perform {X} (e : Sync X) : Prog X := Do e Ret.
Definition await {X} (e : Await X) : Prog X := Wait e Ret.

(** [await new Promise((resolve) => setTimeout(resolve, ms))] *)
Definition sleep (ms : Z) : Prog unit := await (SetTimeout ms).

(** [await this.aiProvider.chat(messages)]: a rejection is thrown. *)
Definition aiProvider_chat (messages : list AIMessage) : Prog AIResponse :=
  Wait (AiChat messages)
       (fun r => match r with inl e => Throw e | inr response => Ret response end).

(** ** The orchestrator's methods *)

Definition nl : string := String "010"%char EmptyString.

Section Orchestrator.
Context `{JsonRuntime}.
Variable config : AgentConfig.

Definition getSystemPrompt (taskType : TaskType) : string :=
  match taskType with
  | CodeEdit => "You are a code editing agent. Analyze the request and provide precise file edits in JSON format."
  | Search => "You are a code search agent. Find relevant code patterns and return structured results."
  | Git => "You are a git operations agent. Execute git commands and manage repository operations."
  | Analyze => "You are a code analysis agent. Review code quality, patterns, and provide insights."
  | Custom => "You are a general-purpose agent. Follow the task instructions carefully."
  end.

Definition getUserPrompt (task : AgentTask) : string :=
  "Task: " +:+ t_description task +:+ nl +:+ nl +:+ "Input:" +:+ nl
    +:+ JSON_stringify (t_input task).

Definition parseTaskResult (taskType : TaskType) (content : string) : JsValue :=
  match JSON_parse content with
  | Some v => v
  | None => JObject [("raw", JString content)]
  end.

Definition processTask (task : AgentTask) : Prog JsValue :=
  let systemPrompt := getSystemPrompt (t_type task) in
  let userPrompt := getUserPrompt task in
  do response <- aiProvider_chat
       [ {| role := system; content := systemPrompt |};
         {| role := user; content := userPrompt |} ];
  Ret (parseTaskResult (t_type task) (resp_content response)).

Definition outcome_success (task : AgentTask) (result : JsValue) (d : Z) : AgentResult :=
  {| r_taskId := t_id task; r_status := success; r_output := result;
     r_error := None;
     r_metrics := Some {| duration := d; tokensUsed := None; filesModified := None |} |}.

Definition outcome_failure (task : AgentTask) (e : Error) (d : Z) : AgentResult :=
  {| r_taskId := t_id task; r_status := failure; r_output := JNull;
     r_error := Some (message e);
     r_metrics := Some {| duration := d; tokensUsed := None; filesModified := None |} |}.

(** The [for] loop of [retryTask]; it runs [retryAttempts] times at most,
    which is the bound [n] it is started with. *)
Fixpoint retryLoop (n : nat) (attempt : Z) (task : AgentTask) (error : Error)
  : Prog AgentResult :=
  if attempt <=? retryAttempts config then
    match n with
    | O => Spin
    | S n' =>
        try_catch
          (do _ <- sleep (1000 * attempt);
           do result <- processTask task;
           Ret (outcome_success task result 0))
          (fun retryError =>
             if attempt =? retryAttempts config
             then Ret (outcome_failure task retryError 0)
             else retryLoop n' (attempt + 1) task error)
    end
  else Ret (outcome_failure task error 0).

Definition retryTask (task : AgentTask) (error : Error) : Prog AgentResult :=
  retryLoop (Z.to_nat (retryAttempts config)) 1 task error.

Definition checkInterval : Z := 100.

(** [dependencies.every((depId) => { ... })] *)
Fixpoint every_success (dependencies : list string) : Prog bool :=
  match dependencies with
  | [] => Ret true
  | depId :: rest =>
      do result <- perform (ResultsGet depId);
      if match result with
         | Some r => status_eqb (r_status r) success
         | None => false
         end
      then every_success rest
      else Ret false
  end.

Definition dependency_timeout : Error :=
  {| message := "Dependency timeout: Some dependencies did not complete in time" |}.

(** The [while] loop of [waitForDependencies].  The source puts no bound
    on the number of polls: the loop ends when the clock says so.  The
    clock counts milliseconds and advances over every sleep of the loop
    (see [progress]), which makes [poll_bound], one poll per millisecond
    of the window, more than the loop can use; [safe_executeTask] and
    [executeTask_returns_outcome] show that [Spin] is never reached. *)
Fixpoint waitLoop (n : nat) (dependencies : list string) (maxWaitTime startTime : Z)
  : Prog unit :=
  do t <- perform DateNow;
  if t - startTime <? maxWaitTime then
    match n with
    | O => Spin
    | S n' =>
        do allComplete <- every_success dependencies;
        if (allComplete : bool) then Ret tt
        else do _ <- sleep checkInterval;
             waitLoop n' dependencies maxWaitTime startTime
    end
  else Throw dependency_timeout.

Definition poll_bound (maxWaitTime : Z) : nat := Z.to_nat maxWaitTime.

Definition waitForDependencies (dependencies : list string) : Prog unit :=
  let maxWaitTime := timeout config in
  do startTime <- perform DateNow;
  waitLoop (poll_bound maxWaitTime) dependencies maxWaitTime startTime.

Definition executeTask (task : AgentTask) : Prog AgentResult :=
  do startTime <- perform DateNow;
  try_catch
    (do _ <- match t_dependencies task with
             | Some dependencies => waitForDependencies dependencies
             | None => Ret tt
             end;
     do result <- processTask task;
     do t <- perform DateNow;
     Ret (outcome_success task result (t - startTime)))
    (fun error =>
       do t <- perform DateNow;
       if truthy (t_retryOnFailure task) && (retryAttempts config >? 0)
       then retryTask task error
       else Ret (outcome_failure task error (t - startTime))).

Definition createAgent (name : string) (capabilities : list string) : Prog loc :=
  do t <- perform DateNow;
  do r <- perform MathRandom;
  let agent := {| a_id := "agent-" +:+ pretty t +:+ "-" +:+ r;
                  a_name := name;
                  a_status := idle;
                  a_currentTask := None;
                  a_capabilities := capabilities |} in
  do a <- perform (AgentNew agent);
  do _ <- perform (AgentsSet (a_id agent) a);
  Ret a.

Definition assignTask (agentId : string) (task : AgentTask) : Prog unit :=
  do agent <- perform (AgentsGet agentId);
  match agent with
  | None => Throw {| message := "Agent " +:+ agentId +:+ " not found" |}
  | Some a =>
      do _ <- perform (SetCurrentTask a (Some task));
      do _ <- perform (SetStatus a busy);
      try_finally
        (do result <- executeTask task;
         perform (ResultsSet (t_id task) result))
        (do _ <- perform (SetCurrentTask a None);
         perform (SetStatus a idle))
  end.

Definition getStatus : Prog (gmap string loc) := perform AgentsCopy.

Definition getTaskResult (taskId : string) : Prog (option AgentResult) :=
  perform (ResultsGet taskId).

Definition shutdown : Prog unit :=
  do _ <- await QueueOnIdle;
  do _ <- perform AgentsClear;
  perform ResultsClear.

End Orchestrator.

(** ** Shared state of one orchestrator *)

Record Orch := {
  agents : gmap string loc;
  heap : list Agent;
  taskResults : gmap string AgentResult
}.

Definition empty_orch : Orch :=
  {| agents := ∅; heap := []; taskResults := ∅ |}.

Definition with_agents (f : gmap string loc -> gmap string loc) (o : Orch) : Orch :=
  {| agents := f (agents o); heap := heap o; taskResults := taskResults o |}.
Definition with_heap (f : list Agent -> list Agent) (o : Orch) : Orch :=
  {| agents := agents o; heap := f (heap o); taskResults := taskResults o |}.
Definition with_taskResults
    (f : gmap string AgentResult -> gmap string AgentResult) (o : Orch) : Orch :=
  {| agents := agents o; heap := heap o; taskResults := f (taskResults o) |}.

Definition set_currentTask (t : option AgentTask) (a : Agent) : Agent :=
  {| a_id := a_id a; a_name := a_name a; a_status := a_status a;
     a_currentTask := t; a_capabilities := a_capabilities a |}.
Definition set_status (s : AgentStatus) (a : Agent) : Agent :=
  {| a_id := a_id a; a_name := a_name a; a_status := s;
     a_currentTask := a_currentTask a; a_capabilities := a_capabilities a |}.

(** What a synchronous effect returns and does, at clock reading [t] and
    with [rnd] the next string [Math.random] yields. *)
Definition handle {X} (e : Sync X) (t : Z) (rnd : string) (o : Orch) : X * Orch :=
  match e in Sync X return X * Orch with
  | DateNow => (t, o)
  | MathRandom => (rnd, o)
  | ResultsGet id => (taskResults o !! id, o)
  | ResultsSet id r => (tt, with_taskResults (insert id r) o)
  | ResultsClear => (tt, with_taskResults (fun _ => ∅) o)
  | AgentNew a => (length (heap o), with_heap (fun h => (h ++ [a])%list) o)
  | AgentsGet id => (agents o !! id, o)
  | AgentsSet id a => (tt, with_agents (insert id a) o)
  | AgentsCopy => (agents o, o)
  | AgentsClear => (tt, with_agents (fun _ => ∅) o)
  | SetCurrentTask a t => (tt, with_heap (alter (set_currentTask t) a) o)
  | SetStatus a s => (tt, with_heap (alter (set_status s) a) o)
  end.

(** ** Running one call to its end

    The world answers the n-th suspension of the call: what the provider
    replies, how much before its delay a timer fires ([early]), how long
    the suspension lasts beyond that ([latency]), and what the rest of the
    process did to the shared state meanwhile. *)
Record World := {
  ai_reply : nat -> list AIMessage -> Error + AIResponse;
  early : nat -> nat;
  latency : nat -> nat;
  random : nat -> string;
  interfere : nat -> Orch -> Orch
}.

Inductive Event :=
| EvSleep (ms : Z)
| EvChat (messages : list AIMessage)
| EvIdle.

Record Run := {
  clock : Z;
  orch : Orch;
  suspensions : nat;
  trace : list Event
}.

Inductive Completion (A : Type) : Type :=
| Returned (a : A)
| Thrown (e : Error)
| Spun.
Arguments Returned {A} a.
Arguments Thrown {A} e.
Arguments Spun {A}.

Definition start (t : Z) (o : Orch) : Run :=
  {| clock := t; orch := o; suspensions := 0; trace := [] |}.

Definition with_orch (o : Orch) (s : Run) : Run :=
  {| clock := clock s; orch := o; suspensions := suspensions s; trace := trace s |}.

(** The least the clock advances while a timer of [ms] runs: the
    millisecond that tells the callback from the call. *)
Definition progress (ms : Z) : Z := Z.min 1 (Z.max 0 ms).

(** What the clock advances by over the n-th suspension, [ms] being the
    delay asked for ([0] when the suspension is not a timer). *)
Definition elapse (W : World) (n : nat) (ms : Z) : Z :=
  Z.max (progress ms) (Z.max 0 ms - Z.of_nat (early W n)) + Z.of_nat (latency W n).

Definition suspend (W : World) (ev : Event) (ms : Z) (s : Run) : Run :=
  {| clock := clock s + elapse W (suspensions s) ms;
     orch := interfere W (suspensions s) (orch s);
     suspensions := S (suspensions s);
     trace := (trace s ++ [ev])%list |}.

Definition answer {X} (W : World) (e : Await X) (s : Run) : X * Run :=
  match e in Await X return X * Run with
  | SetTimeout ms => (tt, suspend W (EvSleep ms) ms s)
  | AiChat messages =>
      (ai_reply W (suspensions s) messages, suspend W (EvChat messages) 0 s)
  | QueueOnIdle => (tt, suspend W EvIdle 0 s)
  end.

Fixpoint exec {A} (W : World) (p : Prog A) (s : Run) : Completion A * Run :=
  match p with
  | Ret a => (Returned a, s)
  | Throw e => (Thrown e, s)
  | Spin => (Spun, s)
  | Do e k =>
      let '(x, o) := handle e (clock s) (random W (suspensions s)) (orch s) in
      exec W (k x) (with_orch o s)
  | Wait e k =>
      let '(x, s') := answer W e s in
      exec W (k x) s'
  end.

(** The body of a task is [processTask], which calls the provider once:
    each [EvChat] of a trace is one invocation of the body. *)
Definition is_chat (ev : Event) : bool :=
  match ev with EvChat _ => true | _ => false end.
Definition body_invocations (tr : list Event) : nat :=
  length (filter (fun ev => is_chat ev = true) tr).

(** ** Vocabulary of the statements *)

Section Vocabulary.
Context `{JsonRuntime}.
Variable config : AgentConfig.
Variable W : World.

(** A prerequisite is unsatisfied while the store holds no [success]
    outcome for it. *)
Definition unsatisfied (depId : string) (o : Orch) : Prop :=
  forall r, taskResults o !! depId = Some r -> r_status r <> success.

Definition satisfied (depId : string) (o : Orch) : Prop :=
  exists r, taskResults o !! depId = Some r /\ r_status r = success.

(** All events of a wait are polls. *)
Definition polls (k : nat) : list Event := replicate k (EvSleep checkInterval).

(** The two messages [processTask] sends for a task. *)
Definition prompt (task : AgentTask) : list AIMessage :=
  [ {| role := system; content := getSystemPrompt (t_type task) |};
    {| role := user; content := getUserPrompt task |} ].

(** The first statement of [executeTask]'s [try] block. *)
Definition dependency_gate (task : AgentTask) : Prog unit :=
  match t_dependencies task with
  | Some dependencies => waitForDependencies config dependencies
  | None => Ret tt
  end.

Definition will_retry (task : AgentTask) : bool :=
  truthy (t_retryOnFailure task) && (retryAttempts config >? 0).

(** What the [catch] block of [executeTask] does with an error caught
    at state [s], the call having started at [startTime]. *)
Definition exec_catch (task : AgentTask) (startTime : Z) (error : Error) (s : Run)
  : Completion AgentResult * Run :=
  if will_retry task
  then exec W (retryTask config task error) s
  else (Returned (outcome_failure task error (clock s - startTime)), s).

(** The events of the retries [attempt], [attempt + 1], ... ([n] of them):
    a back-off sleep of [1000 * attempt], then the body. *)
Fixpoint retry_events (task : AgentTask) (attempt : Z) (n : nat) : list Event :=
  match n with
  | O => []
  | S n' => EvSleep (1000 * attempt) :: EvChat (prompt task)
              :: retry_events task (attempt + 1) n'
  end.

Definition failed (r : Error + AIResponse) : Prop :=
  match r with inl _ => True | inr _ => False end.

End Vocabulary.

(** ** The event loop

    One orchestrator and everything in flight on it.  A call or a queued
    job runs until its next [await]; it is then [Blocked] until the event
    loop resumes it with the answer of the promise. *)

Inductive Susp (A : Type) : Type :=
| Settled (c : Completion A)
| Blocked {X : Type} (e : Await X) (since : Z) (k : X -> Prog A).
Arguments Settled {A} c.
Arguments Blocked {A X} e since k.

Fixpoint advance {A} (p : Prog A) (t : Z) (rnd : string) (o : Orch) : Susp A * Orch :=
  match p with
  | Ret a => (Settled (Returned a), o)
  | Throw e => (Settled (Thrown e), o)
  | Spin => (Settled Spun, o)
  | Do e k => let '(x, o') := handle e t rnd o in advance (k x) t rnd o'
  | Wait e k => (Blocked e t k, o)
  end.

(** When the delay of a timer set at [since] has elapsed, and the
    earliest its callback may run. *)
Definition due (since ms : Z) : Z := since + Z.max 0 ms.
Definition earliest (since ms : Z) : Z := since + progress ms.

Inductive Answer :=
| Fired
| Replied (r : Error + AIResponse)
| Idled.

(** Resuming a blocked continuation at time [t]; [idle] tells whether the
    promise of [taskQueue.onIdle()] it may be awaiting has settled.
    [None]: the answer is not one the continuation waits for, or not
    yet. *)
Definition resume {A} (s : Susp A) (a : Answer) (idle : bool) (t : Z) (o : Orch)
  : option (Susp A * Orch) :=
  match s with
  | Settled _ => None
  | Blocked e since k =>
      match e in Await X return (X -> Prog A) -> option (Susp A * Orch) with
      | SetTimeout ms => fun k =>
          match a with
          | Fired => if earliest since ms <=? t
                     then Some (advance (k tt) t EmptyString o) else None
          | _ => None
          end
      | AiChat _ => fun k =>
          match a with
          | Replied r => Some (advance (k r) t EmptyString o)
          | _ => None
          end
      | QueueOnIdle => fun k =>
          match a with
          | Idled => if idle then Some (advance (k tt) t EmptyString o) else None
          | _ => None
          end
      end k
  end.

(** A function handed to [taskQueue.add]: waiting in the queue, or started
    (p-queue counts it as pending until it settles). *)
Inductive Job :=
| Queued (task : AgentTask)
| Running (task : AgentTask) (s : Susp AgentResult).

(** A call made on the orchestrator.  [executeParallel] awaits
    [Promise.all] of the jobs it added, [first] being the first of them.
    [shutdown] awaits [taskQueue.onIdle()], a promise p-queue settles at
    the call when nothing is queued or pending then, and otherwise the
    next time that is so; [ready] tells whether it has settled.  The
    continuation runs later, whatever the queue holds by then. *)
Inductive Call :=
| CallExecuteTask (task : AgentTask) (s : Susp AgentResult)
| CallAssignTask (agentId : string) (task : AgentTask) (agent : option loc)
    (s : Susp unit)
| CallShutdown (ready : bool) (s : Susp unit)
| CallExecuteParallel (tasks : list AgentTask) (first : nat).

(** The queue tells the promises of [onIdle] whether it is idle. *)
Definition notify (idle : bool) (c : Call) : Call :=
  match c with
  | CallShutdown ready s => CallShutdown (ready || idle) s
  | _ => c
  end.

Record Sys := {
  now : Z;
  shared : Orch;
  jobs : list Job;
  calls : list Call
}.

Definition is_pending (j : Job) : bool :=
  match j with Running _ (Blocked _ _ _) => true | _ => false end.

Definition is_settled (j : Job) : bool :=
  match j with Running _ (Settled _) => true | _ => false end.

Definition pendingCount (js : list Job) : Z :=
  Z.of_nat (length (filter (fun j => is_pending j = true) js)).

Definition queue_idle (js : list Job) : bool := forallb is_settled js.

Section EventLoop.
Context `{JsonRuntime}.
Variable config : AgentConfig.

(** p-queue starts queued functions, oldest first, while fewer than
    [concurrency] are pending.  [pending] counts the pending jobs of the
    whole queue. *)
Fixpoint pump (t : Z) (pending : Z) (js : list Job) (o : Orch) : list Job * Orch :=
  match js with
  | [] => ([], o)
  | Queued task :: rest =>
      if pending <? maxConcurrent config then
        let '(s, o1) := advance (executeTask config task) t EmptyString o in
        let j := Running task s in
        let '(rest', o2) :=
          pump t (if is_pending j then pending + 1 else pending) rest o1 in
        (j :: rest', o2)
      else (js, o)
  | j :: rest =>
      let '(rest', o1) := pump t pending rest o in
      (j :: rest', o1)
  end.

(** [this.taskQueue.add(() => this.executeTask(task))] *)
Definition queue_add (t : Z) (task : AgentTask) (qo : list Job * Orch)
  : list Job * Orch :=
  let js := (fst qo ++ [Queued task])%list in
  pump t (pendingCount js) js (snd qo).

Inductive Thread := InJob (i : nat) | InCall (i : nat).

Inductive Label :=
| Tick (ms : nat)
| Resume (th : Thread) (a : Answer)
| DoCreateAgent (name : string) (capabilities : list string) (rnd : string)
| DoAssignTask (agentId : string) (task : AgentTask)
| DoExecuteTask (task : AgentTask)
| DoExecuteParallel (tasks : list AgentTask)
| DoShutdown.

(** Of the methods of the orchestrator [shutdown] alone awaits the
    queue. *)
Definition resume_call (c : Call) (a : Answer) (t : Z) (o : Orch)
  : option (Call * Orch) :=
  match c with
  | CallExecuteTask task s =>
      '(s', o') ← resume s a false t o; Some (CallExecuteTask task s', o')
  | CallAssignTask agentId task agent s =>
      '(s', o') ← resume s a false t o; Some (CallAssignTask agentId task agent s', o')
  | CallShutdown ready s =>
      '(s', o') ← resume s a ready t o; Some (CallShutdown ready s', o')
  | CallExecuteParallel _ _ => None
  end.

(** One transition of the event loop.  A job that settles may leave the
    queue idle, and so may a batch whose jobs all settle as they start:
    the queue then settles the promises of [onIdle] that are waiting
    ([notify]).  The functions the queue runs are calls of [executeTask],
    which does not await the queue. *)
Definition step (l : Label) (σ : Sys) : option Sys :=
  match l with
  | Tick ms =>
      Some {| now := now σ + Z.of_nat ms; shared := shared σ;
              jobs := jobs σ; calls := calls σ |}
  | Resume (InJob i) a =>
      match jobs σ !! i with
      | Some (Running task s) =>
          '(s', o) ← resume s a false (now σ) (shared σ);
          let js := <[i := Running task s']> (jobs σ) in
          let '(js', o') := pump (now σ) (pendingCount js) js o in
          Some {| now := now σ; shared := o'; jobs := js';
                  calls := notify (queue_idle js') <$> calls σ |}
      | _ => None
      end
  | Resume (InCall i) a =>
      c ← calls σ !! i;
      '(c', o) ← resume_call c a (now σ) (shared σ);
      Some {| now := now σ; shared := o; jobs := jobs σ;
              calls := <[i := c']> (calls σ) |}
  | DoCreateAgent name capabilities rnd =>
      let '(_, o) := advance (createAgent name capabilities) (now σ) rnd (shared σ) in
      Some {| now := now σ; shared := o; jobs := jobs σ; calls := calls σ |}
  | DoAssignTask agentId task =>
      let '(s, o) := advance (assignTask config agentId task) (now σ) EmptyString
                       (shared σ) in
      Some {| now := now σ; shared := o; jobs := jobs σ;
              calls := (calls σ ++ [CallAssignTask agentId task
                                      (agents (shared σ) !! agentId) s])%list |}
  | DoExecuteTask task =>
      let '(s, o) := advance (executeTask config task) (now σ) EmptyString
                       (shared σ) in
      Some {| now := now σ; shared := o; jobs := jobs σ;
              calls := (calls σ ++ [CallExecuteTask task s])%list |}
  | DoExecuteParallel tasks =>
      let '(js, o) := fold_left (fun qo task => queue_add (now σ) task qo) tasks
                        (jobs σ, shared σ) in
      Some {| now := now σ; shared := o; jobs := js;
              calls := ((notify (queue_idle js) <$> calls σ)
                        ++ [CallExecuteParallel tasks (length (jobs σ))])%list |}
  | DoShutdown =>
      let '(s, o) := advance shutdown (now σ) EmptyString (shared σ) in
      Some {| now := now σ; shared := o; jobs := jobs σ;
              calls := (calls σ ++ [CallShutdown (queue_idle (jobs σ)) s])%list |}
  end.

Fixpoint run (ls : list Label) (σ : Sys) : option Sys :=
  match ls with
  | [] => Some σ
  | l :: rest => σ' ← step l σ; run rest σ'
  end.

(** [new AgentOrchestrator(config, aiProvider)] at clock reading [t]; the
    constructor of p-queue throws unless [concurrency] is at least 1. *)
Definition AgentOrchestrator_new (t : Z) : option Sys :=
  if 1 <=? maxConcurrent config
  then Some {| now := t; shared := empty_orch; jobs := []; calls := [] |}
  else None.

Definition reachable (σ : Sys) : Prop :=
  exists t σ0 ls, AgentOrchestrator_new t = Some σ0 /\ run ls σ0 = Some σ.

End EventLoop.

(** [Promise.all] over the promises [taskQueue.add] returned: pending
    ([None]) until every job has settled, unless one has rejected.  The
    promise of a job fulfils with what the function returned. *)
Fixpoint promise_all (ps : list Job) : option (Completion (list (option AgentResult))) :=
  match ps with
  | [] => Some (Returned [])
  | Running _ (Settled (Thrown e)) :: _ => Some (Thrown e)
  | Running _ (Settled Spun) :: _ => Some Spun
  | p :: rest =>
      match promise_all rest with
      | Some (Returned results) =>
          match p with
          | Running _ (Settled (Returned r)) => Some (Returned (Some r :: results))
          | _ => None
          end
      | Some (Thrown e) => Some (Thrown e)
      | Some Spun => Some Spun
      | None => None
      end
  end.

(** What the [executeParallel] call that added the jobs [first], ...,
    [first + n - 1] returns, once [Promise.all] has settled:
    [results.filter((result) => result !== undefined)]. *)
Definition executeParallel (σ : Sys) (first n : nat)
  : option (Completion (list AgentResult)) :=
  match promise_all (take n (drop first (jobs σ))) with
  | Some (Returned results) => Some (Returned (omap (fun r => r) results))
  | Some (Thrown e) => Some (Thrown e)
  | Some Spun => Some Spun
  | None => None
  end.

(** A task body is executing while its call to the provider is awaited. *)
Definition in_body {A} (s : Susp A) : bool :=
  match s with
  | Blocked (AiChat _) _ _ => true
  | _ => false
  end.

Definition job_in_body (j : Job) : bool :=
  match j with Running _ s => in_body s | Queued _ => false end.

Definition call_in_body (c : Call) : bool :=
  match c with
  | CallExecuteTask _ s => in_body s
  | CallAssignTask _ _ _ s => in_body s
  | _ => false
  end.

Definition bodies_of_jobs (σ : Sys) : Z :=
  Z.of_nat (length (filter (fun j => job_in_body j = true) (jobs σ))).

Definition bodies_of_calls (σ : Sys) : Z :=
  Z.of_nat (length (filter (fun c => call_in_body c = true) (calls σ))).

(** What a caller sees of agent [id] through a snapshot taken earlier: the
    snapshot holds the reference, the object is the live one. *)
Definition view (snapshot : gmap string loc) (o : Orch) (id : string) : option Agent :=
  a ← snapshot !! id; heap o !! a.

(** ** Properties of programs, by their structure *)

(** Effects that leave the shared state alone. *)
Definition reads {X} (e : Sync X) : Prop :=
  match e with
  | DateNow | MathRandom | ResultsGet _ | AgentsGet _ | AgentsCopy => True
  | _ => False
  end.

(** The program never writes the shared state. *)
Fixpoint readonly {A} (p : Prog A) : Prop :=
  match p with
  | Do e k => reads e /\ forall x, readonly (k x)
  | Wait e k => forall x, readonly (k x)
  | _ => True
  end.

Definition timer_or_chat {X} (e : Await X) : Prop :=
  match e with QueueOnIdle => False | _ => True end.

(** The program awaits [n] times at most, timers and the provider only. *)
Fixpoint bounded {A} (n : nat) (p : Prog A) : Prop :=
  match p with
  | Do e k => forall x, bounded n (k x)
  | Wait e k =>
      timer_or_chat e /\
      match n with
      | O => False
      | S n' => forall x, bounded n' (k x)
      end
  | _ => True
  end.

(** The earliest clock reading at which the promise of [e], awaited at
    [since], can settle. *)
Definition settles_from {X} (e : Await X) (since : Z) : Z :=
  match e with
  | SetTimeout ms => earliest since ms
  | _ => since
  end.

(** Started when the clock reads [t] or more, the program completes with
    [Q] whatever the answers are, the clock never running backwards and
    advancing over every timer.  [Q] also sees the least the clock can read
    then. *)
Fixpoint safe {A} (Q : Completion A -> Z -> Prop) (p : Prog A) (t : Z) : Prop :=
  match p with
  | Ret a => Q (Returned a) t
  | Throw e => Q (Thrown e) t
  | Spin => Q Spun t
  | Do e k =>
      match e in Sync X return (X -> Prog A) -> Prop with
      | DateNow => fun k => forall t', t <= t' -> safe Q (k t') t'
      | _ => fun k => forall x, safe Q (k x) t
      end k
  | Wait e k => forall x, safe Q (k x) (settles_from e t)
  end.

(** Every stretch of the program between two awaits takes a state where
    [I] holds to one where [I] holds, whatever the rest of the process does
    to the state during the awaits as long as it keeps [I]; the program
    completes with [Q]. *)
Fixpoint keeps {A} (I : Orch -> Prop) (Q : Completion A -> Orch -> Prop)
    (p : Prog A) (o : Orch) : Prop :=
  match p with
  | Ret a => Q (Returned a) o
  | Throw e => Q (Thrown e) o
  | Spin => Q Spun o
  | Do e k => forall t rnd, keeps I Q (k (fst (handle e t rnd o))) (snd (handle e t rnd o))
  | Wait e k => I o /\ forall x o', I o' -> keeps I Q (k x) o'
  end.

Definition monotone {A} (Q : Completion A -> Z -> Prop) : Prop :=
  forall c t t', t <= t' -> Q c t -> Q c t'.

(** The same properties of a suspended continuation. *)
Definition susp_readonly {A} (s : Susp A) : Prop :=
  match s with
  | Settled _ => True
  | Blocked e _ k => forall x, readonly (k x)
  end.

Definition susp_bounded {A} (n : nat) (s : Susp A) : Prop :=
  match s with
  | Settled _ => True
  | Blocked e _ k =>
      timer_or_chat e /\
      match n with
      | O => False
      | S n' => forall x, bounded n' (k x)
      end
  end.

Definition susp_safe {A} (Q : Completion A -> Z -> Prop) (t : Z) (s : Susp A) : Prop :=
  match s with
  | Settled c => exists t', Q c t'
  | Blocked e since k => since <= t /\ forall x, safe Q (k x) (settles_from e since)
  end.

Definition susp_keeps {A} (I : Orch -> Prop) (Q : Completion A -> Orch -> Prop)
    (s : Susp A) : Prop :=
  match s with
  | Settled _ => True
  | Blocked e _ k => forall x o, I o -> keeps I Q (k x) o
  end.

(** ** Invariants of the event loop *)

(** An agent holds a task exactly while it is busy, and is never in the
    error status. *)
Definition agent_ok (a : Agent) : Prop :=
  (a_currentTask a <> None <-> a_status a = busy) /\ a_status a <> error.

Definition heap_ok (o : Orch) : Prop := Forall agent_ok (heap o).

(** Both ends of a status change the orchestrator may make. *)
Definition status_step (before after : AgentStatus) : Prop :=
  before = after
  \/ (before = idle /\ after = busy)
  \/ (before = busy /\ after = idle).

Definition released (agent : option loc) (o : Orch) : Prop :=
  forall a ag, agent = Some a -> heap o !! a = Some ag ->
    a_status ag = idle /\ a_currentTask ag = None.

(** The objects of [o] are still there in [o'], with the identity they
    were created with. *)
Definition heap_extends (o o' : Orch) : Prop :=
  forall a ag, heap o !! a = Some ag ->
    exists ag', heap o' !! a = Some ag'
      /\ a_id ag' = a_id ag /\ a_name ag' = a_name ag
      /\ a_capabilities ag' = a_capabilities ag.

(** The outcomes [executeTask] builds for a task. *)
Definition outcome_of (task : AgentTask) (r : AgentResult) : Prop :=
  r_taskId r = t_id task
  /\ ((r_status r = success /\ r_error r = None)
      \/ (r_status r = failure /\ exists m, r_error r = Some m)).

Definition returns_outcome (task : AgentTask) (c : Completion AgentResult) (_ : Z)
  : Prop :=
  exists r, c = Returned r /\ outcome_of task r.

Definition job_task (j : Job) : AgentTask :=
  match j with Queued task => task | Running task _ => task end.

Definition job_ok (t : Z) (j : Job) : Prop :=
  match j with
  | Queued _ => True
  | Running task s =>
      susp_safe (returns_outcome task) t s /\ susp_readonly s
      /\ exists b, susp_bounded b s
  end.

(** The awaits [executeTask] can make: the polls of the dependency wait,
    the body, and per retry a sleep and the body. *)
Definition job_bound (config : AgentConfig) : nat :=
  (poll_bound (timeout config) + 1 + 2 * Z.to_nat (retryAttempts config))%nat.

Definition job_bounded (config : AgentConfig) (b : nat) (j : Job) : Prop :=
  match j with
  | Queued _ => b = S (job_bound config)
  | Running _ s => susp_bounded b s
  end.

(** ** A schedule that runs the queue to its end

    The first pending job is resumed, after advancing the clock to the time
    its timer is due when it sleeps, with the reply of the world when it
    awaits the provider. *)
Fixpoint first_pending (js : list Job) (i : nat) : option (nat * Susp AgentResult) :=
  match js with
  | [] => None
  | Running _ (Blocked e since k) :: _ => Some (i, Blocked e since k)
  | _ :: rest => first_pending rest (S i)
  end.

Definition drive_labels (W : World) (n : nat) (σ : Sys) : list Label :=
  match first_pending (jobs σ) 0 with
  | Some (i, Blocked e since _) =>
      match e with
      | SetTimeout ms =>
          [Tick (Z.to_nat (due since ms - now σ)); Resume (InJob i) Fired]
      | AiChat messages => [Resume (InJob i) (Replied (ai_reply W n messages))]
      | QueueOnIdle => [Resume (InJob i) Idled]
      end
  | _ => []
  end.

Fixpoint drive `{JsonRuntime} (config : AgentConfig) (W : World) (fuel n : nat)
    (σ : Sys) : Sys :=
  match fuel with
  | O => σ
  | S fuel' =>
      match run config (drive_labels W n σ) σ with
      | Some σ' => drive config W fuel' (S n) σ'
      | None => σ
      end
  end.

Definition no_spin {A} (c : Completion A) (_ : Z) : Prop := c <> Spun.

(** Every reference the registry holds is to an object. *)
Definition registry_ok (o : Orch) : Prop :=
  forall id a, agents o !! id = Some a -> is_Some (heap o !! a).

Definition orch_ok (o : Orch) : Prop := heap_ok o /\ registry_ok o.

(** What holds when [assignTask] completes, [agent] being the object the
    registry gave for the id. *)
Definition assign_post (agent : option loc) (c : Completion unit) (o : Orch) : Prop :=
  orch_ok o /\ (c <> Spun -> released agent o).

Definition call_ok (σ : Sys) (c : Call) : Prop :=
  match c with
  | CallExecuteTask task s =>
      susp_safe (returns_outcome task) (now σ) s /\ susp_readonly s
  | CallAssignTask _ _ agent s =>
      susp_safe no_spin (now σ) s /\ susp_keeps orch_ok (assign_post agent) s
  | CallShutdown _ s => susp_keeps orch_ok (fun _ o => orch_ok o) s
  | CallExecuteParallel tasks first =>
      forall k task, tasks !! k = Some task ->
        exists j, jobs σ !! (first + k)%nat = Some j /\ job_task j = task
  end.

Record invariant (config : AgentConfig) (σ : Sys) : Prop := {
  inv_concurrency : 1 <= maxConcurrent config;
  inv_orch : orch_ok (shared σ);
  inv_jobs : Forall (job_ok (now σ)) (jobs σ);
  inv_pending : pendingCount (jobs σ) <= maxConcurrent config;
  inv_queue : forall task, Queued task ∈ jobs σ ->
                maxConcurrent config <= pendingCount (jobs σ);
  inv_calls : Forall (call_ok σ) (calls σ)
}.

(** The record [createAgent] builds at clock reading [t] when
    [Math.random] yields [rnd]. *)
Definition new_agent (name : string) (capabilities : list string) (t : Z)
    (rnd : string) : Agent :=
  {| a_id := "agent-" +:+ pretty t +:+ "-" +:+ rnd;
     a_name := name; a_status := idle; a_currentTask := None;
     a_capabilities := capabilities |}.

(** The jobs of [js] are still in [js'], in place, for the same tasks. *)
Definition jobs_extend (js js' : list Job) : Prop :=
  forall i j, js !! i = Some j ->
    exists j', js' !! i = Some j' /\ job_task j' = job_task j.

(** The calls [cs'] are the calls [cs] but for what the queue told the
    promises of [onIdle]. *)
Definition notified (cs cs' : list Call) : Prop :=
  Forall2 (fun c c' => exists idle, c' = notify idle c) cs cs'.

(** ** What decides an outcome *)

(** The answer a promise settles with. *)
Definition answer_of {X} (e : Await X) (x : X) : Answer :=
  match e in Await X return X -> Answer with
  | SetTimeout _ => fun _ => Fired
  | AiChat _ => fun r => Replied r
  | QueueOnIdle => fun _ => Idled
  end x.

(** The program completes with [Q], which is told the answer to the last
    promise the program awaited, [last] when it awaited none. *)
Fixpoint decided {A} (Q : option Answer -> Completion A -> Prop)
    (last : option Answer) (p : Prog A) : Prop :=
  match p with
  | Ret a => Q last (Returned a)
  | Throw e => Q last (Thrown e)
  | Spin => Q last Spun
  | Do e k => forall x, decided Q last (k x)
  | Wait e k => forall x, decided Q (Some (answer_of e x)) (k x)
  end.

Definition susp_decided {A} (Q : option Answer -> Completion A -> Prop)
    (s : Susp A) : Prop :=
  match s with
  | Settled _ => True
  | Blocked e _ k => forall x, decided Q (Some (answer_of e x)) (k x)
  end.

(** The answer the world gives to the suspension [ev], the n-th it
    answers, and the answer to the last of the suspensions [tr] of a call
    whose first suspension was the n-th. *)
Definition answer_at (W : World) (n : nat) (ev : Event) : Answer :=
  match ev with
  | EvSleep _ => Fired
  | EvChat messages => Replied (ai_reply W n messages)
  | EvIdle => Idled
  end.

Definition last_answer (W : World) (n : nat) (tr : list Event) : option Answer :=
  match last tr with
  | Some ev => Some (answer_at W (n + length tr - 1) ev)
  | None => None
  end.

(** The answer that settles job [i] at the step [l]: the one the step
    resumes it with, none when the step starts the job. *)
Definition settling_answer (l : Label) (i : nat) : option Answer :=
  match l with
  | Resume (InJob k) a => if (k =? i)%nat then Some a else None
  | _ => None
  end.

Section Verdict.
Context `{JsonRuntime}.

(** The status of an outcome is that of the last thing [executeTask] did
    for the task.  When that was a call of the body, the outcome is a
    success with the parsed reply if the provider answered, and a failure
    with the message of the rejection if it rejected.  When it was a poll
    of the dependency wait, or nothing was awaited at all, the outcome is a
    failure with the dependency-timeout message.  Nothing is thrown.
    ([Spun] is excluded by [safe_executeTask].) *)
Definition verdict (task : AgentTask) (last : option Answer)
    (c : Completion AgentResult) : Prop :=
  match c with
  | Returned r =>
      match last with
      | Some (Replied (inr response)) =>
          r_status r = success
          /\ r_output r = parseTaskResult (t_type task) (resp_content response)
      | Some (Replied (inl e)) =>
          r_status r = failure /\ r_error r = Some (message e)
      | Some Fired | None =>
          r_status r = failure /\ r_error r = Some (message dependency_timeout)
      | Some Idled => False
      end
  | Thrown _ => False
  | Spun => True
  end.

Definition job_decided (j : Job) : Prop :=
  match j with
  | Queued _ => True
  | Running task s => susp_decided (verdict task) s
  end.

End Verdict.

(** ** Time spent asleep *)

(** The time the timers of a trace were set for. *)
Definition slept (tr : list Event) : Z :=
  foldr (fun ev acc => match ev with EvSleep ms => Z.max 0 ms + acc | _ => acc end) 0 tr.


(** ** What [assignTask] does to the agent

    [agent.currentTask = task; agent.status = 'busy'] before the task runs,
    [agent.currentTask = undefined; agent.status = 'idle'] in the
    [finally] block. *)
Definition engage (a : loc) (task : AgentTask) (o : Orch) : Orch :=
  with_heap (alter (set_status busy) a)
    (with_heap (alter (set_currentTask (Some task)) a) o).

Definition release (a : loc) (o : Orch) : Orch :=
  with_heap (alter (set_status idle) a)
    (with_heap (alter (set_currentTask None) a) o).

Definition agent_not_found (agentId : string) : Error :=
  {| message := "Agent " +:+ agentId +:+ " not found" |}.

(** ** Calls and steps that only execute tasks

    [executeTask] and [executeParallel], as opposed to [createAgent],
    [assignTask] and [shutdown]. *)
Definition is_execute_call (c : Call) : bool :=
  match c with
  | CallExecuteTask _ _ | CallExecuteParallel _ _ => true
  | _ => false
  end.

Definition is_execute_label (l : Label) : bool :=
  match l with
  | Tick _ | Resume _ _ | DoExecuteTask _ | DoExecuteParallel _ => true
  | _ => false
  end.

(** ** The commands that drive the orchestrator

    The CLI builds the orchestrator from the [agents] section of the
    configuration (src/cli.ts); the commands [agent parallel], [agent
    status] (src/commands/agent-manager.ts) and [edit multi]
    (src/commands/code-edit.ts) call it. *)

(** A number of the configuration file: [z.number()] lets through every
    number but [NaN], whole or not. *)
Inductive JsNumber :=
| Finite (q : Q)
| PlusInfinity
| MinusInfinity.

(** [agents: { maxConcurrent, timeout, retryAttempts }] of the
    configuration (src/types/config.ts). *)
Record AgentsSettings := {
  s_maxConcurrent : JsNumber;
  s_timeout : JsNumber;
  s_retryAttempts : JsNumber
}.

(** [x || d] on numbers: [0] is the falsy one, whatever else is kept. *)
Definition or_default (x d : JsNumber) : JsNumber :=
  match x with
  | Finite q => if Qeq_bool q (inject_Z 0) then d else x
  | _ => x
  end.

(** The object the CLI hands to [new AgentOrchestrator]. *)
Record OrchestratorOptions := {
  o_timeout : JsNumber;
  o_maxConcurrent : JsNumber;
  o_retryAttempts : JsNumber
}.

(** The orchestrator is modelled for options that are whole numbers:
    [config] stands for such options. *)
Definition whole (x : JsNumber) (z : Z) : Prop :=
  match x with
  | Finite q => Qeq q (inject_Z z)
  | _ => False
  end.

Definition configures (options : OrchestratorOptions) (config : AgentConfig) : Prop :=
  whole (o_timeout options) (timeout config)
  /\ whole (o_maxConcurrent options) (maxConcurrent config)
  /\ whole (o_retryAttempts options) (retryAttempts config).

(** A row of the table [showStatus] prints. *)
Record StatusRow := {
  ID : string;
  Name : string;
  Status : AgentStatus;
  Current_Task : string;
  Capabilities : string
}.

(** [Array.prototype.join] *)
Fixpoint join (sep : string) (l : list string) : string :=
  match l with
  | [] => EmptyString
  | [x] => x
  | x :: rest => x +:+ sep +:+ join sep rest
  end.

Module Commands.

(** The configuration [new AgentOrchestrator] is called with. *)
Definition orchestrator_config (agents : AgentsSettings) : OrchestratorOptions :=
  {| o_timeout := or_default (s_timeout agents) (Finite (inject_Z 300000));
     o_maxConcurrent := or_default (s_maxConcurrent agents) (Finite (inject_Z 5));
     o_retryAttempts := or_default (s_retryAttempts agents) (Finite (inject_Z 3)) |}.

(** The two counts [runParallel] and [executeMulti] report:
    [results.filter((r) => r.status === 'success').length] and the same
    for ['failure']. *)
Definition successful (results : list AgentResult) : nat :=
  length (filter (fun r => status_eqb (r_status r) success = true) results).

Definition failed (results : list AgentResult) : nat :=
  length (filter (fun r => status_eqb (r_status r) failure = true) results).

(** The tasks [executeMulti] submits, one per file found.  [prompt] is
    [options.prompt]; without the option the member is [undefined], which
    [JSON.stringify], the only reader of [input], leaves out. *)
Definition executeMulti_tasks (files : list string) (prompt : option string)
  : list AgentTask :=
  imap (fun index file =>
          {| t_id := "edit-" +:+ pretty index;
             t_type := CodeEdit;
             t_description := "Edit " +:+ file;
             t_input := JObject (("file", JString file)
                                 :: match prompt with
                                    | Some p => [("prompt", JString p)]
                                    | None => []
                                    end);
             t_priority := 1;
             t_dependencies := None;
             t_timeout := None;
             t_retryOnFailure := None |})
       files.

(** [agent.currentTask?.description || 'None'] *)
Definition current_task (agent : Agent) : string :=
  match a_currentTask agent with
  | Some task =>
      match t_description task with
      | EmptyString => "None"
      | description => description
      end
  | None => "None"
  end.

(** The function [showStatus] maps over [agents.values()]. *)
Definition status_row (agent : Agent) : StatusRow :=
  {| ID := a_id agent;
     Name := a_name agent;
     Status := a_status agent;
     Current_Task := current_task agent;
     Capabilities := join ", " (a_capabilities agent) |}.

End Commands.

(** ** A reference JSON runtime

  The theorems hold for every [JsonRuntime]; this one runs the examples.
  It reads JSON texts by the grammar of ECMA-404 and prints values the way
  [JSON.stringify (v, null, 2)] lays them out.  An object keeps its
  members in the order of the text. *)
Module Json.

Definition is_ws (c : ascii) : bool :=
  match nat_of_ascii c with
  | 32%nat | 9%nat | 10%nat | 13%nat => true
  | _ => false
  end.

Fixpoint skip_ws (s : string) : string :=
  match s with
  | String c rest => if is_ws c then skip_ws rest else s
  | EmptyString => s
  end.

Definition digit (c : ascii) : option Z :=
  let n := Z.of_nat (nat_of_ascii c) in
  if (48 <=? n) && (n <=? 57) then Some (n - 48) else None.

Definition hex (c : ascii) : option Z :=
  let n := Z.of_nat (nat_of_ascii c) in
  if (48 <=? n) && (n <=? 57) then Some (n - 48)
  else if (65 <=? n) && (n <=? 70) then Some (n - 55)
  else if (97 <=? n) && (n <=? 102) then Some (n - 87)
  else None.

Definition byte (n : Z) : ascii := ascii_of_nat (Z.to_nat n).

(** The UTF-8 bytes of a [\uXXXX] code unit. *)
Definition utf8 (n : Z) : string :=
  if n <? 128 then String (byte n) EmptyString
  else if n <? 2048 then
    String (byte (192 + n / 64)) (String (byte (128 + n mod 64)) EmptyString)
  else
    String (byte (224 + n / 4096))
      (String (byte (128 + (n / 64) mod 64)) (String (byte (128 + n mod 64)) EmptyString)).

Definition escape (c : ascii) : option ascii :=
  match nat_of_ascii c with
  | 34%nat => Some (byte 34)
  | 92%nat => Some (byte 92)
  | 47%nat => Some (byte 47)
  | 98%nat => Some (byte 8)
  | 102%nat => Some (byte 12)
  | 110%nat => Some (byte 10)
  | 114%nat => Some (byte 13)
  | 116%nat => Some (byte 9)
  | _ => None
  end.

(** The characters of a string literal after its opening quote. *)
Fixpoint parse_chars (s : string) : option (string * string) :=
  match s with
  | EmptyString => None
  | String c rest =>
      match nat_of_ascii c with
      | 34%nat => Some (EmptyString, rest)
      | 92%nat =>
          match rest with
          | String e rest' =>
              if Nat.eqb (nat_of_ascii e) 117 then
                match rest' with
                | String h1 (String h2 (String h3 (String h4 rest''))) =>
                    match hex h1, hex h2, hex h3, hex h4 with
                    | Some a, Some b, Some c', Some d =>
                        '(str, r) ← parse_chars rest'';
                        Some (utf8 (((a * 16 + b) * 16 + c') * 16 + d) +:+ str, r)
                    | _, _, _, _ => None
                    end
                | _ => None
                end
              else
                x ← escape e;
                '(str, r) ← parse_chars rest';
                Some (String x str, r)
          | EmptyString => None
          end
      | n =>
          if (n <? 32)%nat then None
          else '(str, r) ← parse_chars rest; Some (String c str, r)
      end
  end.

(** A run of digits: its value after [acc], how many there are, the rest. *)
Fixpoint parse_digits (s : string) (acc : Z) (count : Z) : Z * Z * string :=
  match s with
  | String c rest =>
      match digit c with
      | Some d => parse_digits rest (acc * 10 + d) (count + 1)
      | None => (acc, count, s)
      end
  | EmptyString => (acc, count, s)
  end.

Definition starts_with (c : nat) (s : string) : option string :=
  match s with
  | String x rest => if Nat.eqb (nat_of_ascii x) c then Some rest else None
  | EmptyString => None
  end.

Definition parse_number (s : string) : option (JsValue * string) :=
  let '(sign, s1) := match starts_with 45 s with
                     | Some r => (-1, r)
                     | None => (1, s)
                     end in
  let '(int, n, s2) := parse_digits s1 0 0 in
  if (n =? 0) || ((1 <? n) && bool_decide (is_Some (starts_with 48 s1))) then None
  else
    let frac := match starts_with 46 s2 with
                | Some r =>
                    let '(m, k, s3) := parse_digits r int 0 in
                    if k =? 0 then None else Some (m, k, s3)
                | None => Some (int, 0, s2)
                end in
    '(m, k, s3) ← frac;
    match (match starts_with 101 s3 with
           | Some r => Some r
           | None => starts_with 69 s3
           end) with
    | Some r =>
        let '(esign, r1) := match starts_with 45 r with
                            | Some r' => (-1, r')
                            | None => match starts_with 43 r with
                                      | Some r' => (1, r')
                                      | None => (1, r)
                                      end
                            end in
        let '(e, j, s4) := parse_digits r1 0 0 in
        if j =? 0 then None else Some (JNumber (sign * m) (esign * e - k), s4)
    | None => Some (JNumber (sign * m) (- k), s3)
    end.

Fixpoint strip_prefix (p s : string) : option string :=
  match p, s with
  | EmptyString, _ => Some s
  | String a p', String b s' => if Ascii.eqb a b then strip_prefix p' s' else None
  | _, _ => None
  end.

Fixpoint parse_value (fuel : nat) (s : string) : option (JsValue * string) :=
  match fuel with
  | O => None
  | S fuel' =>
      let s := skip_ws s in
      match s with
      | EmptyString => None
      | String c rest =>
          match nat_of_ascii c with
          | 110%nat => r ← strip_prefix "null" s; Some (JNull, r)
          | 116%nat => r ← strip_prefix "true" s; Some (JBool true, r)
          | 102%nat => r ← strip_prefix "false" s; Some (JBool false, r)
          | 34%nat => '(str, r) ← parse_chars rest; Some (JString str, r)
          | 91%nat =>
              match starts_with 93 (skip_ws rest) with
              | Some r => Some (JArray [], r)
              | None => '(items, r) ← parse_elements fuel' rest; Some (JArray items, r)
              end
          | 123%nat =>
              match starts_with 125 (skip_ws rest) with
              | Some r => Some (JObject [], r)
              | None => '(fields, r) ← parse_members fuel' rest; Some (JObject fields, r)
              end
          | _ => parse_number s
          end
      end
  end
with parse_elements (fuel : nat) (s : string) : option (list JsValue * string) :=
  match fuel with
  | O => None
  | S fuel' =>
      '(v, r) ← parse_value fuel' s;
      let r := skip_ws r in
      match starts_with 44 r with
      | Some r' => '(vs, r'') ← parse_elements fuel' r'; Some (v :: vs, r'')
      | None => r' ← starts_with 93 r; Some ([v], r')
      end
  end
with parse_members (fuel : nat) (s : string)
  : option (list (string * JsValue) * string) :=
  match fuel with
  | O => None
  | S fuel' =>
      r0 ← starts_with 34 (skip_ws s);
      '(key, r1) ← parse_chars r0;
      r2 ← starts_with 58 (skip_ws r1);
      '(v, r) ← parse_value fuel' r2;
      let r := skip_ws r in
      match starts_with 44 r with
      | Some r' => '(ms, r'') ← parse_members fuel' r'; Some ((key, v) :: ms, r'')
      | None => r' ← starts_with 125 r; Some ([(key, v)], r')
      end
  end.

Definition parse (text : string) : option JsValue :=
  '(v, r) ← parse_value (2 * String.length text + 2) text;
  match skip_ws r with
  | EmptyString => Some v
  | _ => None
  end.


Definition dq : string := String (byte 34) EmptyString.
Definition bs : string := String (byte 92) EmptyString.

Definition hexdigit (n : Z) : ascii :=
  if n <? 10 then byte (48 + n) else byte (87 + n).

Definition quote_char (c : ascii) : string :=
  match nat_of_ascii c with
  | 34%nat => bs +:+ dq
  | 92%nat => bs +:+ bs
  | 8%nat => bs +:+ "b"
  | 12%nat => bs +:+ "f"
  | 10%nat => bs +:+ "n"
  | 13%nat => bs +:+ "r"
  | 9%nat => bs +:+ "t"
  | n =>
      if (n <? 32)%nat
      then bs +:+ "u00" +:+ String (hexdigit (Z.of_nat n / 16))
                              (String (hexdigit (Z.of_nat n mod 16)) EmptyString)
      else String c EmptyString
  end.

Fixpoint quote_chars (s : string) : string :=
  match s with
  | EmptyString => EmptyString
  | String c rest => quote_char c +:+ quote_chars rest
  end.

Definition quote (s : string) : string := dq +:+ quote_chars s +:+ dq.

(** Drops the zeros that end a fraction: [250 * 10^-2] is [25 * 10^-1]. *)
Fixpoint normalise (n : nat) (m e : Z) : Z * Z :=
  match n with
  | O => (m, e)
  | S n' => if (e <? 0) && (m mod 10 =? 0) then normalise n' (m / 10) (e + 1) else (m, e)
  end.

Fixpoint zeros (n : nat) : string :=
  match n with
  | O => EmptyString
  | S n' => "0" +:+ zeros n'
  end.

Definition pad (width : nat) (s : string) : string :=
  zeros (width - String.length s) +:+ s.

Definition print_number (m e : Z) : string :=
  let '(m, e) := normalise (Z.to_nat (- e)) m e in
  if 0 <=? e then pretty (m * 10 ^ e)
  else
    let k := Z.to_nat (- e) in
    (if m <? 0 then "-" else EmptyString)
      +:+ pretty (Z.abs m / 10 ^ (- e)) +:+ "."
      +:+ pad k (pretty (Z.abs m mod 10 ^ (- e))).

Definition join (sep : string) (parts : list string) : string :=
  match parts with
  | [] => EmptyString
  | x :: rest => fold_left (fun acc y => acc +:+ sep +:+ y) rest x
  end.

(** [JSON.stringify (v, null, 2)] at the current indentation. *)
Fixpoint print (indent : string) (v : JsValue) : string :=
  let inner := indent +:+ "  " in
  match v with
  | JNull => "null"
  | JBool true => "true"
  | JBool false => "false"
  | JNumber m e => print_number m e
  | JString s => quote s
  | JArray [] => "[]"
  | JArray items =>
      "[" +:+ nl
        +:+ join ("," +:+ nl) (List.map (fun x => inner +:+ print inner x) items)
        +:+ nl +:+ indent +:+ "]"
  | JObject [] => "{}"
  | JObject fields =>
      "{" +:+ nl
        +:+ join ("," +:+ nl)
              (List.map (fun kv => inner +:+ quote (fst kv) +:+ ": " +:+ print inner (snd kv))
                 fields)
        +:+ nl +:+ indent +:+ "}"
  end.

Definition stringify (v : JsValue) : string := print EmptyString v.

End Json.

#[global] Instance reference_json : JsonRuntime :=
  {| JSON_parse := Json.parse; JSON_stringify := Json.stringify |}.

(** ** Example inputs *)

Definition config_default : AgentConfig :=
  {| maxConcurrent := 3; timeout := 300; retryAttempts := 3; autoScale := None |}.

Definition config_no_wait : AgentConfig :=
  {| maxConcurrent := 3; timeout := 0; retryAttempts := 3; autoScale := None |}.

Definition mk_task (id : string) (dependencies : option (list string))
    (retry : option bool) : AgentTask :=
  {| t_id := id; t_type := Analyze; t_description := "x"; t_input := JObject [];
     t_priority := 1; t_dependencies := dependencies; t_timeout := None;
     t_retryOnFailure := retry |}.

Definition reply_content (text : string) : Error + AIResponse :=
  inr {| resp_content := text; resp_tokensUsed := None; resp_model := "m";
         resp_finishReason := None |}.

Definition reply_error (text : string) : Error + AIResponse :=
  inl {| message := text |}.

(** A world without interference whose provider always gives [reply]. *)
Definition world_of (reply : Error + AIResponse) : World :=
  {| ai_reply := fun _ _ => reply;
     early := fun _ => 0%nat;
     latency := fun _ => 0%nat;
     random := fun _ => "k3j9x0q1z";
     interfere := fun _ o => o |}.

Definition failure_of (id : string) : AgentResult :=
  {| r_taskId := id; r_status := failure; r_output := JNull;
     r_error := Some "boom"; r_metrics := None |}.

(** ** Example runs of the event loop *)

Definition config_one : AgentConfig :=
  {| maxConcurrent := 1; timeout := 300; retryAttempts := 3; autoScale := None |}.

Definition sys_empty : Sys :=
  {| now := 0; shared := empty_orch; jobs := []; calls := [] |}.

(** The state a fresh orchestrator is in after the steps [ls]. *)
Definition sys_after (config : AgentConfig) (ls : list Label) : Sys :=
  default sys_empty (σ ← AgentOrchestrator_new config 0; run config ls σ).

Definition task_t1 : AgentTask := mk_task "t1" None None.
Definition task_t2 : AgentTask := mk_task "t2" (Some ["t1"]) None.
Definition replied_ok : Answer := Replied (reply_content "{}").

(** [t1] and [t2] submitted together; the provider answers [t1]; three
    polls of [t2], 100 ms apart. *)
Definition batch_run : list Label :=
  [ DoExecuteParallel [task_t1; task_t2];
    Resume (InJob 0) replied_ok;
    Tick 100; Resume (InJob 1) Fired;
    Tick 100; Resume (InJob 1) Fired;
    Tick 100; Resume (InJob 1) Fired ].

(** An agent is created and [t1] assigned to it. *)
Definition reviewer_id : string := "agent-0-k3j9x0q1z".
Definition assign_run : list Label :=
  [ DoCreateAgent "Reviewer" ["review"] "k3j9x0q1z";
    DoAssignTask reviewer_id task_t1 ].

(** Whether a fresh orchestrator can take the steps [ls]. *)
Definition runs (config : AgentConfig) (ls : list Label) : bool :=
  match σ ← AgentOrchestrator_new config 0; run config ls σ with
  | Some _ => true
  | None => false
  end.

(** ** Example inputs of the further properties *)

(** The orchestrator after [createAgent ("Reviewer", ["review"])]. *)
Definition created_run : list Label :=
  [DoCreateAgent "Reviewer" ["review"] "k3j9x0q1z"].

Definition orch_reviewer : Orch := shared (sys_after config_default created_run).

Definition task_retry : AgentTask := mk_task "t" None (Some true).

(** A provider that rejects the first call made to it and answers the
    later ones. *)
Definition world_recovering : World :=
  {| ai_reply := fun n _ =>
       match n with O => reply_error "boom" | S _ => reply_content "{}" end;
     early := fun _ => 0%nat;
     latency := fun _ => 0%nat;
     random := fun _ => "k3j9x0q1z";
     interfere := fun _ o => o |}.

(** A world whose timers all fire a millisecond early. *)
Definition world_early (reply : Error + AIResponse) : World :=
  {| ai_reply := fun _ _ => reply;
     early := fun _ => 1%nat;
     latency := fun _ => 0%nat;
     random := fun _ => "k3j9x0q1z";
     interfere := fun _ o => o |}.

(** [shutdown] called on an idle queue, then a task submitted before the
    continuation of [shutdown] runs. *)
Definition shutdown_run : list Label :=
  (created_run ++ [DoShutdown; DoExecuteParallel [task_t1]])%list.

Definition settings_zero : AgentsSettings :=
  {| s_maxConcurrent := Finite (inject_Z 0); s_timeout := Finite (inject_Z 0);
     s_retryAttempts := Finite (inject_Z 0) |}.

Definition config_cli : AgentConfig :=
  {| maxConcurrent := 5; timeout := 300000; retryAttempts := 3; autoScale := None |}.

(** * Part II: theorems *)

Lemma status_eqb_eq a b : status_eqb a b = true <-> a = b.
Proof. destruct a, b; simpl; split; congruence. Qed.

(** ** Equations of [exec] *)

Lemma exec_bind {A B} W (p : Prog A) (f : A -> Prog B) s :
  exec W (bind p f) s =
  match exec W p s with
  | (Returned a, s') => exec W (f a) s'
  | (Thrown e, s') => (Thrown e, s')
  | (Spun, s') => (Spun, s')
  end.
Proof.
  revert s. induction p as [a|e| |X e k IH|X e k IH]; intros s; simpl; try reflexivity.
  - destruct (handle e _ _ _) as [x o]. apply IH.
  - destruct (answer W e s) as [x s']. apply IH.
Qed.

Lemma exec_try_catch {A} W (p : Prog A) h s :
  exec W (try_catch p h) s =
  match exec W p s with
  | (Returned a, s') => (Returned a, s')
  | (Thrown e, s') => exec W (h e) s'
  | (Spun, s') => (Spun, s')
  end.
Proof.
  revert s. induction p as [a|e| |X e k IH|X e k IH]; intros s; simpl; try reflexivity.
  - destruct (handle e _ _ _) as [x o]. apply IH.
  - destruct (answer W e s) as [x s']. apply IH.
Qed.

Lemma exec_try_finally {A} W (p : Prog A) c s :
  exec W (try_finally p c) s =
  match exec W p s with
  | (Returned a, s') =>
      match exec W c s' with
      | (Returned _, s'') => (Returned a, s'')
      | (Thrown e, s'') => (Thrown e, s'')
      | (Spun, s'') => (Spun, s'')
      end
  | (Thrown e, s') =>
      match exec W c s' with
      | (Returned _, s'') => (Thrown e, s'')
      | (Thrown e', s'') => (Thrown e', s'')
      | (Spun, s'') => (Spun, s'')
      end
  | (Spun, s') => (Spun, s')
  end.
Proof.
  revert s. induction p as [a|e| |X e k IH|X e k IH]; intros s; simpl; try reflexivity.
  - rewrite exec_bind. destruct (exec W c s) as [[]]; reflexivity.
  - rewrite exec_bind. destruct (exec W c s) as [[]]; reflexivity.
  - destruct (handle e _ _ _) as [x o]. apply IH.
  - destruct (answer W e s) as [x s']. apply IH.
Qed.

Lemma with_orch_id s : with_orch (orch s) s = s.
Proof. destruct s; reflexivity. Qed.

Section Sequential.
Context `{JsonRuntime}.
Variable config : AgentConfig.
Variable W : World.


Lemma exec_every_success_false dependencies depId s :
  depId ∈ dependencies -> unsatisfied depId (orch s) ->
  exec W (every_success dependencies) s = (Returned false, s).
Proof.
  intros Hin Hun. induction dependencies as [|d rest IH]; [inversion Hin|].
  simpl. rewrite with_orch_id.
  destruct (taskResults (orch s) !! d) as [r|] eqn:Hd; [|reflexivity].
  destruct (status_eqb (r_status r) success) eqn:Hs; [|reflexivity].
  apply status_eqb_eq in Hs.
  apply elem_of_cons in Hin as [->|Hin]; [|auto].
  exfalso. exact (Hun r Hd Hs).
Qed.

Lemma exec_every_success_true dependencies s :
  Forall (fun d => satisfied d (orch s)) dependencies ->
  exec W (every_success dependencies) s = (Returned true, s).
Proof.
  induction 1 as [|d rest [r [Hd Hs]] _ IH]; [reflexivity|].
  simpl. rewrite with_orch_id, Hd, Hs. simpl. exact IH.
Qed.

Lemma poll_bound_covers maxWaitTime :
  maxWaitTime <= Z.of_nat (poll_bound maxWaitTime).
Proof. unfold poll_bound. lia. Qed.

(** The clock advances over a poll. *)
Lemma suspend_poll s :
  clock s + 1 <= clock (suspend W (EvSleep checkInterval) checkInterval s).
Proof. unfold suspend, elapse, progress, checkInterval. simpl. lia. Qed.

Lemma suspend_clock ev ms s : clock s + progress ms <= clock (suspend W ev ms s).
Proof. unfold suspend, elapse. simpl. lia. Qed.

Lemma progress_nonneg ms : 0 <= progress ms.
Proof. unfold progress. lia. Qed.


(** The wait loop under a prerequisite that stays unsatisfied: it polls
    until the window has elapsed and then throws. *)
Lemma exec_waitLoop_unsatisfied (P : Orch -> Prop) dependencies depId
      maxWaitTime startTime :
  depId ∈ dependencies ->
  (forall o, P o -> unsatisfied depId o) ->
  (forall n o, P o -> P (interfere W n o)) ->
  forall n s,
    P (orch s) ->
    maxWaitTime - (clock s - startTime) <= Z.of_nat n ->
    exists s' k,
      exec W (waitLoop n dependencies maxWaitTime startTime) s
        = (Thrown dependency_timeout, s')
      /\ maxWaitTime <= clock s' - startTime
      /\ clock s <= clock s'
      /\ P (orch s')
      /\ suspensions s' = (suspensions s + k)%nat
      /\ trace s' = (trace s ++ polls k)%list.
Proof.
  intros Hin HP Hpres. induction n as [|n IH]; intros s Hs Hfuel.
  - exists s, 0%nat. simpl. rewrite with_orch_id.
    assert (Hge: (clock s - startTime <? maxWaitTime) = false)
      by (apply Z.ltb_ge; unfold checkInterval in Hfuel; lia).
    rewrite Hge. simpl. rewrite app_nil_r.
    repeat split; try done; try lia.
  - simpl. rewrite with_orch_id.
    destruct (clock s - startTime <? maxWaitTime) eqn:Hlt.
    + rewrite exec_bind, (exec_every_success_false _ depId) by auto.
      simpl.
      set (s1 := suspend W (EvSleep checkInterval) checkInterval s).
      pose proof (suspend_poll s) as Hpoll. fold s1 in Hpoll.
      destruct (IH s1) as (s' & k & Hex & Hwin & Hclk & HP' & Hsus & Htr).
      * apply Hpres, Hs.
      * lia.
      * exists s', (S k). rewrite Hex. repeat split; try done.
        -- lia.
        -- rewrite Hsus. unfold s1; simpl. lia.
        -- rewrite Htr. unfold s1; simpl. rewrite <- app_assoc. reflexivity.
    + exists s, 0%nat. simpl. rewrite app_nil_r.
      apply Z.ltb_ge in Hlt. repeat split; try done; lia.
Qed.

End Sequential.

Section Attempts.
Context `{JsonRuntime}.
Variable config : AgentConfig.
Variable W : World.


Lemma exec_processTask task s :
  exec W (processTask task) s =
  let s' := suspend W (EvChat (prompt task)) 0 s in
  match ai_reply W (suspensions s) (prompt task) with
  | inl e => (Thrown e, s')
  | inr response =>
      (Returned (parseTaskResult (t_type task) (resp_content response)), s')
  end.
Proof.
  unfold processTask, prompt. simpl.
  destruct (ai_reply W (suspensions s) _); reflexivity.
Qed.


Lemma exec_executeTask task s :
  exec W (executeTask config task) s =
  match exec W (dependency_gate config task) s with
  | (Returned _, s1) =>
      match ai_reply W (suspensions s1) (prompt task) with
      | inr response =>
          let s2 := suspend W (EvChat (prompt task)) 0 s1 in
          (Returned (outcome_success task
                       (parseTaskResult (t_type task) (resp_content response))
                       (clock s2 - clock s)), s2)
      | inl e =>
          exec_catch config W task (clock s) e (suspend W (EvChat (prompt task)) 0 s1)
      end
  | (Thrown e, s1) => exec_catch config W task (clock s) e s1
  | (Spun, s1) => (Spun, s1)
  end.
Proof.
  unfold executeTask. cbn [exec perform handle bind]. rewrite with_orch_id.
  rewrite exec_try_catch, exec_bind.
  change (match t_dependencies task with
          | Some d => waitForDependencies config d
          | None => Ret tt
          end) with (dependency_gate config task).
  assert (Hcatch : forall e s1,
    exec W (do t <- perform DateNow;
            if truthy (t_retryOnFailure task) && (retryAttempts config >? 0)
            then retryTask config task e
            else Ret (outcome_failure task e (t - clock s))) s1
    = exec_catch config W task (clock s) e s1).
  { intros e s1. unfold exec_catch, will_retry. cbn [exec perform handle bind].
    rewrite with_orch_id.
    destruct (truthy _ && _); reflexivity. }
  destruct (exec W (dependency_gate config task) s) as [[[]|e|] s1]; try apply Hcatch;
    [|reflexivity].
  rewrite exec_bind, exec_processTask. cbn zeta.
  destruct (ai_reply W (suspensions s1) (prompt task)) as [e|response].
  - apply Hcatch.
  - cbn [exec perform handle bind]. rewrite with_orch_id. reflexivity.
Qed.


(** A retry whose body throws each time runs every remaining attempt and
    reports the error of the last one. *)
Lemma exec_retryLoop_all_fail task error :
  (forall n, failed (ai_reply W n (prompt task))) ->
  forall n attempt s,
    Z.of_nat (S n) = retryAttempts config - attempt + 1 ->
    exists e s',
      exec W (retryLoop config (S n) attempt task error) s
        = (Returned (outcome_failure task e 0), s')
      /\ ai_reply W (suspensions s + 2 * n + 1)%nat (prompt task) = inl e
      /\ suspensions s' = (suspensions s + 2 * S n)%nat
      /\ trace s' = (trace s ++ retry_events task attempt (S n))%list.
Proof.
  intros Hfail. induction n as [|n IH]; intros attempt s Hn.
  - cbn [retryLoop].
    assert (Hle : (attempt <=? retryAttempts config) = true) by (apply Z.leb_le; lia).
    assert (Heq : (attempt =? retryAttempts config) = true) by (apply Z.eqb_eq; lia).
    rewrite Hle, exec_try_catch. cbn [exec bind sleep await answer].
    rewrite exec_bind, exec_processTask. cbn zeta.
    set (s1 := suspend W (EvSleep (1000 * attempt)) (1000 * attempt) s).
    pose proof (Hfail (suspensions s1)) as Hf.
    destruct (ai_reply W (suspensions s1) (prompt task)) as [e|] eqn:He; [|done].
    rewrite Heq. exists e, (suspend W (EvChat (prompt task)) 0 s1).
    split; [reflexivity|]. split; [|split].
    + rewrite <- He. f_equal. unfold s1; simpl. lia.
    + unfold s1; simpl. lia.
    + unfold s1; simpl. rewrite <- app_assoc. reflexivity.
  - remember (S n) as m. cbn [retryLoop].
    assert (Hle : (attempt <=? retryAttempts config) = true) by (apply Z.leb_le; lia).
    assert (Heq : (attempt =? retryAttempts config) = false) by (apply Z.eqb_neq; lia).
    rewrite Hle, exec_try_catch. cbn [exec bind sleep await answer].
    rewrite exec_bind, exec_processTask. cbn zeta.
    set (s1 := suspend W (EvSleep (1000 * attempt)) (1000 * attempt) s).
    pose proof (Hfail (suspensions s1)) as Hf.
    destruct (ai_reply W (suspensions s1) (prompt task)) as [e0|] eqn:He; [|done].
    rewrite Heq. subst m.
    destruct (IH (attempt + 1) (suspend W (EvChat (prompt task)) 0 s1))
      as (e & s' & Hex & Hlast & Hsus & Htr); [lia|].
    exists e, s'. split; [exact Hex|]. split; [|split].
    + rewrite <- Hlast. f_equal. unfold s1; simpl. lia.
    + rewrite Hsus. unfold s1; simpl. lia.
    + rewrite Htr. unfold s1; simpl. rewrite <- !app_assoc. reflexivity.
Qed.

End Attempts.

(** ** One call of [executeTask] *)

Lemma exec_trace_grows {A} W (p : Prog A) s :
  exists tr, trace (snd (exec W p s)) = (trace s ++ tr)%list.
Proof.
  revert s. induction p as [a|e| |X e k IH|X e k IH]; intros s; simpl;
    try (exists []; rewrite app_nil_r; reflexivity).
  - destruct (handle e _ _ _) as [x o]. apply (IH x (with_orch o s)).
  - destruct (answer W e s) as [x s'] eqn:Ha.
    destruct (IH x s') as [tr Htr]. rewrite Htr.
    assert (exists ev, trace s' = (trace s ++ [ev])%list) as [ev ->].
    { destruct e; simpl in Ha; inversion Ha; subst; simpl; eauto. }
    exists (ev :: tr). rewrite <- app_assoc. reflexivity.
Qed.

Section ExecuteTask.
Context `{JsonRuntime}.
Variable config : AgentConfig.
Variable W : World.

Lemma exec_waitForDependencies_empty s :
  0 < timeout config ->
  exec W (waitForDependencies config []) s = (Returned tt, s).
Proof.
  intros Hpos. unfold waitForDependencies. cbn [exec perform handle bind].
  rewrite with_orch_id.
  destruct (poll_bound (timeout config)) as [|n] eqn:Hn.
  - pose proof (poll_bound_covers (timeout config)) as Hc. rewrite Hn in Hc.
    unfold checkInterval in Hc. lia.
  - cbn [waitLoop exec perform handle bind]. rewrite with_orch_id, Z.sub_diag.
    assert (Hlt : (0 <? timeout config) = true) by (apply Z.ltb_lt; lia).
    rewrite Hlt. reflexivity.
Qed.

Lemma exec_catch_trace_grows task startTime e s :
  exists tr, trace (snd (exec_catch config W task startTime e s)) = (trace s ++ tr)%list.
Proof.
  unfold exec_catch. destruct (will_retry config task).
  - apply exec_trace_grows.
  - exists []. simpl. rewrite app_nil_r. reflexivity.
Qed.

(** C10, amended: a task without a [dependencies] field, or with an empty
    list under a positive [timeout], passes the dependency gate at once, in
    the state it arrived in, and the first thing [executeTask] then does is
    to call the body. *)
Theorem C10_no_prerequisites_no_wait task s :
  t_dependencies task = None
  \/ (t_dependencies task = Some [] /\ 0 < timeout config) ->
  exec W (dependency_gate config task) s = (Returned tt, s)
  /\ exists tr,
       trace (snd (exec W (executeTask config task) s))
       = (trace s ++ EvChat (prompt task) :: tr)%list.
Proof.
  intros Hdeps.
  assert (Hgate : exec W (dependency_gate config task) s = (Returned tt, s)).
  { unfold dependency_gate. destruct Hdeps as [->|[-> Hpos]]; [reflexivity|].
    apply exec_waitForDependencies_empty, Hpos. }
  split; [exact Hgate|].
  rewrite exec_executeTask, Hgate.
  destruct (ai_reply W (suspensions s) (prompt task)) as [e|response].
  - destruct (exec_catch_trace_grows task (clock s) e
                (suspend W (EvChat (prompt task)) 0 s)) as [tr Htr].
    exists tr. rewrite Htr. simpl. rewrite <- app_assoc. reflexivity.
  - exists []. reflexivity.
Qed.

(** C6, amended: when the provider answers and the answer is not JSON, the
    attempt succeeds: [executeTask] returns a [success] outcome whose output
    is the object [{raw: content}], after a single call of the body and
    whatever the task says about retries. *)
Theorem C6_unparsable_reply_is_a_success task s s1 response :
  exec W (dependency_gate config task) s = (Returned tt, s1) ->
  ai_reply W (suspensions s1) (prompt task) = inr response ->
  JSON_parse (resp_content response) = None ->
  exists r s',
    exec W (executeTask config task) s = (Returned r, s')
    /\ r_status r = success
    /\ r_output r = JObject [("raw", JString (resp_content response))]
    /\ r_error r = None
    /\ trace s' = (trace s1 ++ [EvChat (prompt task)])%list.
Proof.
  intros Hgate Hreply Hparse.
  rewrite exec_executeTask, Hgate, Hreply. cbn zeta.
  eexists _, _. split; [reflexivity|].
  unfold parseTaskResult. rewrite Hparse. simpl. auto.
Qed.

(** C3, amended: a body that throws each time, under [retryOnFailure] and
    three configured retry attempts, is called four times: once by
    [executeTask] and once per retry, the retries after sleeps of 1000, 2000
    and 3000 ms.  The one outcome returned is a failure with the message of
    the error the last call threw. *)
Theorem C3_throwing_body_runs_once_plus_three_retries task s s1 :
  retryAttempts config = 3 ->
  t_retryOnFailure task = Some true ->
  exec W (dependency_gate config task) s = (Returned tt, s1) ->
  (forall n, failed (ai_reply W n (prompt task))) ->
  exists e s' tr,
    exec W (executeTask config task) s = (Returned (outcome_failure task e 0), s')
    /\ ai_reply W (suspensions s1 + 6)%nat (prompt task) = inl e
    /\ trace s' = (trace s1 ++ tr)%list
    /\ tr = [EvChat (prompt task);
             EvSleep (1000 * 1); EvChat (prompt task);
             EvSleep (1000 * 2); EvChat (prompt task);
             EvSleep (1000 * 3); EvChat (prompt task)]
    /\ body_invocations tr = 4%nat.
Proof.
  intros Hn Hretry Hgate Hfail.
  rewrite exec_executeTask, Hgate.
  pose proof (Hfail (suspensions s1)) as Hf.
  destruct (ai_reply W (suspensions s1) (prompt task)) as [e0|] eqn:He0; [|done].
  unfold exec_catch, will_retry, retryTask. rewrite Hretry, Hn. simpl truthy.
  change (true && (3 >? 0)) with true. cbn iota.
  change (Z.to_nat 3) with 3%nat.
  destruct (exec_retryLoop_all_fail config W task e0 Hfail 2 1
              (suspend W (EvChat (prompt task)) 0 s1))
    as (e & s' & Hex & Hlast & _ & Htr); [lia|].
  eexists e, s', _. split; [exact Hex|]. split; [|split; [|split; [reflexivity|]]].
  - rewrite <- Hlast. f_equal. simpl. lia.
  - rewrite Htr. simpl. rewrite <- app_assoc. reflexivity.
  - reflexivity.
Qed.

(** C7: while a prerequisite's stored outcome is a failure that nothing
    overwrites, the dependency wait never returns normally: it polls, and
    throws the dependency-timeout error once the clock has advanced by the
    configured timeout or more. *)
Theorem C7_failed_prerequisite_waits_out_the_timeout dependencies depId r s :
  depId ∈ dependencies ->
  taskResults (orch s) !! depId = Some r ->
  r_status r = failure ->
  (forall n o, taskResults (interfere W n o) !! depId = taskResults o !! depId) ->
  exists s' k,
    exec W (waitForDependencies config dependencies) s
      = (Thrown dependency_timeout, s')
    /\ timeout config <= clock s' - clock s
    /\ trace s' = (trace s ++ polls k)%list.
Proof.
  intros Hin Hd Hst Hkeep.
  unfold waitForDependencies. cbn [exec perform handle bind]. rewrite with_orch_id.
  destruct (exec_waitLoop_unsatisfied W
              (fun o => taskResults o !! depId = Some r)
              dependencies depId (timeout config) (clock s) Hin)
    with (n := poll_bound (timeout config)) (s := s)
    as (s' & k & Hex & Hwin & _ & _ & _ & Htr).
  - intros o Ho r' Hr'. rewrite Ho in Hr'. inversion Hr'; subst. rewrite Hst. done.
  - intros n o Ho. rewrite Hkeep. exact Ho.
  - exact Hd.
  - pose proof (poll_bound_covers (timeout config)). lia.
  - exists s', k. auto.
Qed.

(** With no retry, a task one of whose prerequisites stays unsatisfied ends
    as a failure with the dependency-timeout message, its body never run. *)
Lemma executeTask_dependency_timeout_without_retry task dependencies depId s :
  t_dependencies task = Some dependencies ->
  depId ∈ dependencies ->
  unsatisfied depId (orch s) ->
  (forall n o, unsatisfied depId o -> unsatisfied depId (interfere W n o)) ->
  will_retry config task = false ->
  exists s' k,
    exec W (executeTask config task) s
      = (Returned (outcome_failure task dependency_timeout (clock s' - clock s)), s')
    /\ trace s' = (trace s ++ polls k)%list.
Proof.
  intros Hdeps Hin Hun Hkeep Hno.
  rewrite exec_executeTask. unfold dependency_gate. rewrite Hdeps.
  unfold waitForDependencies. cbn [exec perform handle bind]. rewrite with_orch_id.
  destruct (exec_waitLoop_unsatisfied W (unsatisfied depId)
              dependencies depId (timeout config) (clock s) Hin)
    with (n := poll_bound (timeout config)) (s := s)
    as (s' & k & Hex & _ & _ & _ & _ & Htr); auto.
  - pose proof (poll_bound_covers (timeout config)). lia.
  - rewrite Hex. unfold exec_catch. rewrite Hno. eauto.
Qed.

End ExecuteTask.

(** Both semantics run the code between two awaits the same way. *)
Lemma exec_advance {A} W (p : Prog A) s :
  exec W p s =
  match advance p (clock s) (random W (suspensions s)) (orch s) with
  | (Settled c, o) => (c, with_orch o s)
  | (Blocked e _ k, o) =>
      let '(x, s') := answer W e (with_orch o s) in exec W (k x) s'
  end.
Proof.
  revert s. induction p as [a|e| |X e k IH|X e k IH]; intros s; simpl;
    rewrite ?with_orch_id; try reflexivity.
  destruct (handle e (clock s) (random W (suspensions s)) (orch s)) as [x o].
  rewrite IH. reflexivity.
Qed.

Section Satisfied.
Context `{JsonRuntime}.
Variable config : AgentConfig.
Variable W : World.

(** Prerequisites that all have a recorded success let the task through at
    the first look at the store. *)
Lemma exec_waitForDependencies_satisfied dependencies s :
  0 < timeout config ->
  Forall (fun d => satisfied d (orch s)) dependencies ->
  exec W (waitForDependencies config dependencies) s = (Returned tt, s).
Proof.
  intros Hpos Hsat. unfold waitForDependencies. cbn [exec perform handle bind].
  rewrite with_orch_id.
  destruct (poll_bound (timeout config)) as [|n] eqn:Hn.
  - pose proof (poll_bound_covers (timeout config)) as Hc. rewrite Hn in Hc.
    unfold checkInterval in Hc. lia.
  - cbn [waitLoop]. rewrite exec_bind. cbn [exec perform handle].
    rewrite with_orch_id, Z.sub_diag.
    assert (Hlt : (0 <? timeout config) = true) by (apply Z.ltb_lt; lia).
    rewrite Hlt, exec_bind, (exec_every_success_true W _ _ Hsat). reflexivity.
Qed.

End Satisfied.

(** *** Instances of the statements about one call *)

(** C10 as stated fails under a configuration whose timeout is 0: the wait
    on an empty prerequisite list throws the dependency-timeout error, and
    [executeTask] returns a failure without having called the body. *)
Lemma C10_counterexample :
  let W := world_of (reply_content "{}") in
  let task := mk_task "t" (Some []) None in
  exec W (dependency_gate config_no_wait task) (start 0 empty_orch)
    = (Thrown dependency_timeout, start 0 empty_orch)
  /\ exec W (executeTask config_no_wait task) (start 0 empty_orch)
    = (Returned (outcome_failure task dependency_timeout 0), start 0 empty_orch)
  /\ body_invocations (trace (start 0 empty_orch)) = 0%nat.
Proof. vm_compute. auto. Qed.

Lemma C10_witness :
  let W := world_of (reply_content "{}") in
  let task := mk_task "t" (Some []) None in
  exec W (dependency_gate config_default task) (start 0 empty_orch)
    = (Returned tt, start 0 empty_orch)
  /\ exists tr,
       trace (snd (exec W (executeTask config_default task) (start 0 empty_orch)))
       = (trace (start 0 empty_orch) ++ EvChat (prompt task) :: tr)%list.
Proof.
  apply (C10_no_prerequisites_no_wait config_default).
  right. split; [reflexivity | reflexivity].
Defined.

(** C6 as stated fails on the reply [not json]: [JSON.parse] rejects it and
    the task, which did not ask for retries, ends as a success. *)
Lemma C6_counterexample :
  let task := mk_task "t" None None in
  JSON_parse "not json" = None
  /\ exists r s',
       exec (world_of (reply_content "not json")) (executeTask config_default task)
            (start 0 empty_orch) = (Returned r, s')
       /\ r_status r = success
       /\ r_status r <> failure.
Proof.
  split; [reflexivity|]. eexists _, _. split; [vm_compute; reflexivity|].
  split; [reflexivity | discriminate].
Qed.

Lemma C6_witness :
  let W := world_of (reply_content "not json") in
  let task := mk_task "t" None (Some true) in
  exists r s',
    exec W (executeTask config_default task) (start 0 empty_orch) = (Returned r, s')
    /\ r_status r = success
    /\ r_output r = JObject [("raw", JString "not json")]
    /\ r_error r = None
    /\ trace s' = (trace (start 0 empty_orch) ++ [EvChat (prompt task)])%list.
Proof.
  apply (C6_unparsable_reply_is_a_success config_default
           (world_of (reply_content "not json")) (mk_task "t" None (Some true))
           (start 0 empty_orch) (start 0 empty_orch)
           {| resp_content := "not json"; resp_tokensUsed := None;
              resp_model := "m"; resp_finishReason := None |});
    reflexivity.
Defined.

(** C3 as stated fails on a provider that rejects every call: with three
    configured retry attempts the body runs four times, not three. *)
Lemma C3_counterexample :
  let r := exec (world_of (reply_error "boom"))
                (executeTask config_default (mk_task "t" None (Some true)))
                (start 0 empty_orch) in
  retryAttempts config_default = 3
  /\ body_invocations (trace (snd r)) = 4%nat
  /\ body_invocations (trace (snd r)) <> 3%nat.
Proof. vm_compute. repeat split; discriminate. Qed.

Lemma C3_witness :
  let W := world_of (reply_error "boom") in
  let task := mk_task "t" None (Some true) in
  exists e s' tr,
    exec W (executeTask config_default task) (start 0 empty_orch)
      = (Returned (outcome_failure task e 0), s')
    /\ ai_reply W (suspensions (start 0 empty_orch) + 6)%nat (prompt task) = inl e
    /\ trace s' = (trace (start 0 empty_orch) ++ tr)%list
    /\ tr = [EvChat (prompt task);
             EvSleep (1000 * 1); EvChat (prompt task);
             EvSleep (1000 * 2); EvChat (prompt task);
             EvSleep (1000 * 3); EvChat (prompt task)]
    /\ body_invocations tr = 4%nat.
Proof.
  apply (C3_throwing_body_runs_once_plus_three_retries config_default
           (world_of (reply_error "boom")) (mk_task "t" None (Some true))
           (start 0 empty_orch) (start 0 empty_orch)).
  - reflexivity.
  - reflexivity.
  - reflexivity.
  - intros n. exact I.
Defined.

Lemma C7_witness :
  let o := with_taskResults (insert "d" (failure_of "d")) empty_orch in
  exists s' k,
    exec (world_of (reply_content "{}")) (waitForDependencies config_default ["d"])
         (start 0 o) = (Thrown dependency_timeout, s')
    /\ timeout config_default <= clock s' - clock (start 0 o)
    /\ trace s' = (trace (start 0 o) ++ polls k)%list.
Proof.
  apply (C7_failed_prerequisite_waits_out_the_timeout config_default
           (world_of (reply_content "{}")) ["d"] "d" (failure_of "d")).
  - apply list_elem_of_In. simpl. auto.
  - reflexivity.
  - reflexivity.
  - intros n o. reflexivity.
Defined.

(** C2 at its failing input: the prerequisite [d] never gets an outcome,
    the wait times out after three polls, and because the task asked for
    retries the body is then called once (after the first back-off sleep)
    and the task ends as a success. *)
Theorem C2_timed_out_task_runs_its_body_on_retry :
  let task := mk_task "t" (Some ["d"]) (Some true) in
  let r := exec (world_of (reply_content "{}")) (executeTask config_default task)
                (start 0 empty_orch) in
  fst r = Returned (outcome_success task (JObject []) 0)
  /\ trace (snd r) = [EvSleep 100; EvSleep 100; EvSleep 100;
                      EvSleep 1000; EvChat (prompt task)]
  /\ body_invocations (trace (snd r)) = 1%nat
  /\ taskResults (orch (snd r)) !! "d" = None.
Proof. vm_compute. auto. Qed.

(** ** Programs and their suspensions *)

Lemma handle_reads {X} (e : Sync X) t rnd o :
  reads e -> snd (handle e t rnd o) = o.
Proof. destruct e; simpl; tauto. Qed.

Lemma advance_readonly {A} (p : Prog A) t rnd o :
  readonly p ->
  snd (advance p t rnd o) = o /\ susp_readonly (fst (advance p t rnd o)).
Proof.
  revert o. induction p as [a|e| |X e k IH|X e k IH]; intros o Hp; simpl; auto.
  destruct Hp as [He Hk]. pose proof (handle_reads e t rnd o He) as Ho.
  destruct (handle e t rnd o) as [x o']. simpl in Ho. subst o'. apply IH, Hk.
Qed.

Lemma readonly_bind {A B} (p : Prog A) (f : A -> Prog B) :
  readonly p -> (forall a, readonly (f a)) -> readonly (bind p f).
Proof.
  intros Hp Hf. induction p as [a|e| |X e k IH|X e k IH]; simpl in *; auto.
  destruct Hp; auto.
Qed.

Lemma readonly_try_catch {A} (p : Prog A) h :
  readonly p -> (forall e, readonly (h e)) -> readonly (try_catch p h).
Proof.
  intros Hp Hh. induction p as [a|e| |X e k IH|X e k IH]; simpl in *; auto.
  destruct Hp; auto.
Qed.

Lemma bounded_mono {A} (p : Prog A) n m :
  (n <= m)%nat -> bounded n p -> bounded m p.
Proof.
  revert n m. induction p as [a|e| |X e k IH|X e k IH]; intros n m Hnm Hp; simpl in *; eauto.
  destruct Hp as [He Hk]. split; [exact He|].
  destruct n as [|n]; [done|]. destruct m as [|m]; [lia|].
  intros x. apply (IH x n m); [lia|auto].
Qed.

Lemma bounded_bind {A B} (p : Prog A) (f : A -> Prog B) n m :
  bounded n p -> (forall a, bounded m (f a)) -> bounded (n + m) (bind p f).
Proof.
  revert n. induction p as [a|e| |X e k IH|X e k IH]; intros n Hp Hf; simpl in *; auto.
  - apply bounded_mono with m; [lia|auto].
  - destruct Hp as [He Hk]. split; [exact He|].
    destruct n as [|n]; [done|]. simpl. intros x. apply IH; auto.
Qed.

Lemma bounded_try_catch {A} (p : Prog A) h n m :
  bounded n p -> (forall e, bounded m (h e)) -> bounded (n + m) (try_catch p h).
Proof.
  revert n. induction p as [a|e| |X e k IH|X e k IH]; intros n Hp Hh; simpl in *; auto.
  - apply bounded_mono with m; [lia|auto].
  - destruct Hp as [He Hk]. split; [exact He|].
    destruct n as [|n]; [done|]. simpl. intros x. apply IH; auto.
Qed.

Lemma advance_bounded {A} (p : Prog A) n t rnd o :
  bounded n p -> susp_bounded n (fst (advance p t rnd o)).
Proof.
  revert o. induction p as [a|e| |X e k IH|X e k IH]; intros o Hp; simpl in *; auto.
  destruct (handle e t rnd o) as [x o']. apply IH, Hp.
Qed.

Lemma settles_from_mono {X} (e : Await X) t t' :
  t <= t' -> settles_from e t <= settles_from e t'.
Proof. destruct e; unfold settles_from, earliest, progress; lia. Qed.

Lemma settles_from_ge {X} (e : Await X) t : t <= settles_from e t.
Proof. destruct e; unfold settles_from, earliest, progress; lia. Qed.

Lemma safe_mono {A} (Q : Completion A -> Z -> Prop) (p : Prog A) t t' :
  monotone Q -> t <= t' -> safe Q p t -> safe Q p t'.
Proof.
  intros HQ. revert t t'.
  induction p as [a|e| |X e k IH|X e k IH]; intros t t' Hle Hp; simpl in *; eauto.
  - destruct e; try (intros x; eapply IH; eauto).
    intros t'' Hle'. apply Hp. lia.
  - intros x. eapply IH; [|apply Hp]. apply settles_from_mono, Hle.
Qed.

Lemma safe_weaken {A} (Q Q' : Completion A -> Z -> Prop) (p : Prog A) t :
  (forall c t', t <= t' -> Q c t' -> Q' c t') -> safe Q p t -> safe Q' p t.
Proof.
  revert t. induction p as [a|e| |X e k IH|X e k IH]; intros t HQ Hp; simpl in *;
    try (apply HQ; [lia|assumption]).
  - destruct e; try (intros x; apply IH; auto).
    intros t' Hle. apply IH; [|auto]. intros c t'' Hle'. apply HQ. lia.
  - intros x. apply IH; [|auto]. intros c t' Hle. apply HQ.
    pose proof (settles_from_ge e t). lia.
Qed.

Lemma safe_bind {A B} (Q : Completion B -> Z -> Prop) (p : Prog A) (f : A -> Prog B) t :
  safe (fun c t' => match c with
                    | Returned a => safe Q (f a) t'
                    | Thrown e => Q (Thrown e) t'
                    | Spun => Q Spun t'
                    end) p t ->
  safe Q (bind p f) t.
Proof.
  revert t. induction p as [a|e| |X e k IH|X e k IH]; intros t Hp; simpl in *; auto.
  destruct e; try (intros x; apply IH; auto).
  intros t' Hle. apply IH; auto.
Qed.

Lemma safe_try_catch {A} (Q : Completion A -> Z -> Prop) (p : Prog A) h t :
  safe (fun c t' => match c with
                    | Returned a => Q (Returned a) t'
                    | Thrown e => safe Q (h e) t'
                    | Spun => Q Spun t'
                    end) p t ->
  safe Q (try_catch p h) t.
Proof.
  revert t. induction p as [a|e| |X e k IH|X e k IH]; intros t Hp; simpl in *; auto.
  destruct e; try (intros x; apply IH; auto).
  intros t' Hle. apply IH; auto.
Qed.

Lemma advance_safe {A} (Q : Completion A -> Z -> Prop) (p : Prog A) t rnd o :
  safe Q p t -> susp_safe Q t (fst (advance p t rnd o)).
Proof.
  revert o. induction p as [a|e| |X e k IH|X e k IH]; intros o Hp; simpl in *; eauto.
  - destruct (handle e t rnd o) as [x o'] eqn:Hh. apply IH.
    destruct e; simpl in Hh; inversion Hh; subst; auto. apply Hp. lia.
  - split; [lia|auto].
Qed.

Lemma advance_keeps {A} I (Q : Completion A -> Orch -> Prop) (p : Prog A) t rnd o :
  keeps I Q p o ->
  match fst (advance p t rnd o) with
  | Settled c => Q c (snd (advance p t rnd o))
  | Blocked e _ k =>
      I (snd (advance p t rnd o)) /\ forall x o', I o' -> keeps I Q (k x) o'
  end.
Proof.
  revert o. induction p as [a|e| |X e k IH|X e k IH]; intros o Hp; simpl in *; auto.
  specialize (Hp t rnd). destruct (handle e t rnd o) as [x o']. apply IH, Hp.
Qed.

Lemma keeps_weaken {A} I (Q Q' : Completion A -> Orch -> Prop) (p : Prog A) o :
  (forall c o', Q c o' -> Q' c o') -> keeps I Q p o -> keeps I Q' p o.
Proof.
  intros HQ. revert o.
  induction p as [a|e| |X e k IH|X e k IH]; intros o Hp; simpl in *; auto.
  destruct Hp as [Ho Hk]. split; auto.
Qed.

Lemma keeps_bind {A B} I (Q : Completion B -> Orch -> Prop) (p : Prog A)
      (f : A -> Prog B) o :
  keeps I (fun c o' => match c with
                       | Returned a => keeps I Q (f a) o'
                       | Thrown e => Q (Thrown e) o'
                       | Spun => Q Spun o'
                       end) p o ->
  keeps I Q (bind p f) o.
Proof.
  revert o. induction p as [a|e| |X e k IH|X e k IH]; intros o Hp; simpl in *; auto.
  destruct Hp as [Ho Hk]. split; auto.
Qed.

Lemma keeps_try_finally {A} I (Q : Completion A -> Orch -> Prop) (p : Prog A) c o :
  keeps I (fun r o' =>
             match r with
             | Returned a => keeps I (fun r' o'' =>
                                        match r' with
                                        | Returned _ => Q (Returned a) o''
                                        | Thrown e => Q (Thrown e) o''
                                        | Spun => Q Spun o''
                                        end) c o'
             | Thrown e => keeps I (fun r' o'' =>
                                      match r' with
                                      | Returned _ => Q (Thrown e) o''
                                      | Thrown e' => Q (Thrown e') o''
                                      | Spun => Q Spun o''
                                      end) c o'
             | Spun => Q Spun o'
             end) p o ->
  keeps I Q (try_finally p c) o.
Proof.
  revert o. induction p as [a|e| |X e k IH|X e k IH]; intros o Hp; simpl in *; auto.
  - apply keeps_bind. eapply keeps_weaken; [|exact Hp]. intros [] o'; auto.
  - apply keeps_bind. eapply keeps_weaken; [|exact Hp]. intros [] o'; auto.
  - destruct Hp as [Ho Hk]. split; auto.
Qed.

(** A program that only reads keeps every invariant. *)
Lemma keeps_readonly {A} (I : Orch -> Prop) (p : Prog A) o :
  readonly p -> I o -> keeps I (fun _ o' => I o') p o.
Proof.
  revert o. induction p as [a|e| |X e k IH|X e k IH]; intros o Hp Ho; simpl in *; auto.
  - destruct Hp as [He Hk]. intros t rnd.
    pose proof (handle_reads e t rnd o He) as Hs.
    destruct (handle e t rnd o) as [x o']; simpl in *. subst. auto.
Qed.

(** ** The programs of [executeTask] *)

Lemma readonly_perform {X} (e : Sync X) : reads e -> readonly (perform e).
Proof. intros He. split; [exact He|]. intros x. exact I. Qed.

Lemma readonly_sleep ms : readonly (sleep ms).
Proof. intros x. exact I. Qed.

Lemma bounded_perform {X} (e : Sync X) n : bounded n (perform e).
Proof. intros x. exact I. Qed.

Lemma bounded_sleep ms : bounded 1 (sleep ms).
Proof. split; [exact I|]. intros x. exact I. Qed.

Lemma safe_now {A} (Q : Completion A -> Z -> Prop) (f : Z -> Prog A) t :
  (forall t', t <= t' -> safe Q (f t') t') ->
  safe Q (do t' <- perform DateNow; f t') t.
Proof. intros Hf. exact Hf. Qed.

Lemma safe_sleep {A} (Q : Completion A -> Z -> Prop) (f : unit -> Prog A) ms t :
  safe Q (f tt) (earliest t ms) -> safe Q (do x <- sleep ms; f x) t.
Proof. intros Hf []. exact Hf. Qed.

Section ExecuteTaskStructure.
Context `{JsonRuntime}.
Variable config : AgentConfig.

Lemma readonly_every_success dependencies : readonly (every_success dependencies).
Proof.
  induction dependencies as [|d rest IH]; [exact I|].
  cbn [every_success]. apply readonly_bind; [apply readonly_perform; exact I|].
  intros [r|]; [|exact I]. destruct (status_eqb _ _); [exact IH|exact I].
Qed.

Lemma readonly_waitLoop n dependencies maxWaitTime startTime :
  readonly (waitLoop n dependencies maxWaitTime startTime).
Proof.
  induction n as [|n IH]; cbn [waitLoop];
    (apply readonly_bind; [apply readonly_perform; exact I|]); intros t;
    destruct (t - startTime <? maxWaitTime); try exact I.
  apply readonly_bind; [apply readonly_every_success|].
  intros []; [exact I|].
  apply readonly_bind; [apply readonly_sleep|]. intros _. exact IH.
Qed.

Lemma readonly_processTask task : readonly (processTask task).
Proof. intros [e|r]; exact I. Qed.

Lemma readonly_retryLoop n attempt task error :
  readonly (retryLoop config n attempt task error).
Proof.
  revert attempt. induction n as [|n IH]; intros attempt; cbn [retryLoop];
    destruct (attempt <=? retryAttempts config); try exact I.
  apply readonly_try_catch.
  - apply readonly_bind; [apply readonly_sleep|]. intros _.
    apply readonly_bind; [apply readonly_processTask|]. intros v. exact I.
  - intros e. destruct (attempt =? retryAttempts config); [exact I|apply IH].
Qed.

Lemma readonly_executeTask task : readonly (executeTask config task).
Proof.
  unfold executeTask.
  apply readonly_bind; [apply readonly_perform; exact I|]. intros startTime.
  apply readonly_try_catch.
  - apply readonly_bind.
    + destruct (t_dependencies task); [|exact I].
      apply readonly_bind; [apply readonly_perform; exact I|].
      intros t. apply readonly_waitLoop.
    + intros _. apply readonly_bind; [apply readonly_processTask|].
      intros v. apply readonly_bind; [apply readonly_perform; exact I|].
      intros t. exact I.
  - intros e. apply readonly_bind; [apply readonly_perform; exact I|]. intros t.
    destruct (truthy _ && _); [apply readonly_retryLoop|exact I].
Qed.

Lemma bounded_every_success dependencies n : bounded n (every_success dependencies).
Proof.
  induction dependencies as [|d rest IH]; [exact I|].
  cbn [every_success]. apply (bounded_bind _ _ 0 n); [apply bounded_perform|].
  intros [r|]; [|exact I]. destruct (status_eqb _ _); [exact IH|exact I].
Qed.

Lemma bounded_waitLoop n dependencies maxWaitTime startTime :
  bounded n (waitLoop n dependencies maxWaitTime startTime).
Proof.
  induction n as [|n IH]; cbn [waitLoop].
  - apply (bounded_bind _ _ 0 0); [apply bounded_perform|]. intros t.
    destruct (t - startTime <? maxWaitTime); exact I.
  - apply (bounded_bind _ _ 0 (S n)); [apply bounded_perform|]. intros t.
    destruct (t - startTime <? maxWaitTime); [|exact I].
    apply (bounded_bind _ _ 0 (S n)); [apply bounded_every_success|].
    intros []; [exact I|].
    apply (bounded_bind _ _ 1 n); [apply bounded_sleep|]. intros _. exact IH.
Qed.

Lemma bounded_processTask task : bounded 1 (processTask task).
Proof. split; [exact I|]. intros [e|r]; exact I. Qed.

Lemma bounded_retryLoop n attempt task error :
  bounded (2 * n) (retryLoop config n attempt task error).
Proof.
  revert attempt. induction n as [|n IH]; intros attempt; cbn [retryLoop];
    destruct (attempt <=? retryAttempts config); try exact I.
  replace (2 * S n)%nat with (2 + 2 * n)%nat by lia.
  apply bounded_try_catch.
  - apply (bounded_bind _ _ 1 1); [apply bounded_sleep|]. intros _.
    apply (bounded_bind _ _ 1 0); [apply bounded_processTask|]. intros v. exact I.
  - intros e. destruct (attempt =? retryAttempts config); [exact I|apply IH].
Qed.

Lemma bounded_executeTask task : bounded (job_bound config) (executeTask config task).
Proof.
  unfold executeTask, job_bound.
  apply (bounded_bind _ _ 0); [apply bounded_perform|]. intros startTime.
  apply bounded_try_catch.
  - apply bounded_bind.
    + destruct (t_dependencies task); [|exact I].
      apply (bounded_bind _ _ 0); [apply bounded_perform|].
      intros t. apply bounded_waitLoop.
    + intros _. apply (bounded_bind _ _ 1 0); [apply bounded_processTask|].
      intros v. apply (bounded_bind _ _ 0 0); [apply bounded_perform|].
      intros t. exact I.
  - intros e. apply (bounded_bind _ _ 0); [apply bounded_perform|]. intros t.
    destruct (truthy _ && _); [apply bounded_retryLoop|exact I].
Qed.

Lemma safe_every_success (Q : Completion bool -> Z -> Prop) dependencies t :
  (forall b, Q (Returned b) t) -> safe Q (every_success dependencies) t.
Proof.
  intros HQ. induction dependencies as [|d rest IH]; [apply HQ|].
  cbn [every_success bind perform]. intros [r|]; [|apply HQ].
  destruct (status_eqb _ _); [exact IH|apply HQ].
Qed.

(** With enough iterations left for what remains of the window, the wait
    loop returns or throws: it never outlives its bound. *)
Lemma safe_waitLoop (Q : Completion unit -> Z -> Prop) dependencies maxWaitTime
      startTime :
  forall n t,
    maxWaitTime - (t - startTime) <= Z.of_nat n ->
    (forall t', t <= t' -> Q (Returned tt) t') ->
    (forall t', t <= t' -> Q (Thrown dependency_timeout) t') ->
    safe Q (waitLoop n dependencies maxWaitTime startTime) t.
Proof.
  induction n as [|n IH]; intros t Hn Hret Hthrow; cbn [waitLoop];
    apply safe_now; intros t' Hle;
    destruct (t' - startTime <? maxWaitTime) eqn:Hlt;
    try (apply Hthrow; exact Hle).
  - apply Z.ltb_lt in Hlt. unfold checkInterval in Hn. lia.
  - apply safe_bind, safe_every_success. intros []; [apply Hret, Hle|].
    apply safe_sleep, IH.
    + unfold earliest, progress, checkInterval in *. lia.
    + intros t'' Hle'. apply Hret. unfold earliest, progress, checkInterval in *. lia.
    + intros t'' Hle'. apply Hthrow. unfold earliest, progress, checkInterval in *. lia.
Qed.

Lemma safe_processTask (Q : Completion JsValue -> Z -> Prop) task t :
  (forall v, Q (Returned v) t) -> (forall e, Q (Thrown e) t) ->
  safe Q (processTask task) t.
Proof. intros Hret Hthrow [e|r]; [apply Hthrow|apply Hret]. Qed.

Lemma outcome_of_success task v d : outcome_of task (outcome_success task v d).
Proof. split; [reflexivity|]. left. auto. Qed.

Lemma outcome_of_failure task e d : outcome_of task (outcome_failure task e d).
Proof. split; [reflexivity|]. right. simpl. eauto. Qed.

Lemma safe_retryLoop task error :
  forall n attempt t,
    n = Z.to_nat (retryAttempts config - attempt + 1) ->
    safe (returns_outcome task) (retryLoop config n attempt task error) t.
Proof.
  induction n as [|n IH]; intros attempt t Hn; cbn [retryLoop];
    destruct (attempt <=? retryAttempts config) eqn:Hle;
    try (eexists; split; [reflexivity|apply outcome_of_failure]).
  - apply Z.leb_le in Hle. lia.
  - apply safe_try_catch, safe_sleep, safe_bind, safe_processTask.
    + intros v. eexists; split; [reflexivity|apply outcome_of_success].
    + intros e. destruct (attempt =? retryAttempts config).
      * eexists; split; [reflexivity|apply outcome_of_failure].
      * apply IH. lia.
Qed.

Lemma safe_executeTask task t :
  safe (returns_outcome task) (executeTask config task) t.
Proof.
  unfold executeTask. apply safe_now. intros startTime Hstart.
  assert (Hcatch : forall e t',
    safe (returns_outcome task)
      (do t0 <- perform DateNow;
       if truthy (t_retryOnFailure task) && (retryAttempts config >? 0)
       then retryTask config task e
       else Ret (outcome_failure task e (t0 - startTime))) t').
  { intros e t'. apply safe_now. intros t0 Hle.
    destruct (truthy _ && _).
    - apply safe_retryLoop. lia.
    - eexists; split; [reflexivity|apply outcome_of_failure]. }
  assert (Hbody : forall t',
    safe (fun c t'' => match c with
                       | Returned a => returns_outcome task (Returned a) t''
                       | Thrown e => safe (returns_outcome task)
                           (do t0 <- perform DateNow;
                            if truthy (t_retryOnFailure task) && (retryAttempts config >? 0)
                            then retryTask config task e
                            else Ret (outcome_failure task e (t0 - startTime))) t''
                       | Spun => returns_outcome task Spun t''
                       end)
      (do result <- processTask task;
       do t0 <- perform DateNow;
       Ret (outcome_success task result (t0 - startTime))) t').
  { intros t'. apply safe_bind, safe_processTask.
    - intros v. apply safe_now. intros t0 Hle.
      eexists; split; [reflexivity|apply outcome_of_success].
    - intros e. apply Hcatch. }
  apply safe_try_catch, safe_bind.
  destruct (t_dependencies task) as [dependencies|]; [|apply Hbody].
  unfold waitForDependencies. apply safe_now. intros t0 Hle.
  apply safe_waitLoop.
  - pose proof (poll_bound_covers (timeout config)). lia.
  - intros t' _. apply Hbody.
  - intros t' _. apply Hcatch.
Qed.

End ExecuteTaskStructure.

(** ** Resuming a continuation *)

Lemma susp_safe_later {A} (Q : Completion A -> Z -> Prop) (s : Susp A) t t' :
  t <= t' -> susp_safe Q t s -> susp_safe Q t' s.
Proof. intros Hle. destruct s as [c|X e since k]; simpl; [auto|]. intros [Hs Hk]. split; [lia|auto]. Qed.

Ltac resume_cases s a Hres :=
  destruct s as [?c|?X e ?since ?k]; [discriminate Hres|];
  destruct e as [?ms|?messages|]; destruct a as [|?r|]; simpl in Hres;
  try discriminate Hres;
  [ destruct (earliest _ _ <=? _) eqn:?Hdue; [|discriminate Hres]
  |
  | match type of Hres with
    | (if ?b then _ else _) = _ => destruct b; [|discriminate Hres]
    end ];
  injection Hres as Hres.

Lemma resume_readonly {A} (s s' : Susp A) a idle t o o' :
  susp_readonly s -> resume s a idle t o = Some (s', o') ->
  o' = o /\ susp_readonly s'.
Proof.
  intros Hs Hres. resume_cases s a Hres; simpl in Hs;
    match type of Hres with
    | advance ?p _ _ _ = _ =>
        pose proof (advance_readonly p t EmptyString o (Hs _)) as Hr;
        rewrite Hres in Hr; exact Hr
    end.
Qed.

Lemma resume_safe {A} (Q : Completion A -> Z -> Prop) (s s' : Susp A) a idle t o o' :
  monotone Q -> susp_safe Q t s -> resume s a idle t o = Some (s', o') ->
  susp_safe Q t s'.
Proof.
  intros HQ Hs Hres. resume_cases s a Hres; destruct Hs as [Hsince Hk];
    simpl in Hk;
    match type of Hres with
    | advance ?p _ _ _ = _ =>
        assert (Hp : safe Q p t);
        [|pose proof (advance_safe Q p t EmptyString o Hp) as Hr;
          rewrite Hres in Hr; exact Hr]
    end.
  - apply safe_mono with (earliest since ms); [exact HQ| |apply Hk].
    apply Z.leb_le. assumption.
  - apply safe_mono with since; auto.
  - apply safe_mono with since; auto.
Qed.

Lemma resume_bounded {A} (s s' : Susp A) a idle t o o' b :
  susp_bounded b s -> resume s a idle t o = Some (s', o') ->
  exists b', b = S b' /\ susp_bounded b' s'.
Proof.
  intros Hs Hres. resume_cases s a Hres; destruct Hs as [He Hk];
    try (destruct b as [|b']; [done|]; exists b'; split; [reflexivity|];
         match type of Hres with
         | advance ?p _ _ _ = _ =>
             pose proof (advance_bounded p b' t EmptyString o (Hk _)) as Hr;
             rewrite Hres in Hr; exact Hr
         end).
Qed.

Lemma resume_keeps {A} I (Q : Completion A -> Orch -> Prop) (s s' : Susp A)
      a idle t o o' :
  susp_keeps I Q s -> I o -> resume s a idle t o = Some (s', o') ->
  match s' with
  | Settled c => Q c o'
  | Blocked _ _ _ => I o' /\ susp_keeps I Q s'
  end.
Proof.
  intros Hs Ho Hres.
  resume_cases s a Hres; simpl in Hs;
    match type of Hres with
    | advance ?p _ _ _ = _ =>
        pose proof (advance_keeps I Q p t EmptyString o (Hs _ _ Ho)) as Hr;
        rewrite Hres in Hr; simpl in Hr;
        destruct s' as [c|X e' since' k']; simpl; auto
    end.
Qed.

(** A timer whose delay has elapsed can be resumed. *)
Lemma resume_enabled_timer {A} ms since (k : unit -> Prog A) idle t o :
  due since ms <= t ->
  resume (Blocked (SetTimeout ms) since k) Fired idle t o
  = Some (advance (k tt) t EmptyString o).
Proof.
  intros Hle. simpl.
  assert (Hearly : (earliest since ms <=? t) = true)
    by (apply Z.leb_le; unfold earliest, progress, due in *; lia).
  rewrite Hearly. reflexivity.
Qed.

(** ** The queue *)

Lemma pendingCount_nil : pendingCount [] = 0.
Proof. reflexivity. Qed.

Lemma pendingCount_cons j js :
  pendingCount (j :: js) = (if is_pending j then 1 else 0) + pendingCount js.
Proof.
  unfold pendingCount. rewrite filter_cons.
  destruct (decide (is_pending j = true)) as [Hj|Hj].
  - rewrite Hj. simpl length. lia.
  - destruct (is_pending j); [done|]. lia.
Qed.

Lemma pendingCount_app js1 js2 :
  pendingCount (js1 ++ js2) = pendingCount js1 + pendingCount js2.
Proof.
  induction js1 as [|j js1 IH]; [reflexivity|].
  simpl app. rewrite !pendingCount_cons, IH. lia.
Qed.

Lemma pendingCount_insert js i j j' :
  js !! i = Some j ->
  pendingCount (<[i := j']> js)
  = pendingCount js - (if is_pending j then 1 else 0) + (if is_pending j' then 1 else 0).
Proof.
  intros Hi. rewrite <- (take_drop_middle js i j Hi) at 2.
  rewrite insert_take_drop by (eapply lookup_lt_Some; eauto).
  rewrite !pendingCount_app, !pendingCount_cons. lia.
Qed.

Section Queue.
Context `{JsonRuntime}.
Variable config : AgentConfig.

Lemma returns_outcome_monotone task : monotone (returns_outcome task).
Proof. intros c t t' _ Hc. exact Hc. Qed.

Lemma job_ok_started task t o :
  job_ok t (Running task (fst (advance (executeTask config task) t EmptyString o)))
  /\ snd (advance (executeTask config task) t EmptyString o) = o.
Proof.
  pose proof (advance_readonly (executeTask config task) t EmptyString o
                (readonly_executeTask config task)) as [Ho Hr].
  split; [|exact Ho]. split; [|split; [exact Hr|]].
  - apply advance_safe, safe_executeTask.
  - exists (job_bound config). apply advance_bounded, bounded_executeTask.
Qed.

Lemma job_ok_later t t' j : t <= t' -> job_ok t j -> job_ok t' j.
Proof.
  intros Hle. destruct j as [task|task s]; simpl; [auto|].
  intros [Hs Hr]. split; [|exact Hr]. eapply susp_safe_later; eauto.
Qed.

(** What starting queued jobs does: the shared state is untouched, no job
    is lost or reordered, started jobs stay as they are, and the queue
    stops starting jobs exactly when [maxConcurrent] are pending. *)
Lemma pump_spec t :
  forall js pending o js' o',
    Forall (job_ok t) js ->
    pump config t pending js o = (js', o') ->
    o' = o
    /\ Forall (job_ok t) js'
    /\ map job_task js' = map job_task js
    /\ pendingCount js <= pendingCount js'
    /\ pending + (pendingCount js' - pendingCount js)
         <= Z.max pending (maxConcurrent config)
    /\ (forall task, Queued task ∈ js' ->
          maxConcurrent config <= pending + (pendingCount js' - pendingCount js))
    /\ (forall i task s, js !! i = Some (Running task s) ->
          js' !! i = Some (Running task s)).
Proof.
  induction js as [|j rest IH]; intros pending o js' o' Hok Hpump.
  - simpl in Hpump. inversion Hpump; subst. rewrite pendingCount_nil.
    repeat split; auto; try lia.
    intros task Hin. inversion Hin.
  - apply Forall_cons in Hok as [Hj Hrest].
    destruct j as [task|task s]; cbn [pump] in Hpump.
    + destruct (pending <? maxConcurrent config) eqn:Hslot.
      * destruct (job_ok_started task t o) as [Hstarted Ho1].
        destruct (advance (executeTask config task) t EmptyString o) as [s o1].
        simpl in Hstarted, Ho1. subst o1.
        destruct (pump config t _ rest o) as [rest' o2] eqn:Hrec.
        inversion Hpump; subst; clear Hpump.
        destruct (IH _ _ _ _ Hrest Hrec) as (-> & Hok' & Htasks & Hge & Hle & Hq & Hkeep).
        apply Z.ltb_lt in Hslot.
        rewrite !pendingCount_cons.
        change (is_pending (Queued task)) with false.
        destruct (is_pending (Running task s)).
        all: repeat split.
        all: try (constructor; assumption).
        all: try (simpl; f_equal; exact Htasks).
        all: try lia.
        all: try (intros task' Hin; apply elem_of_cons in Hin as [Heq|Hin];
                  [discriminate|]; specialize (Hq _ Hin); lia).
        all: intros [|i] task' s' Hi; [discriminate|]; simpl in *; eauto.
      * inversion Hpump; subst; clear Hpump. apply Z.ltb_ge in Hslot.
        repeat split; auto; try lia.
    + destruct (pump config t pending rest o) as [rest' o1] eqn:Hrec.
      inversion Hpump; subst; clear Hpump.
      destruct (IH _ _ _ _ Hrest Hrec) as (-> & Hok' & Htasks & Hge & Hle & Hq & Hkeep).
      rewrite !pendingCount_cons.
      repeat split.
      all: try (constructor; assumption).
      all: try (simpl; f_equal; exact Htasks).
      all: try lia.
      all: try (intros task' Hin; apply elem_of_cons in Hin as [Heq|Hin];
                [discriminate|]; specialize (Hq _ Hin); lia).
      all: intros [|i] task' s' Hi; simpl in *; eauto.
Qed.

Lemma queue_add_spec t task js o js' o' :
  Forall (job_ok t) js ->
  pendingCount js <= maxConcurrent config ->
  queue_add config t task (js, o) = (js', o') ->
  o' = o
  /\ Forall (job_ok t) js'
  /\ map job_task js' = (map job_task js ++ [task])%list
  /\ pendingCount js' <= maxConcurrent config
  /\ (forall task', Queued task' ∈ js' -> maxConcurrent config <= pendingCount js')
  /\ (forall i task' s, js !! i = Some (Running task' s) ->
        js' !! i = Some (Running task' s)).
Proof.
  intros Hok Hpend Hadd. unfold queue_add in Hadd. simpl in Hadd.
  assert (Hok1 : Forall (job_ok t) (js ++ [Queued task]))
    by (apply Forall_app; split; [exact Hok|repeat constructor]).
  assert (Hpc : pendingCount (js ++ [Queued task]) = pendingCount js)
    by (rewrite pendingCount_app, pendingCount_cons, pendingCount_nil; simpl; lia).
  destruct (pump_spec t _ _ _ _ _ Hok1 Hadd) as (-> & Hok' & Htasks & Hge & Hle & Hq & Hkeep).
  rewrite Hpc in *. repeat split; auto.
  - rewrite Htasks, map_app. reflexivity.
  - lia.
  - intros task' Hin. specialize (Hq _ Hin). lia.
  - intros i task' s Hi. apply Hkeep. apply lookup_app_l_Some. exact Hi.
Qed.

Lemma fold_queue_add_spec t :
  forall tasks js o js' o',
    Forall (job_ok t) js ->
    pendingCount js <= maxConcurrent config ->
    (forall task, Queued task ∈ js -> maxConcurrent config <= pendingCount js) ->
    fold_left (fun qo task => queue_add config t task qo) tasks (js, o) = (js', o') ->
    o' = o
    /\ Forall (job_ok t) js'
    /\ map job_task js' = (map job_task js ++ tasks)%list
    /\ pendingCount js' <= maxConcurrent config
    /\ (forall task, Queued task ∈ js' -> maxConcurrent config <= pendingCount js')
    /\ (forall i task s, js !! i = Some (Running task s) ->
          js' !! i = Some (Running task s)).
Proof.
  induction tasks as [|task tasks IH]; intros js o js' o' Hok Hpend Hq Hfold.
  - simpl in Hfold. inversion Hfold; subst. rewrite app_nil_r. auto 10.
  - simpl in Hfold.
    destruct (queue_add config t task (js, o)) as [js1 o1] eqn:Hadd.
    destruct (queue_add_spec _ _ _ _ _ _ Hok Hpend Hadd)
      as (-> & Hok1 & Htasks1 & Hpend1 & Hq1 & Hkeep1).
    destruct (IH _ _ _ _ Hok1 Hpend1 Hq1 Hfold)
      as (-> & Hok' & Htasks' & Hpend' & Hq' & Hkeep').
    repeat split; auto.
    rewrite Htasks', Htasks1, <- app_assoc. reflexivity.
Qed.

End Queue.

(** ** The registry *)

Lemma safe_try_finally {A} (Q : Completion A -> Z -> Prop) (p : Prog A) c t :
  safe (fun r t' =>
          match r with
          | Returned a => safe (fun r' t'' =>
                                  match r' with
                                  | Returned _ => Q (Returned a) t''
                                  | Thrown e => Q (Thrown e) t''
                                  | Spun => Q Spun t''
                                  end) c t'
          | Thrown e => safe (fun r' t'' =>
                                match r' with
                                | Returned _ => Q (Thrown e) t''
                                | Thrown e' => Q (Thrown e') t''
                                | Spun => Q Spun t''
                                end) c t'
          | Spun => Q Spun t'
          end) p t ->
  safe Q (try_finally p c) t.
Proof.
  revert t. induction p as [a|e| |X e k IH|X e k IH]; intros t Hp; simpl in *; auto.
  - apply safe_bind. eapply safe_weaken; [|exact Hp]. intros [] t' _; auto.
  - apply safe_bind. eapply safe_weaken; [|exact Hp]. intros [] t' _; auto.
  - destruct e; try (intros x; apply IH; auto).
    intros t' Hle. apply IH; auto.
Qed.

Lemma orch_ok_empty : orch_ok empty_orch.
Proof.
  split; [constructor|]. intros id a Ha. simpl in Ha.
  rewrite lookup_empty in Ha. discriminate.
Qed.

Lemma orch_ok_with_taskResults f o : orch_ok o -> orch_ok (with_taskResults f o).
Proof. intros Ho. exact Ho. Qed.

Lemma orch_ok_clear o :
  orch_ok o -> orch_ok (with_taskResults (fun _ => ∅) (with_agents (fun _ => ∅) o)).
Proof.
  intros [Hh _]. split; [exact Hh|]. intros id a Ha. simpl in Ha.
  rewrite lookup_empty in Ha. discriminate.
Qed.

Lemma orch_ok_alter f a o :
  (forall ag, agent_ok (f ag)) -> orch_ok o -> orch_ok (with_heap (alter f a) o).
Proof.
  intros Hf [Hh Hr]. split.
  - unfold heap_ok in *. simpl. apply Forall_alter; auto.
  - intros id a' Ha'. simpl in *. apply lookup_lt_is_Some.
    rewrite length_alter. apply lookup_lt_is_Some. eauto.
Qed.

Lemma with_heap_twice f g o :
  with_heap g (with_heap f o) = with_heap (fun h => g (f h)) o.
Proof. reflexivity. Qed.

Lemma orch_ok_assigned a task o :
  orch_ok o ->
  orch_ok (with_heap (alter (set_status busy) a)
             (with_heap (alter (set_currentTask (Some task)) a) o)).
Proof.
  intros Ho. rewrite with_heap_twice.
  replace (with_heap _ o)
    with (with_heap (alter (fun ag => set_status busy (set_currentTask (Some task) ag)) a) o).
  - apply orch_ok_alter; [|exact Ho]. intros ag. unfold agent_ok. simpl.
    split; [split; intros; congruence|congruence].
  - unfold with_heap. f_equal.
    symmetry. apply list_alter_alter_eq.
Qed.

Lemma orch_ok_released a o :
  orch_ok o ->
  let o' := with_heap (alter (set_status idle) a)
              (with_heap (alter (set_currentTask None) a) o) in
  orch_ok o' /\ released (Some a) o'.
Proof.
  intros Ho o'. unfold o'. rewrite with_heap_twice.
  replace (with_heap _ o)
    with (with_heap (alter (fun ag => set_status idle (set_currentTask None ag)) a) o).
  - split.
    + apply orch_ok_alter; [|exact Ho]. intros ag. unfold agent_ok. simpl.
      split; [split; intros; congruence|congruence].
    + intros a' ag [= <-] Hag. simpl in Hag.
      rewrite list_lookup_alter_eq in Hag.
      apply fmap_Some in Hag as (x & Hx & ->). split; reflexivity.
  - unfold with_heap. f_equal.
    symmetry. apply list_alter_alter_eq.
Qed.

Lemma advance_createAgent name capabilities t rnd o :
  advance (createAgent name capabilities) t rnd o
  = (Settled (Returned (length (heap o))),
     with_agents (insert (a_id (new_agent name capabilities t rnd)) (length (heap o)))
       (with_heap (fun h => (h ++ [new_agent name capabilities t rnd])%list) o)).
Proof. reflexivity. Qed.

Lemma orch_ok_createAgent name capabilities t rnd o :
  orch_ok o -> orch_ok (snd (advance (createAgent name capabilities) t rnd o)).
Proof.
  intros [Hh Hr]. rewrite advance_createAgent.
  remember (new_agent name capabilities t rnd) as ag eqn:Hag. split.
  - unfold heap_ok in *. cbn [snd heap with_agents with_heap]. apply Forall_app.
    split; [exact Hh|]. constructor; [|constructor]. subst ag. unfold agent_ok. simpl.
    split; [split; intros; congruence|congruence].
  - intros id a Ha. cbn [snd heap agents with_agents with_heap] in *.
    destruct (decide (a_id ag = id)) as [<-|Hne].
    + rewrite lookup_insert_eq in Ha. inversion Ha; subst a.
      rewrite lookup_app_r by lia. rewrite Nat.sub_diag. eauto.
    + rewrite lookup_insert_ne in Ha by exact Hne.
      destruct (Hr _ _ Ha) as [x Hx]. exists x. apply lookup_app_l_Some, Hx.
Qed.

Section Registry.
Context `{JsonRuntime}.
Variable config : AgentConfig.

Lemma keeps_assignTask agentId task o :
  orch_ok o ->
  keeps orch_ok (assign_post (agents o !! agentId)) (assignTask config agentId task) o.
Proof.
  intros Ho. unfold assignTask. cbn [bind perform keeps handle fst snd]. intros _ _.
  destruct (agents o !! agentId) as [a|].
  - cbn [bind perform keeps handle fst snd]. intros _ _ _ _.
    apply keeps_try_finally, keeps_bind.
    eapply keeps_weaken;
      [|apply keeps_readonly; [apply readonly_executeTask|apply orch_ok_assigned, Ho]].
    intros c o' Ho'. destruct c as [r|e|].
    + cbn [bind perform keeps handle fst snd]. intros _ _ _ _ _ _.
      destruct (orch_ok_released a (with_taskResults (insert (t_id task) r) o')
                  (orch_ok_with_taskResults _ _ Ho')) as [Hok Hrel].
      split; [exact Hok|intros _; exact Hrel].
    + cbn [bind perform keeps handle fst snd]. intros _ _ _ _.
      destruct (orch_ok_released a o' Ho') as [Hok Hrel].
      split; [exact Hok|intros _; exact Hrel].
    + split; [exact Ho'|]. intros Hn. contradiction.
  - split; [exact Ho|]. intros _ a ag Ha. discriminate.
Qed.

Lemma safe_assignTask agentId task t :
  safe no_spin (assignTask config agentId task) t.
Proof.
  unfold assignTask. cbn [bind perform safe]. intros [a|]; [|discriminate].
  cbn [bind perform safe]. intros _ _.
  apply safe_try_finally, safe_bind.
  eapply safe_weaken; [|apply (safe_executeTask config task)].
  intros c t' _ [r [-> _]]. cbn [perform safe]. intros. unfold no_spin. discriminate.
Qed.

Lemma keeps_shutdown o :
  orch_ok o -> keeps orch_ok (fun _ o' => orch_ok o') shutdown o.
Proof.
  intros Ho. split; [exact Ho|]. intros [] o' Ho'.
  cbn [bind await perform keeps handle fst snd]. intros.
  apply orch_ok_clear, Ho'.
Qed.

End Registry.

(** ** Every step keeps the invariant *)

Lemma jobs_extend_refl js : jobs_extend js js.
Proof. intros i j Hj. eauto. Qed.

Lemma jobs_extend_trans js1 js2 js3 :
  jobs_extend js1 js2 -> jobs_extend js2 js3 -> jobs_extend js1 js3.
Proof.
  intros H12 H23 i j Hj. destruct (H12 _ _ Hj) as (j2 & Hj2 & Ht2).
  destruct (H23 _ _ Hj2) as (j3 & Hj3 & Ht3). exists j3. split; [exact Hj3|congruence].
Qed.

Lemma jobs_extend_of_tasks js js' extra :
  map job_task js' = (map job_task js ++ extra)%list -> jobs_extend js js'.
Proof.
  intros Hmap i j Hj.
  assert (Hi : map job_task js' !! i = Some (job_task j)).
  { rewrite Hmap. apply lookup_app_l_Some. rewrite list_lookup_fmap, Hj. reflexivity. }
  rewrite list_lookup_fmap in Hi. apply fmap_Some in Hi as (j' & Hj' & Ht).
  exists j'. split; [exact Hj'|congruence].
Qed.

Lemma jobs_extend_insert js i task s s' :
  js !! i = Some (Running task s) ->
  jobs_extend js (<[i := Running task s']> js).
Proof.
  intros Hi k j Hj. destruct (decide (i = k)) as [<-|Hne].
  - rewrite Hi in Hj. inversion Hj; subst.
    exists (Running task s'). split; [|reflexivity].
    apply list_lookup_insert_eq. eapply lookup_lt_Some; eauto.
  - exists j. split; [|reflexivity]. rewrite list_lookup_insert_ne by exact Hne. exact Hj.
Qed.

Lemma call_ok_frame σ σ' c :
  now σ <= now σ' -> jobs_extend (jobs σ) (jobs σ') ->
  call_ok σ c -> call_ok σ' c.
Proof.
  intros Hnow Hjobs. destruct c as [task s|agentId task agent s|ready s|tasks first]; simpl.
  - intros [Hs Hr]. split; [|exact Hr]. eapply susp_safe_later; eauto.
  - intros [Hs Hk]. split; [|exact Hk]. eapply susp_safe_later; eauto.
  - auto.
  - intros Hc k task Hk. destruct (Hc k task Hk) as (j & Hj & Ht).
    destruct (Hjobs _ _ Hj) as (j' & Hj' & Ht'). exists j'. split; [exact Hj'|congruence].
Qed.

Lemma notify_assign (cs : list Call) idle (i : nat) agentId task agent s :
  (notify idle <$> cs) !! i = Some (CallAssignTask agentId task agent s) ->
  cs !! i = Some (CallAssignTask agentId task agent s).
Proof.
  rewrite list_lookup_fmap. destruct (cs !! i) as [[]|]; simpl; congruence.
Qed.

Lemma call_ok_notify σ idle c : call_ok σ c -> call_ok σ (notify idle c).
Proof. destruct c; simpl; auto. Qed.

Lemma calls_ok_notified σ σ' idle cs :
  now σ <= now σ' -> jobs_extend (jobs σ) (jobs σ') ->
  Forall (call_ok σ) cs -> Forall (call_ok σ') (notify idle <$> cs).
Proof.
  intros Hnow Hjobs Hcs. apply Forall_fmap. eapply Forall_impl; [exact Hcs|].
  intros c Hc. simpl. apply call_ok_notify. eapply call_ok_frame; eauto.
Qed.

Lemma no_spin_monotone {A} : monotone (@no_spin A).
Proof. intros c t t' _ Hc. exact Hc. Qed.

Section Steps.
Context `{JsonRuntime}.
Variable config : AgentConfig.

Lemma invariant_new t σ : AgentOrchestrator_new config t = Some σ -> invariant config σ.
Proof.
  unfold AgentOrchestrator_new. destruct (1 <=? maxConcurrent config) eqn:Hc; [|discriminate].
  intros [= <-]. apply Z.leb_le in Hc. split; simpl.
  - exact Hc.
  - apply orch_ok_empty.
  - constructor.
  - rewrite pendingCount_nil. lia.
  - intros task Hin. inversion Hin.
  - constructor.
Qed.

Lemma step_resume_job σ σ' i a :
  invariant config σ -> step config (Resume (InJob i) a) σ = Some σ' ->
  invariant config σ'
  /\ shared σ' = shared σ /\ now σ' = now σ
  /\ calls σ' = notify (queue_idle (jobs σ')) <$> calls σ
  /\ jobs_extend (jobs σ) (jobs σ').
Proof.
  intros [Hc Ho Hjobs Hpend Hq Hcalls] Hstep. cbn [step] in Hstep.
  destruct (jobs σ !! i) as [[task|task s]|] eqn:Hi; try discriminate.
  destruct (resume s a false (now σ) (shared σ)) as [[s' o]|] eqn:Hres;
    [|discriminate].
  cbn in Hstep.
  pose proof (Forall_lookup_1 _ _ _ _ Hjobs Hi) as (Hsafe & Hread & b & Hb).
  destruct (resume_bounded _ _ _ _ _ _ _ _ Hb Hres) as (b' & _ & Hb').
  destruct (resume_readonly _ _ _ _ _ _ _ Hread Hres) as [-> Hread'].
  pose proof (resume_safe _ _ _ _ _ _ _ _ (returns_outcome_monotone task) Hsafe Hres)
    as Hsafe'.
  set (js := <[i := Running task s']> (jobs σ)) in *.
  assert (Hjs : Forall (job_ok (now σ)) js).
  { apply Forall_insert; [exact Hjobs|]. split; [assumption|]. split; eauto. }
  assert (Hpc : pendingCount js <= pendingCount (jobs σ)).
  { unfold js. rewrite (pendingCount_insert _ _ _ _ Hi).
    assert (is_pending (Running task s) = true) as ->
      by (destruct s; [discriminate Hres|reflexivity]).
    destruct (is_pending (Running task s')); lia. }
  destruct (pump config (now σ) (pendingCount js) js (shared σ)) as [js' o'] eqn:Hpump.
  inversion Hstep; subst σ'; clear Hstep. simpl.
  destruct (pump_spec config _ _ _ _ _ _ Hjs Hpump)
    as (-> & Hok' & Htasks & Hge & Hle & Hq' & Hkeep).
  assert (Hext : jobs_extend (jobs σ) js').
  { eapply jobs_extend_trans; [apply (jobs_extend_insert _ _ _ _ s' Hi)|].
    apply jobs_extend_of_tasks with []. rewrite app_nil_r. exact Htasks. }
  split; [|auto].
  split; simpl; auto.
  - lia.
  - intros task' Hin. specialize (Hq' _ Hin). lia.
  - apply (calls_ok_notified σ); simpl; [lia|exact Hext|exact Hcalls].
Qed.

Lemma call_ok_resumed σ c c' a o' :
  orch_ok (shared σ) -> call_ok σ c ->
  resume_call c a (now σ) (shared σ) = Some (c', o') ->
  orch_ok o' /\ call_ok σ c'.
Proof.
  intros Ho Hc Hres.
  destruct c as [task s|agentId task agent s|ready s|tasks first]; simpl in Hres;
    try discriminate;
    destruct (resume s a _ (now σ) (shared σ)) as [[s' o1]|] eqn:Hr;
    try discriminate; cbn in Hres; inversion Hres; subst; clear Hres;
    simpl in Hc.
  - destruct Hc as [Hsafe Hread].
    destruct (resume_readonly _ _ _ _ _ _ _ Hread Hr) as [-> Hread'].
    split; [exact Ho|]. split; [|exact Hread'].
    eapply resume_safe; eauto using returns_outcome_monotone.
  - destruct Hc as [Hsafe Hkeep].
    pose proof (resume_safe _ _ _ _ _ _ _ _ no_spin_monotone Hsafe Hr) as Hsafe'.
    pose proof (resume_keeps _ _ _ _ _ _ _ _ _ Hkeep Ho Hr) as Hk.
    destruct s' as [c|X e since k]; simpl.
    + destruct Hk as [Hok _]. auto.
    + destruct Hk as [Hok Hk]. auto.
  - pose proof (resume_keeps _ _ _ _ _ _ _ _ _ Hc Ho Hr) as Hk.
    destruct s' as [c|X e since k]; simpl; [auto|]. destruct Hk; auto.
Qed.

Lemma step_invariant l σ σ' :
  invariant config σ -> step config l σ = Some σ' -> invariant config σ'.
Proof.
  intros Hinv Hstep. destruct l as [ms|[i|i] a|name caps rnd|agentId task|task|tasks|].
  - (* Tick *)
    destruct Hinv as [Hc Ho Hjobs Hpend Hq Hcalls].
    cbn [step] in Hstep. inversion Hstep; subst σ'; clear Hstep.
    split; simpl; auto.
    + eapply Forall_impl; [exact Hjobs|]. intros j. apply job_ok_later. lia.
    + eapply Forall_impl; [exact Hcalls|]. intros c.
      apply call_ok_frame; simpl; [lia|apply jobs_extend_refl].
  - (* a job is resumed *)
    eapply step_resume_job; eauto.
  - (* a call is resumed *)
    destruct Hinv as [Hc Ho Hjobs Hpend Hq Hcalls].
    cbn [step] in Hstep.
    destruct (calls σ !! i) as [c|] eqn:Hi; [|discriminate]. cbn in Hstep.
    destruct (resume_call c a _ _) as [[c' o]|] eqn:Hres; [|discriminate].
    cbn in Hstep. inversion Hstep; subst σ'; clear Hstep.
    destruct (call_ok_resumed σ c c' a o Ho (Forall_lookup_1 _ _ _ _ Hcalls Hi) Hres)
      as [Ho' Hc'].
    split; simpl; auto.
    apply Forall_insert.
    + eapply Forall_impl; [exact Hcalls|]. intros c0.
      apply call_ok_frame; simpl; [lia|apply jobs_extend_refl].
    + revert Hc'. apply call_ok_frame; simpl; [lia|apply jobs_extend_refl].
  - (* createAgent *)
    destruct Hinv as [Hc Ho Hjobs Hpend Hq Hcalls].
    cbn [step] in Hstep.
    pose proof (orch_ok_createAgent name caps (now σ) rnd (shared σ) Ho) as Ho'.
    destruct (advance (createAgent name caps) (now σ) rnd (shared σ)) as [s o].
    inversion Hstep; subst σ'; clear Hstep.
    split; simpl; auto.
  - (* assignTask *)
    destruct Hinv as [Hc Ho Hjobs Hpend Hq Hcalls].
    cbn [step] in Hstep.
    pose proof (advance_keeps _ _ _ (now σ) EmptyString _
                  (keeps_assignTask config agentId task (shared σ) Ho)) as Hk.
    pose proof (advance_safe _ _ (now σ) EmptyString (shared σ)
                  (safe_assignTask config agentId task (now σ))) as Hs.
    destruct (advance (assignTask config agentId task) (now σ) EmptyString (shared σ))
      as [s o].
    inversion Hstep; subst σ'; clear Hstep. simpl in Hk, Hs.
    assert (Ho' : orch_ok o /\ susp_keeps orch_ok
                                (assign_post (agents (shared σ) !! agentId)) s).
    { destruct s as [c|X e since k]; simpl; [destruct Hk; auto|destruct Hk; auto]. }
    destruct Ho' as [Ho' Hk'].
    split; simpl; auto.
    apply Forall_app. split.
    + eapply Forall_impl; [exact Hcalls|]. intros c0.
      apply call_ok_frame; simpl; [lia|apply jobs_extend_refl].
    + constructor; [|constructor]. split; assumption.
  - (* executeTask *)
    destruct Hinv as [Hc Ho Hjobs Hpend Hq Hcalls].
    cbn [step] in Hstep.
    destruct (job_ok_started config task (now σ) (shared σ)) as [(Hs & Hr & _) Hsame].
    destruct (advance (executeTask config task) (now σ) EmptyString (shared σ))
      as [s o].
    inversion Hstep; subst σ'; clear Hstep. simpl in *. subst o.
    split; simpl; auto.
    apply Forall_app. split.
    + eapply Forall_impl; [exact Hcalls|]. intros c0.
      apply call_ok_frame; simpl; [lia|apply jobs_extend_refl].
    + constructor; [|constructor]. split; assumption.
  - (* executeParallel *)
    destruct Hinv as [Hc Ho Hjobs Hpend Hq Hcalls].
    cbn [step] in Hstep.
    destruct (fold_left _ tasks (jobs σ, shared σ)) as [js o] eqn:Hfold.
    inversion Hstep; subst σ'; clear Hstep.
    destruct (fold_queue_add_spec config _ _ _ _ _ _ Hjobs Hpend Hq Hfold)
      as (-> & Hok' & Htasks & Hpend' & Hq' & Hkeep).
    split; simpl; auto.
    apply Forall_app. split.
    + apply (calls_ok_notified σ); simpl; [lia| |exact Hcalls].
      eapply jobs_extend_of_tasks; eauto.
    + constructor; [|constructor]. simpl. intros k task Hk.
      assert (Hi : map job_task js !! (length (jobs σ) + k)%nat = Some task).
      { rewrite Htasks, lookup_app_r by (rewrite length_map; lia).
        rewrite length_map. replace (length (jobs σ) + k - length (jobs σ))%nat with k by lia.
        exact Hk. }
      rewrite list_lookup_fmap in Hi. apply fmap_Some in Hi as (j & Hj & Ht). eauto.
  - (* shutdown *)
    destruct Hinv as [Hc Ho Hjobs Hpend Hq Hcalls].
    cbn [step] in Hstep.
    pose proof (advance_keeps _ _ _ (now σ) EmptyString _
                  (keeps_shutdown (shared σ) Ho)) as Hk.
    destruct (advance shutdown (now σ) EmptyString (shared σ)) as [s o].
    inversion Hstep; subst σ'; clear Hstep. simpl in Hk.
    assert (Ho' : orch_ok o /\ susp_keeps orch_ok (fun _ o' => orch_ok o') s).
    { destruct s as [c|X e since k]; simpl; [auto|destruct Hk; auto]. }
    destruct Ho' as [Ho' Hk'].
    split; simpl; auto.
    apply Forall_app. split.
    + eapply Forall_impl; [exact Hcalls|]. intros c0.
      apply call_ok_frame; simpl; [lia|apply jobs_extend_refl].
    + constructor; [|constructor]. exact Hk'.
Qed.

Lemma run_invariant ls : forall σ σ',
  invariant config σ -> run config ls σ = Some σ' -> invariant config σ'.
Proof.
  induction ls as [|l ls IH]; intros σ σ' Hinv Hrun; simpl in Hrun.
  - inversion Hrun; subst. exact Hinv.
  - destruct (step config l σ) as [σ1|] eqn:Hstep; [|discriminate].
    eapply IH; [|exact Hrun]. eapply step_invariant; eauto.
Qed.

Lemma reachable_invariant σ : reachable config σ -> invariant config σ.
Proof.
  intros (t & σ0 & ls & Hnew & Hrun).
  eapply run_invariant; [|exact Hrun]. eapply invariant_new; eauto.
Qed.

Lemma run_app ls1 ls2 σ :
  run config (ls1 ++ ls2) σ = σ' ← run config ls1 σ; run config ls2 σ'.
Proof.
  revert σ. induction ls1 as [|l ls1 IH]; intros σ; simpl; [reflexivity|].
  destruct (step config l σ) as [σ1|]; simpl; [apply IH|reflexivity].
Qed.

Lemma reachable_run σ σ' ls :
  reachable config σ -> run config ls σ = Some σ' -> reachable config σ'.
Proof.
  intros (t & σ0 & ls0 & Hnew & Hrun0) Hrun.
  exists t, σ0, (ls0 ++ ls)%list. split; [exact Hnew|].
  rewrite run_app, Hrun0. exact Hrun.
Qed.

End Steps.

(** ** The heap only grows *)

Lemma heap_extends_refl o : heap_extends o o.
Proof. intros a ag Ha. eauto. Qed.

Lemma heap_extends_trans o1 o2 o3 :
  heap_extends o1 o2 -> heap_extends o2 o3 -> heap_extends o1 o3.
Proof.
  intros H12 H23 a ag Ha.
  destruct (H12 _ _ Ha) as (ag2 & Ha2 & Hid & Hname & Hcaps).
  destruct (H23 _ _ Ha2) as (ag3 & Ha3 & Hid' & Hname' & Hcaps').
  exists ag3. repeat split; congruence.
Qed.

Lemma heap_extends_alter f a o :
  (forall ag, a_id (f ag) = a_id ag /\ a_name (f ag) = a_name ag
              /\ a_capabilities (f ag) = a_capabilities ag) ->
  heap_extends o (with_heap (alter f a) o).
Proof.
  intros Hf a' ag Ha'. simpl. destruct (decide (a = a')) as [<-|Hne].
  - exists (f ag). rewrite list_lookup_alter_eq, Ha'. split; [reflexivity|apply Hf].
  - exists ag. rewrite list_lookup_alter_ne by exact Hne. auto.
Qed.

Lemma handle_heap_extends {X} (e : Sync X) t rnd o :
  heap_extends o (snd (handle e t rnd o)).
Proof.
  destruct e; simpl;
    try (intros a' ag Ha'; exists ag; split; [exact Ha'|auto]; fail).
  - intros a' ag Ha'. exists ag. simpl. split; [apply lookup_app_l_Some, Ha'|auto].
  - apply heap_extends_alter. intros ag. auto.
  - apply heap_extends_alter. intros ag. auto.
Qed.

Lemma advance_heap_extends {A} (p : Prog A) t rnd o :
  heap_extends o (snd (advance p t rnd o)).
Proof.
  revert o. induction p as [a|e| |X e k IH|X e k IH]; intros o; simpl;
    try apply heap_extends_refl.
  pose proof (handle_heap_extends e t rnd o) as He.
  destruct (handle e t rnd o) as [x o1]. simpl in He.
  eapply heap_extends_trans; [exact He|apply IH].
Qed.

Lemma resume_heap_extends {A} (s s' : Susp A) a idle t o o' :
  resume s a idle t o = Some (s', o') -> heap_extends o o'.
Proof.
  intros Hres. resume_cases s a Hres;
    match type of Hres with
    | advance ?p _ _ _ = _ =>
        pose proof (advance_heap_extends p t EmptyString o) as Hr;
        rewrite Hres in Hr; exact Hr
    end.
Qed.

Section Heap.
Context `{JsonRuntime}.
Variable config : AgentConfig.

Lemma step_heap_extends l σ σ' :
  invariant config σ -> step config l σ = Some σ' ->
  heap_extends (shared σ) (shared σ').
Proof.
  intros Hinv Hstep. destruct l as [ms|[i|i] a|name caps rnd|agentId task|task|tasks|].
  - cbn [step] in Hstep. inversion Hstep; subst. apply heap_extends_refl.
  - destruct (step_resume_job config _ _ _ _ Hinv Hstep) as (_ & -> & _).
    apply heap_extends_refl.
  - cbn [step] in Hstep.
    destruct (calls σ !! i) as [c|]; [|discriminate]. cbn in Hstep.
    destruct (resume_call c a _ _) as [[c' o]|] eqn:Hres; [|discriminate].
    cbn in Hstep. inversion Hstep; subst σ'; clear Hstep. simpl.
    destruct c as [task s|agentId task agent s|ready s|tasks first]; simpl in Hres;
      try discriminate;
      destruct (resume s a _ _ _) as [[s' o1]|] eqn:Hr; try discriminate;
      cbn in Hres; inversion Hres; subst; eapply resume_heap_extends; eauto.
  - cbn [step] in Hstep.
    pose proof (advance_heap_extends (createAgent name caps) (now σ) rnd (shared σ)) as He.
    destruct (advance (createAgent name caps) _ _ _) as [s o].
    inversion Hstep; subst. exact He.
  - cbn [step] in Hstep.
    pose proof (advance_heap_extends (assignTask config agentId task) (now σ)
                  EmptyString (shared σ)) as He.
    destruct (advance (assignTask config agentId task) _ _ _) as [s o].
    inversion Hstep; subst. exact He.
  - cbn [step] in Hstep.
    pose proof (advance_heap_extends (executeTask config task) (now σ)
                  EmptyString (shared σ)) as He.
    destruct (advance (executeTask config task) _ _ _) as [s o].
    inversion Hstep; subst. exact He.
  - destruct Hinv as [Hc Ho Hjobs Hpend Hq Hcalls]. cbn [step] in Hstep.
    destruct (fold_left _ tasks (jobs σ, shared σ)) as [js o] eqn:Hfold.
    inversion Hstep; subst σ'; clear Hstep.
    destruct (fold_queue_add_spec config _ _ _ _ _ _ Hjobs Hpend Hq Hfold) as (-> & _).
    apply heap_extends_refl.
  - cbn [step] in Hstep.
    pose proof (advance_heap_extends shutdown (now σ) EmptyString (shared σ)) as He.
    destruct (advance shutdown _ _ _) as [s o].
    inversion Hstep; subst. exact He.
Qed.

Lemma run_heap_extends ls : forall σ σ',
  invariant config σ -> run config ls σ = Some σ' ->
  heap_extends (shared σ) (shared σ').
Proof.
  induction ls as [|l ls IH]; intros σ σ' Hinv Hrun; simpl in Hrun.
  - inversion Hrun; subst. apply heap_extends_refl.
  - destruct (step config l σ) as [σ1|] eqn:Hstep; [|discriminate]. cbn in Hrun.
    eapply heap_extends_trans; [eapply step_heap_extends; eauto|].
    eapply IH; [|exact Hrun]. eapply step_invariant; eauto.
Qed.

End Heap.

(** ** The concurrency bound *)

Lemma bodies_le_pending js :
  Z.of_nat (length (filter (fun j => job_in_body j = true) js)) <= pendingCount js.
Proof.
  induction js as [|j js IH]; [reflexivity|].
  rewrite pendingCount_cons, filter_cons.
  destruct (decide (job_in_body j = true)) as [Hb|Hb].
  - assert (is_pending j = true) as ->.
    { destruct j as [task|task [c|X [] since k]]; simpl in *; congruence. }
    simpl length. lia.
  - destruct (is_pending j); lia.
Qed.

Section Claims.
Context `{JsonRuntime}.
Variable config : AgentConfig.

(** C5, amended: among the tasks submitted through [executeParallel], the
    bodies executing at any instant, and more generally the started jobs
    that have not settled, never outnumber [maxConcurrent].  Calls of
    [executeTask] and [assignTask] do not go through the queue and are not
    counted. *)
Theorem C5_queue_bounds_running_bodies σ :
  reachable config σ ->
  bodies_of_jobs σ <= pendingCount (jobs σ)
  /\ pendingCount (jobs σ) <= maxConcurrent config.
Proof.
  intros Hr. apply reachable_invariant in Hr. split.
  - apply bodies_le_pending.
  - apply (inv_pending _ _ Hr).
Qed.

Lemma status_step_ok a a' : agent_ok a -> agent_ok a' ->
  status_step (a_status a) (a_status a').
Proof.
  intros [_ Ha] [_ Ha']. unfold status_step.
  destruct (a_status a), (a_status a'); try congruence; auto.
Qed.

(** What a step does to the call at position [i]. *)
Lemma step_settles_assign l σ σ' i agentId task agent c :
  invariant config σ -> step config l σ = Some σ' ->
  calls σ' !! i = Some (CallAssignTask agentId task agent (Settled c)) ->
  calls σ !! i <> calls σ' !! i ->
  c <> Spun /\ released agent (shared σ').
Proof.
  intros Hinv Hstep Hi' Hchg.
  destruct l as [ms|[k|k] a|name caps rnd|agentId' task'|task'|tasks|];
    cbn [step] in Hstep.
  - inversion Hstep; subst. simpl in *. contradiction.
  - destruct (step_resume_job config _ _ _ _ Hinv Hstep) as (_ & _ & _ & Hcalls & _).
    rewrite Hcalls in Hi', Hchg. rewrite Hi' in Hchg. apply notify_assign in Hi'.
    contradiction.
  - destruct Hinv as [Hc Ho Hjobs Hpend Hq Hcalls].
    destruct (calls σ !! k) as [c0|] eqn:Hk; [|discriminate]. cbn in Hstep.
    destruct (resume_call c0 a _ _) as [[c' o]|] eqn:Hres; [|discriminate].
    cbn in Hstep. inversion Hstep; subst σ'; clear Hstep. simpl in *.
    destruct (decide (k = i)) as [->|Hne];
      [|rewrite list_lookup_insert_ne in Hchg by exact Hne; contradiction].
    rewrite list_lookup_insert_eq in Hi' by (eapply lookup_lt_Some; eauto).
    inversion Hi'; subst c'; clear Hi'.
    pose proof (Forall_lookup_1 _ _ _ _ Hcalls Hk) as Hc0.
    destruct c0 as [task0 s|agentId0 task0 agent0 s|ready s|tasks0 first]; simpl in Hres;
      try discriminate;
      destruct (resume s a _ _ _) as [[s' o1]|] eqn:Hr; try discriminate;
      cbn in Hres; inversion Hres; subst; clear Hres.
    destruct Hc0 as [Hsafe Hkeep].
    pose proof (resume_safe _ _ _ _ _ _ _ _ no_spin_monotone Hsafe Hr) as [t' Hns].
    pose proof (resume_keeps _ _ _ _ _ _ _ _ _ Hkeep Ho Hr) as [_ Hrel].
    split; [exact Hns|apply Hrel, Hns].
  - destruct (advance (createAgent name caps) _ _ _) as [s o].
    inversion Hstep; subst. simpl in *. contradiction.
  - destruct Hinv as [Hc Ho Hjobs Hpend Hq Hcalls].
    pose proof (advance_keeps _ _ _ (now σ) EmptyString _
                  (keeps_assignTask config agentId' task' (shared σ) Ho)) as Hk.
    pose proof (advance_safe _ _ (now σ) EmptyString (shared σ)
                  (safe_assignTask config agentId' task' (now σ))) as Hs.
    destruct (advance (assignTask config agentId' task') _ _ _) as [s o].
    inversion Hstep; subst σ'; clear Hstep. simpl in *.
    destruct (decide (i < length (calls σ))%nat) as [Hlt|Hge].
    + rewrite lookup_app_l in Hi' by exact Hlt.
      rewrite lookup_app_l in Hchg by exact Hlt. contradiction.
    + rewrite lookup_app_r in Hi' by lia.
      destruct (i - length (calls σ))%nat as [|n]; [|destruct n; discriminate].
      simpl in Hi'. inversion Hi'; subst. simpl in Hk, Hs.
      destruct Hs as [t' Hns]. destruct Hk as [_ Hrel].
      split; [exact Hns|apply Hrel, Hns].
  - destruct (advance (executeTask config task') _ _ _) as [s o].
    inversion Hstep; subst σ'; clear Hstep. simpl in *.
    destruct (decide (i < length (calls σ))%nat) as [Hlt|Hge].
    + rewrite lookup_app_l in Hi' by exact Hlt.
      rewrite lookup_app_l in Hchg by exact Hlt. contradiction.
    + rewrite lookup_app_r in Hi' by lia.
      destruct (i - length (calls σ))%nat as [|n]; [|destruct n; discriminate].
      discriminate.
  - destruct (fold_left _ tasks _) as [js o].
    inversion Hstep; subst σ'; clear Hstep. simpl in *.
    destruct (decide (i < length (calls σ))%nat) as [Hlt|Hge].
    + rewrite lookup_app_l in Hi', Hchg by (rewrite length_fmap; exact Hlt).
      rewrite Hi' in Hchg. apply notify_assign in Hi'. contradiction.
    + rewrite lookup_app_r in Hi' by (rewrite length_fmap; lia).
      rewrite length_fmap in Hi'.
      destruct (i - length (calls σ))%nat as [|n]; [|destruct n; discriminate].
      discriminate.
  - destruct (advance shutdown _ _ _) as [s o].
    inversion Hstep; subst σ'; clear Hstep. simpl in *.
    destruct (decide (i < length (calls σ))%nat) as [Hlt|Hge].
    + rewrite lookup_app_l in Hi' by exact Hlt.
      rewrite lookup_app_l in Hchg by exact Hlt. contradiction.
    + rewrite lookup_app_r in Hi' by lia.
      destruct (i - length (calls σ))%nat as [|n]; [|destruct n; discriminate].
      discriminate.
Qed.

(** C8: in every state the orchestrator can reach, an agent of the
    registry holds a task exactly while it is busy; a step changes a status
    from idle to busy or from busy to idle only, and the error status is
    never entered; a new agent is idle; and the step at which a call of
    [assignTask] completes, by returning or by throwing, leaves the
    assigned agent idle with no current task. *)
Theorem C8_agent_status_discipline σ :
  reachable config σ ->
  (forall id a, agents (shared σ) !! id = Some a ->
     exists ag, heap (shared σ) !! a = Some ag
       /\ (a_currentTask ag <> None <-> a_status ag = busy))
  /\ (forall l σ', step config l σ = Some σ' ->
        (forall a ag, heap (shared σ) !! a = Some ag ->
           exists ag', heap (shared σ') !! a = Some ag'
             /\ status_step (a_status ag) (a_status ag'))
        /\ (forall name capabilities rnd, l = DoCreateAgent name capabilities rnd ->
              heap (shared σ')
              = (heap (shared σ) ++ [new_agent name capabilities (now σ) rnd])%list
              /\ a_status (new_agent name capabilities (now σ) rnd) = idle)
        /\ (forall i agentId task agent c,
              calls σ' !! i = Some (CallAssignTask agentId task agent (Settled c)) ->
              calls σ !! i <> calls σ' !! i ->
              c <> Spun /\
              forall a ag, agent = Some a -> heap (shared σ') !! a = Some ag ->
                a_status ag = idle /\ a_currentTask ag = None)).
Proof.
  intros Hr. pose proof (reachable_invariant config σ Hr) as Hinv. split.
  - intros id a Ha. destruct (inv_orch _ _ Hinv) as [Hh Hreg].
    destruct (Hreg _ _ Ha) as [ag Hag]. exists ag. split; [exact Hag|].
    apply (Forall_lookup_1 _ _ _ _ Hh Hag).
  - intros l σ' Hstep.
    pose proof (step_invariant config _ _ _ Hinv Hstep) as Hinv'.
    split; [|split].
    + intros a ag Hag.
      destruct (step_heap_extends config _ _ _ Hinv Hstep _ _ Hag) as (ag' & Hag' & _).
      exists ag'. split; [exact Hag'|].
      apply status_step_ok.
      * apply (Forall_lookup_1 _ _ _ _ (proj1 (inv_orch _ _ Hinv)) Hag).
      * apply (Forall_lookup_1 _ _ _ _ (proj1 (inv_orch _ _ Hinv')) Hag').
    + intros name caps rnd ->. cbn [step] in Hstep.
      rewrite advance_createAgent in Hstep. inversion Hstep; subst.
      split; reflexivity.
    + intros i agentId task agent c Hi' Hchg.
      exact (step_settles_assign l σ σ' i agentId task agent c Hinv Hstep Hi' Hchg).
Qed.

(** C9, amended: the map [getStatus] returns is a copy of the registry, not
    of the agents.  Through a snapshot a caller never sees an agent that
    was registered later, and keeps seeing every agent the snapshot holds,
    under the id, name and capabilities it had, also after the registry was
    cleared; the status and current task it sees are those of the live
    object. *)
Theorem C9_snapshot_copies_the_map_only σ ls σ' snapshot :
  reachable config σ ->
  fst (advance getStatus (now σ) EmptyString (shared σ)) = Settled (Returned snapshot) ->
  run config ls σ = Some σ' ->
  forall id,
    (view snapshot (shared σ) id = None -> view snapshot (shared σ') id = None)
    /\ (forall ag, view snapshot (shared σ) id = Some ag ->
          exists ag', view snapshot (shared σ') id = Some ag'
            /\ a_id ag' = a_id ag /\ a_name ag' = a_name ag
            /\ a_capabilities ag' = a_capabilities ag)
    /\ (forall a, snapshot !! id = Some a ->
          view snapshot (shared σ') id = heap (shared σ') !! a).
Proof.
  intros Hr Hsnap Hrun id. simpl in Hsnap. inversion Hsnap; subst snapshot.
  pose proof (reachable_invariant config σ Hr) as Hinv.
  pose proof (run_heap_extends config ls _ _ Hinv Hrun) as Hext.
  unfold view. split; [|split].
  - destruct (agents (shared σ) !! id) as [a|] eqn:Ha; [|auto].
    change (heap (shared σ) !! a = None -> heap (shared σ') !! a = None).
    destruct (proj2 (inv_orch _ _ Hinv) _ _ Ha) as [ag Hag]. rewrite Hag. discriminate.
  - intros ag. destruct (agents (shared σ) !! id) as [a|]; [|discriminate].
    change (heap (shared σ) !! a = Some ag ->
            exists ag', heap (shared σ') !! a = Some ag'
              /\ a_id ag' = a_id ag /\ a_name ag' = a_name ag
              /\ a_capabilities ag' = a_capabilities ag).
    intros Hag. apply Hext, Hag.
  - intros a ->. reflexivity.
Qed.

End Claims.

(** ** [executeParallel] *)

Lemma exec_safe {A} W (Q : Completion A -> Z -> Prop) (p : Prog A) :
  forall s t, t <= clock s -> safe Q p t ->
    exists t', Q (fst (exec W p s)) t'.
Proof.
  induction p as [a|e| |X e k IH|X e k IH]; intros s t Hle Hp; simpl in *; eauto.
  - destruct (handle e (clock s) (random W (suspensions s)) (orch s)) as [x o] eqn:Hh.
    destruct e; simpl in Hh; inversion Hh; subst;
      try (apply (IH _ (with_orch _ s) t); [exact Hle|apply Hp]).
    apply (IH _ (with_orch _ s) (clock s)); [simpl; lia|apply Hp, Hle].
  - destruct (answer W e s) as [x s'] eqn:Ha.
    apply (IH x s' (settles_from e t)); [|apply Hp].
    destruct e; simpl in Ha; inversion Ha; subst; simpl;
      unfold settles_from, earliest, elapse, progress; lia.
Qed.

Lemma omap_Some {A} (l : list A) : omap (fun r => r) (map Some l) = l.
Proof. induction l as [|x l IH]; simpl; [reflexivity|]. f_equal. exact IH. Qed.

(** [Promise.all] over jobs of [executeTask]: once settled, it has
    fulfilled with the outcomes of the tasks, in the order of the jobs. *)
Lemma promise_all_outcomes t ps tasks :
  Forall2 (fun j task => job_task j = task /\ job_ok t j) ps tasks ->
  forall c, promise_all ps = Some c ->
    exists rs, c = Returned (map Some rs) /\ Forall2 outcome_of tasks rs.
Proof.
  induction 1 as [|j task ps tasks [Htask Hok] _ IH]; intros c Hc.
  - simpl in Hc. inversion Hc; subst. exists []. split; [reflexivity|constructor].
  - subst task. destruct j as [task|task [[r|e|]|X e since k]]; simpl in Hc.
    + destruct (promise_all ps) as [[rs'|e|]|] eqn:Hps; try discriminate.
      * destruct (IH _ eq_refl) as (rs & Heq & _). discriminate.
      * destruct (IH _ eq_refl) as (rs & Heq & _). discriminate.
    + destruct Hok as ([t' (r' & Hr' & Hout)] & _). inversion Hr'; subst r'.
      destruct (promise_all ps) as [[rs'|e|]|] eqn:Hps; try discriminate.
      * destruct (IH _ eq_refl) as (rs & Heq & Hrs). inversion Heq; subst rs'.
        inversion Hc; subst c. exists (r :: rs). split; [reflexivity|].
        constructor; assumption.
      * destruct (IH _ eq_refl) as (rs & Heq & _). discriminate.
      * destruct (IH _ eq_refl) as (rs & Heq & _). discriminate.
    + destruct Hok as ([t' (r' & Hr' & _)] & _). discriminate.
    + destruct Hok as ([t' (r' & Hr' & _)] & _). discriminate.
    + destruct (promise_all ps) as [[rs'|e'|]|] eqn:Hps; try discriminate.
      * destruct (IH _ eq_refl) as (rs & Heq & _). discriminate.
      * destruct (IH _ eq_refl) as (rs & Heq & _). discriminate.
Qed.

Lemma promise_all_settled ps :
  Forall (fun j => is_settled j = true) ps -> exists c, promise_all ps = Some c.
Proof.
  induction 1 as [|j ps Hj _ [c IH]]; [simpl; eauto|].
  destruct j as [task|task [[r|e|]|X e since k]]; try discriminate; simpl; eauto.
  rewrite IH. destruct c; eauto.
Qed.

Lemma executeParallel_outcomes σ first tasks :
  Forall (job_ok (now σ)) (jobs σ) ->
  (forall k task, tasks !! k = Some task ->
     exists j, jobs σ !! (first + k)%nat = Some j /\ job_task j = task) ->
  forall c, executeParallel σ first (length tasks) = Some c ->
    exists rs, c = Returned rs /\ Forall2 outcome_of tasks rs.
Proof.
  intros Hjobs Htasks c Hc. unfold executeParallel in Hc.
  assert (HF : Forall2 (fun j task => job_task j = task /\ job_ok (now σ) j)
                 (take (length tasks) (drop first (jobs σ))) tasks).
  { apply Forall2_same_length_lookup_2.
    - rewrite length_take, length_drop.
      destruct (decide (length tasks = 0)%nat) as [Hz|Hnz]; [rewrite Hz; reflexivity|].
      assert (Hlast : is_Some (tasks !! (length tasks - 1)%nat))
        by (apply lookup_lt_is_Some; lia).
      destruct Hlast as [task Hk]. destruct (Htasks _ _ Hk) as (j & Hj & _).
      apply lookup_lt_Some in Hj. lia.
    - intros k j task Hj Hk.
      apply lookup_take_Some in Hj as [Hj _]. rewrite lookup_drop in Hj.
      destruct (Htasks _ _ Hk) as (j' & Hj' & Ht). rewrite Hj in Hj'.
      inversion Hj'; subst j'. split; [exact Ht|].
      apply (Forall_lookup_1 _ _ _ _ Hjobs Hj). }
  destruct (promise_all _) as [c0|] eqn:Hp; [|discriminate].
  destruct (promise_all_outcomes _ _ _ HF _ Hp) as (rs & -> & Hrs).
  inversion Hc; subst. exists rs. rewrite omap_Some. auto.
Qed.

(** ** The queue runs to its end *)

Lemma first_pending_Some js : forall i k s,
  first_pending js i = Some (k, s) ->
  (i <= k)%nat
  /\ exists task, js !! (k - i)%nat = Some (Running task s)
       /\ is_pending (Running task s) = true.
Proof.
  induction js as [|j js IH]; intros i k s Hfp; simpl in Hfp; [discriminate|].
  destruct j as [task|task [c|X e since kont]].
  - apply IH in Hfp as (Hle & task' & Hk & Hp). split; [lia|]. exists task'.
    replace (k - i)%nat with (S (k - S i)) by lia. auto.
  - apply IH in Hfp as (Hle & task' & Hk & Hp). split; [lia|]. exists task'.
    replace (k - i)%nat with (S (k - S i)) by lia. auto.
  - inversion Hfp; subst. split; [lia|]. exists task. rewrite Nat.sub_diag. auto.
Qed.

Lemma first_pending_None js : forall i,
  first_pending js i = None -> Forall (fun j => is_pending j = false) js.
Proof.
  induction js as [|j js IH]; intros i Hfp; [constructor|]. simpl in Hfp.
  destruct j as [task|task [c|X e since kont]]; try discriminate;
    constructor; eauto.
Qed.

Lemma pendingCount_none js :
  Forall (fun j => is_pending j = false) js -> pendingCount js = 0.
Proof.
  induction 1 as [|j js Hj _ IH]; [reflexivity|].
  rewrite pendingCount_cons, Hj, IH. reflexivity.
Qed.

Lemma sum_list_insert_lt (bs : list nat) i b :
  bs !! i = Some (S b) -> (sum_list (<[i := b]> bs) < sum_list bs)%nat.
Proof.
  revert i. induction bs as [|x bs IH]; intros [|i] Hi; simpl in *; try discriminate.
  - inversion Hi; subst. lia.
  - specialize (IH _ Hi). lia.
Qed.

Lemma notify_false c : notify false c = c.
Proof. destruct c; simpl; rewrite ?orb_false_r; reflexivity. Qed.

Lemma notify_notify a b c : notify b (notify a c) = notify (a || b) c.
Proof. destruct c; simpl; rewrite ?orb_assoc; reflexivity. Qed.

Lemma notified_refl cs : notified cs cs.
Proof.
  apply Forall2_same_length_lookup. split; [reflexivity|].
  intros i c c' Hc Hc'. exists false. rewrite notify_false. congruence.
Qed.

Lemma notified_trans cs1 cs2 cs3 :
  notified cs1 cs2 -> notified cs2 cs3 -> notified cs1 cs3.
Proof.
  intros H12. revert cs3. induction H12 as [|c1 c2 cs1 cs2 [a ->] _ IH];
    intros cs3 H23; inversion H23 as [|? c3 ? cs3' [b ->] Hrest]; subst;
    constructor; [|apply IH, Hrest].
  exists (a || b). apply notify_notify.
Qed.

Lemma notified_fmap idle cs : notified cs (notify idle <$> cs).
Proof.
  induction cs as [|c cs IH]; constructor; [|exact IH]. exists idle. reflexivity.
Qed.

Lemma notified_executeParallel cs cs' i tasks first :
  notified cs cs' ->
  cs !! i = Some (CallExecuteParallel tasks first) ->
  cs' !! i = Some (CallExecuteParallel tasks first).
Proof.
  intros Hn Hi. destruct (Forall2_lookup_l _ _ _ _ _ Hn Hi) as (c' & Hc' & idle & ->).
  exact Hc'.
Qed.

Section Drive.
Context `{JsonRuntime}.
Variable config : AgentConfig.
Variable W : World.

Lemma jobs_have_bounds t js :
  Forall (job_ok t) js -> exists bs, Forall2 (job_bounded config) bs js.
Proof.
  induction 1 as [|j js Hj _ [bs IH]]; [exists []; constructor|].
  destruct j as [task|task s].
  - exists (S (job_bound config) :: bs). constructor; [reflexivity|exact IH].
  - destruct Hj as (_ & _ & b & Hb). exists (b :: bs). constructor; assumption.
Qed.

Lemma pump_bounded t :
  forall js bs pending o js' o',
    Forall2 (job_bounded config) bs js ->
    pump config t pending js o = (js', o') ->
    exists bs', Forall2 (job_bounded config) bs' js'
      /\ (sum_list bs' <= sum_list bs)%nat.
Proof.
  induction js as [|j rest IH]; intros bs pending o js' o' Hb Hpump.
  - simpl in Hpump. inversion Hpump; subst. exists bs. split; [exact Hb|lia].
  - inversion Hb as [|b j0 bs0 rest0 Hj Hrest]; subst.
    destruct j as [task|task s]; cbn [pump] in Hpump.
    + destruct (pending <? maxConcurrent config).
      * pose proof (advance_bounded (executeTask config task) (job_bound config) t
                      EmptyString o (bounded_executeTask config task)) as Hs.
        destruct (advance (executeTask config task) t EmptyString o) as [s o1].
        destruct (pump config t _ rest o1) as [rest' o2] eqn:Hrec.
        inversion Hpump; subst; clear Hpump.
        destruct (IH _ _ _ _ _ Hrest Hrec) as (bs' & Hbs' & Hsum).
        exists (job_bound config :: bs'). split; [constructor; assumption|].
        simpl in Hj. subst b. simpl. lia.
      * inversion Hpump; subst. exists (b :: bs0). split; [exact Hb|lia].
    + destruct (pump config t pending rest o) as [rest' o1] eqn:Hrec.
      inversion Hpump; subst; clear Hpump.
      destruct (IH _ _ _ _ _ Hrest Hrec) as (bs' & Hbs' & Hsum).
      exists (b :: bs'). split; [constructor; assumption|]. simpl. lia.
Qed.

Lemma step_resume_job_bounded σ σ' i a bs :
  Forall2 (job_bounded config) bs (jobs σ) ->
  step config (Resume (InJob i) a) σ = Some σ' ->
  exists bs', Forall2 (job_bounded config) bs' (jobs σ')
    /\ (sum_list bs' < sum_list bs)%nat.
Proof.
  intros Hb Hstep. cbn [step] in Hstep.
  destruct (jobs σ !! i) as [[task|task s]|] eqn:Hi; try discriminate.
  destruct (resume s a false (now σ) (shared σ)) as [[s' o]|] eqn:Hres;
    [|discriminate].
  cbn in Hstep.
  destruct (Forall2_lookup_r _ _ _ _ _ Hb Hi) as (b & Hbi & Hbs).
  destruct (resume_bounded _ _ _ _ _ _ _ _ Hbs Hres) as (b' & -> & Hb').
  assert (Hb1 : Forall2 (job_bounded config) (<[i := b']> bs)
                  (<[i := Running task s']> (jobs σ))).
  { apply Forall2_insert; assumption. }
  destruct (pump config (now σ) _ _ o) as [js' o'] eqn:Hpump.
  inversion Hstep; subst σ'; clear Hstep. simpl.
  destruct (pump_bounded _ _ _ _ _ _ _ Hb1 Hpump) as (bs' & Hbs' & Hsum).
  exists bs'. split; [exact Hbs'|].
  pose proof (sum_list_insert_lt _ _ _ Hbi). lia.
Qed.

Lemma step_resume_job_enabled σ i a task s x :
  jobs σ !! i = Some (Running task s) ->
  resume s a false (now σ) (shared σ) = Some x ->
  exists σ', step config (Resume (InJob i) a) σ = Some σ'
    /\ notified (calls σ) (calls σ').
Proof.
  intros Hi Hres. cbn [step]. rewrite Hi, Hres. destruct x as [s' o]. cbn.
  destruct (pump config (now σ) _ _ o) as [js' o']. eexists. split; [reflexivity|].
  apply notified_fmap.
Qed.

Lemma drive_labels_run n σ bs k s :
  Forall2 (job_bounded config) bs (jobs σ) ->
  first_pending (jobs σ) 0 = Some (k, s) ->
  exists σ' bs',
    run config (drive_labels W n σ) σ = Some σ'
    /\ Forall2 (job_bounded config) bs' (jobs σ')
    /\ (sum_list bs' < sum_list bs)%nat
    /\ notified (calls σ) (calls σ').
Proof.
  intros Hb Hfp. unfold drive_labels. rewrite Hfp.
  apply first_pending_Some in Hfp as (_ & task & Hk & Hp).
  rewrite Nat.sub_0_r in Hk.
  destruct s as [c|X e since kont]; [discriminate|].
  destruct (Forall2_lookup_r _ _ _ _ _ Hb Hk) as (b & Hbk & [He _]).
  destruct e as [ms|messages|]; [| |destruct He].
  - set (σt := {| now := now σ + Z.of_nat (Z.to_nat (due since ms - now σ));
                  shared := shared σ; jobs := jobs σ; calls := calls σ |}).
    destruct (step_resume_job_enabled σt k Fired task
                (Blocked (SetTimeout ms) since kont)
                (advance (kont tt) (now σt) EmptyString (shared σt)) Hk)
      as (σ' & Hstep & Hcalls).
    { apply resume_enabled_timer. unfold σt. simpl. lia. }
    destruct (step_resume_job_bounded σt σ' k Fired bs Hb Hstep) as (bs' & Hbs' & Hsum).
    exists σ', bs'. split; [|auto].
    change (run config [Tick (Z.to_nat (due since ms - now σ)); Resume (InJob k) Fired] σ)
      with (σ1 ← step config (Resume (InJob k) Fired) σt; Some σ1).
    rewrite Hstep. reflexivity.
  - destruct (step_resume_job_enabled σ k (Replied (ai_reply W n messages)) task
                (Blocked (AiChat messages) since kont)
                (advance (kont (ai_reply W n messages)) (now σ) EmptyString (shared σ)) Hk)
      as (σ' & Hstep & Hcalls); [reflexivity|].
    destruct (step_resume_job_bounded σ σ' k _ bs Hb Hstep) as (bs' & Hbs' & Hsum).
    exists σ', bs'. split; [|auto].
    change (run config [Resume (InJob k) (Replied (ai_reply W n messages))] σ)
      with (σ1 ← step config (Resume (InJob k) (Replied (ai_reply W n messages))) σ;
            Some σ1).
    rewrite Hstep. reflexivity.
Qed.

Lemma drive_idle fuel : forall n σ,
  first_pending (jobs σ) 0 = None -> drive config W fuel n σ = σ.
Proof.
  induction fuel as [|fuel IH]; intros n σ Hfp; [reflexivity|].
  simpl. unfold drive_labels. rewrite Hfp. simpl. apply IH, Hfp.
Qed.

(** With fuel for every await the jobs can still make, the schedule is a
    run of the event loop that ends with no job pending. *)
Lemma drive_settles fuel : forall n σ bs,
  Forall2 (job_bounded config) bs (jobs σ) ->
  (sum_list bs <= fuel)%nat ->
  exists ls,
    run config ls σ = Some (drive config W fuel n σ)
    /\ first_pending (jobs (drive config W fuel n σ)) 0 = None
    /\ notified (calls σ) (calls (drive config W fuel n σ)).
Proof.
  induction fuel as [|fuel IH]; intros n σ bs Hb Hsum.
  - destruct (first_pending (jobs σ) 0) as [[k s]|] eqn:Hfp.
    + destruct (drive_labels_run n σ bs k s Hb Hfp) as (σ' & bs' & _ & _ & Hlt & _). lia.
    + exists []. simpl. auto using notified_refl.
  - destruct (first_pending (jobs σ) 0) as [[k s]|] eqn:Hfp.
    + destruct (drive_labels_run n σ bs k s Hb Hfp) as (σ' & bs' & Hrun & Hb' & Hlt & Hcalls).
      destruct (IH (S n) σ' bs' Hb') as (ls & Hls & Hnone & Hcalls'); [lia|].
      simpl. rewrite Hrun.
      exists (drive_labels W n σ ++ ls)%list. rewrite run_app, Hrun. simpl.
      split; [exact Hls|]. split; [exact Hnone|].
      eapply notified_trans; eassumption.
    + rewrite drive_idle by exact Hfp. exists []. simpl. auto using notified_refl.
Qed.

Lemma all_settled σ :
  invariant config σ -> first_pending (jobs σ) 0 = None ->
  Forall (fun j => is_settled j = true) (jobs σ).
Proof.
  intros Hinv Hfp. pose proof (first_pending_None _ _ Hfp) as Hnp.
  pose proof (pendingCount_none _ Hnp) as Hz.
  apply Forall_forall. intros j Hj.
  destruct j as [task|task [c|X e since kont]]; [|reflexivity|].
  - pose proof (inv_queue _ _ Hinv _ Hj). pose proof (inv_concurrency _ _ Hinv). lia.
  - rewrite Forall_forall in Hnp. specialize (Hnp _ Hj). discriminate.
Qed.

End Drive.

(** ** The answer that decides a completion *)

Lemma decided_weaken {A} (Q Q' : option Answer -> Completion A -> Prop) (p : Prog A) :
  (forall last c, Q last c -> Q' last c) ->
  forall last, decided Q last p -> decided Q' last p.
Proof.
  intros HQ. induction p as [a|e| |X e k IH|X e k IH]; intros last Hp; simpl in *; auto.
Qed.

Lemma decided_bind {A B} (Q : option Answer -> Completion B -> Prop) (p : Prog A)
      (f : A -> Prog B) :
  forall last,
    decided (fun last c => match c with
                           | Returned a => decided Q last (f a)
                           | Thrown e => Q last (Thrown e)
                           | Spun => Q last Spun
                           end) last p ->
    decided Q last (bind p f).
Proof.
  induction p as [a|e| |X e k IH|X e k IH]; intros last Hp; simpl in *; auto.
Qed.

Lemma decided_try_catch {A} (Q : option Answer -> Completion A -> Prop) (p : Prog A) h :
  forall last,
    decided (fun last c => match c with
                           | Returned a => Q last (Returned a)
                           | Thrown e => decided Q last (h e)
                           | Spun => Q last Spun
                           end) last p ->
    decided Q last (try_catch p h).
Proof.
  induction p as [a|e| |X e k IH|X e k IH]; intros last Hp; simpl in *; auto.
Qed.

Lemma advance_decided {A} (Q : option Answer -> Completion A -> Prop) (p : Prog A)
      last t rnd o :
  decided Q last p ->
  match fst (advance p t rnd o) with
  | Settled c => Q last c
  | Blocked e since k => susp_decided Q (Blocked e since k)
  end.
Proof.
  revert o. induction p as [a|e| |X e k IH|X e k IH]; intros o Hp; simpl in *; auto.
  destruct (handle e t rnd o) as [x o']. apply IH, Hp.
Qed.

Lemma resume_decided {A} (Q : option Answer -> Completion A -> Prop) (s s' : Susp A)
      a idle t o o' :
  susp_decided Q s -> resume s a idle t o = Some (s', o') ->
  match s' with
  | Settled c => Q (Some a) c
  | Blocked _ _ _ => susp_decided Q s'
  end.
Proof.
  intros Hs Hres. resume_cases s a Hres; simpl in Hs;
    match type of Hres with
    | advance ?p _ _ _ = _ =>
        match goal with
        | |- context [Some ?a] =>
            pose proof (advance_decided Q p (Some a) t EmptyString o (Hs _)) as Hr;
            rewrite Hres in Hr; simpl in Hr; destruct s'; exact Hr
        end
    end.
Qed.

Lemma last_answer_nil W n : last_answer W n [] = None.
Proof. reflexivity. Qed.

Lemma last_answer_cons W n ev tr :
  last_answer W n (ev :: tr)
  = Some (default (answer_at W n ev) (last_answer W (S n) tr)).
Proof.
  unfold last_answer. destruct tr as [|ev' tr].
  - simpl. do 2 f_equal. lia.
  - rewrite last_cons_cons.
    destruct (last (ev' :: tr)) as [ev''|] eqn:Hl.
    + cbn [default length]. unfold id. do 2 f_equal. lia.
    + apply last_None in Hl. discriminate.
Qed.

(** A call run to its end is decided by the answer to its last
    suspension. *)
Lemma exec_decided {A} W (Q : option Answer -> Completion A -> Prop) (p : Prog A) :
  forall s last, decided Q last p ->
    exists tr,
      trace (snd (exec W p s)) = (trace s ++ tr)%list
      /\ Q (match last_answer W (suspensions s) tr with
            | Some a => Some a
            | None => last
            end) (fst (exec W p s)).
Proof.
  induction p as [a|e| |X e k IH|X e k IH]; intros s last Hp; simpl in *;
    try (exists []; rewrite app_nil_r; split; [reflexivity|exact Hp]).
  - destruct (handle e (clock s) (random W (suspensions s)) (orch s)) as [x o].
    apply (IH x (with_orch o s) last), Hp.
  - destruct (answer W e s) as [x s1] eqn:Ha.
    destruct (IH x s1 (Some (answer_of e x)) (Hp x)) as (tr & Htr & HQ).
    assert (exists ev, trace s1 = (trace s ++ [ev])%list
                       /\ suspensions s1 = S (suspensions s)
                       /\ answer_at W (suspensions s) ev = answer_of e x)
      as (ev & Hev & Hsus & Hans).
    { destruct e; simpl in Ha; inversion Ha; subst; simpl; eexists;
        (split; [reflexivity|]); split; reflexivity. }
    exists (ev :: tr). rewrite Htr, Hev, <- app_assoc. split; [reflexivity|].
    rewrite last_answer_cons. rewrite Hsus in HQ.
    destruct (last_answer W (S (suspensions s)) tr) as [a|]; simpl;
      [exact HQ|rewrite Hans; exact HQ].
Qed.

Section Decided.
Context `{JsonRuntime}.
Variable config : AgentConfig.

Lemma decided_every_success (Q : option Answer -> Completion bool -> Prop)
      dependencies last :
  (forall b, Q last (Returned b)) -> decided Q last (every_success dependencies).
Proof.
  intros HQ. induction dependencies as [|d rest IH]; [apply HQ|].
  cbn [every_success bind perform decided]. intros [r|]; [|apply HQ].
  destruct (status_eqb _ _); [exact IH|apply HQ].
Qed.

Lemma decided_waitLoop (Q : option Answer -> Completion unit -> Prop) dependencies
      maxWaitTime startTime :
  forall n last,
    (forall l, l = last \/ l = Some Fired ->
       Q l (Returned tt) /\ Q l (Thrown dependency_timeout) /\ Q l Spun) ->
    decided Q last (waitLoop n dependencies maxWaitTime startTime).
Proof.
  induction n as [|n IH]; intros last HQ; cbn [waitLoop bind perform decided];
    intros t; destruct (t - startTime <? maxWaitTime);
    try (apply HQ; auto).
  apply decided_bind, decided_every_success. intros []; [apply HQ; auto|].
  cbn [sleep await bind decided]. intros []. apply IH.
  intros l [->| ->]; apply HQ; auto.
Qed.

Lemma decided_retryLoop task error :
  forall n attempt last,
    attempt <= retryAttempts config ->
    decided (verdict task) last (retryLoop config n attempt task error).
Proof.
  induction n as [|n IH]; intros attempt last Hle; cbn [retryLoop];
    assert (Hb : (attempt <=? retryAttempts config) = true) by (apply Z.leb_le; lia);
    rewrite Hb; [exact I|].
  apply decided_try_catch. cbn [sleep await bind decided]. intros [].
  unfold processTask, aiProvider_chat. cbn [bind decided]. intros [e|response].
  - cbn [decided]. destruct (attempt =? retryAttempts config) eqn:Heq.
    + simpl. auto.
    + apply Z.eqb_neq in Heq. apply IH. lia.
  - simpl. auto.
Qed.

Lemma decided_executeTask task :
  decided (verdict task) None (executeTask config task).
Proof.
  unfold executeTask. cbn [bind perform decided]. intros startTime.
  assert (Hcatch : forall l e,
    match l, e with
    | Some (Replied (inl e')), _ => message e = message e'
    | Some (Replied (inr _)), _ => False
    | Some Idled, _ => False
    | _, _ => e = dependency_timeout
    end ->
    decided (verdict task) l
      (do t <- perform DateNow;
       if truthy (t_retryOnFailure task) && (retryAttempts config >? 0)
       then retryTask config task e
       else Ret (outcome_failure task e (t - startTime)))).
  { intros l e Hl. cbn [bind perform decided]. intros t.
    destruct (truthy _ && _) eqn:Hw.
    - apply decided_retryLoop. apply andb_true_iff in Hw as [_ Hn].
      apply Z.gtb_lt in Hn. lia.
    - simpl. destruct l as [[|[e'|]|]|]; try contradiction; subst; auto.
      rewrite Hl. auto. }
  assert (Hbody : forall l, l = None \/ l = Some Fired ->
    decided (fun last c => match c with
                           | Returned a => verdict task last (Returned a)
                           | Thrown e => decided (verdict task) last
                               (do t <- perform DateNow;
                                if truthy (t_retryOnFailure task)
                                   && (retryAttempts config >? 0)
                                then retryTask config task e
                                else Ret (outcome_failure task e (t - startTime)))
                           | Spun => verdict task last Spun
                           end) l
      (do result <- processTask task;
       do t <- perform DateNow;
       Ret (outcome_success task result (t - startTime)))).
  { intros l _. unfold processTask, aiProvider_chat. cbn [bind perform decided].
    intros [e|response].
    - apply (Hcatch (Some (Replied (inl e))) e). reflexivity.
    - intros t. simpl. auto. }
  apply decided_try_catch, decided_bind.
  destruct (t_dependencies task) as [dependencies|]; [|apply Hbody; auto].
  unfold waitForDependencies. cbn [bind perform decided]. intros t0.
  apply decided_waitLoop. intros l Hl. split; [apply Hbody, Hl|]. split; [|exact I].
  apply Hcatch. destruct Hl as [->| ->]; reflexivity.
Qed.

End Decided.

Section DecidedJobs.
Context `{JsonRuntime}.
Variable config : AgentConfig.

Lemma job_decided_started task t o :
  job_decided (Running task (fst (advance (executeTask config task) t EmptyString o)))
  /\ forall c, fst (advance (executeTask config task) t EmptyString o) = Settled c ->
       verdict task None c.
Proof.
  pose proof (advance_decided (verdict task) (executeTask config task) None t
                EmptyString o (decided_executeTask config task)) as Hd.
  destruct (fst (advance (executeTask config task) t EmptyString o)) as [c|X e since k].
  - split; [exact I|]. intros c' [= <-]. exact Hd.
  - split; [exact Hd|]. discriminate.
Qed.

(** The jobs the queue starts that settle at once had nothing to await. *)
Lemma pump_decided t :
  forall js pending o js' o',
    Forall job_decided js ->
    pump config t pending js o = (js', o') ->
    Forall job_decided js'
    /\ forall i task c, js' !! i = Some (Running task (Settled c)) ->
         js !! i = Some (Running task (Settled c))
         \/ (js !! i = Some (Queued task) /\ verdict task None c).
Proof.
  induction js as [|j rest IH]; intros pending o js' o' Hok Hpump.
  - simpl in Hpump. inversion Hpump; subst. split; [constructor|].
    intros i task c Hi. discriminate.
  - apply Forall_cons in Hok as [Hj Hrest].
    destruct j as [task|task s]; cbn [pump] in Hpump.
    + destruct (pending <? maxConcurrent config).
      * destruct (job_decided_started task t o) as [Hstarted Hnone].
        destruct (advance (executeTask config task) t EmptyString o) as [s o1].
        cbn [fst] in Hstarted, Hnone.
        destruct (pump config t _ rest o1) as [rest' o2] eqn:Hrec.
        inversion Hpump; subst; clear Hpump.
        destruct (IH _ _ _ _ Hrest Hrec) as [Hok' Hnew].
        split; [constructor; assumption|].
        intros [|i] task' c Hi; simpl in Hi.
        -- inversion Hi; subst. right. split; [reflexivity|]. apply Hnone. reflexivity.
        -- apply Hnew, Hi.
      * inversion Hpump; subst; clear Hpump.
        split; [constructor; assumption|]. auto.
    + destruct (pump config t pending rest o) as [rest' o1] eqn:Hrec.
      inversion Hpump; subst; clear Hpump.
      destruct (IH _ _ _ _ Hrest Hrec) as [Hok' Hnew].
      split; [constructor; assumption|].
      intros [|i] task' c Hi; simpl in Hi; [left; exact Hi|apply Hnew, Hi].
Qed.

Lemma queue_add_decided t task js o js' o' :
  Forall job_decided js ->
  queue_add config t task (js, o) = (js', o') ->
  Forall job_decided js'
  /\ forall i task' c, js' !! i = Some (Running task' (Settled c)) ->
       js !! i = Some (Running task' (Settled c)) \/ verdict task' None c.
Proof.
  intros Hok Hadd. unfold queue_add in Hadd. simpl in Hadd.
  assert (Hok1 : Forall job_decided (js ++ [Queued task]))
    by (apply Forall_app; split; [exact Hok|repeat constructor]).
  destruct (pump_decided t _ _ _ _ _ Hok1 Hadd) as [Hok' Hnew].
  split; [exact Hok'|]. intros i task' c Hi.
  destruct (Hnew _ _ _ Hi) as [Hold|[_ Hv]]; [|right; exact Hv].
  left. destruct (decide (i < length js)%nat) as [Hlt|Hge].
  - rewrite lookup_app_l in Hold by exact Hlt. exact Hold.
  - rewrite lookup_app_r in Hold by lia.
    destruct (i - length js)%nat as [|n]; [discriminate|destruct n; discriminate].
Qed.

Lemma fold_queue_add_decided t :
  forall tasks js o js' o',
    Forall job_decided js ->
    fold_left (fun qo task => queue_add config t task qo) tasks (js, o) = (js', o') ->
    Forall job_decided js'
    /\ forall i task c, js' !! i = Some (Running task (Settled c)) ->
         js !! i = Some (Running task (Settled c)) \/ verdict task None c.
Proof.
  induction tasks as [|task tasks IH]; intros js o js' o' Hok Hfold.
  - simpl in Hfold. inversion Hfold; subst. auto.
  - simpl in Hfold.
    destruct (queue_add config t task (js, o)) as [js1 o1] eqn:Hadd.
    destruct (queue_add_decided _ _ _ _ _ _ Hok Hadd) as [Hok1 Hnew1].
    destruct (IH _ _ _ _ Hok1 Hfold) as [Hok' Hnew'].
    split; [exact Hok'|]. intros i task' c Hi.
    destruct (Hnew' _ _ _ Hi) as [Hold|Hv]; [apply Hnew1, Hold|right; exact Hv].
Qed.

(** The step at which a job settles, and the answer that decides its
    outcome. *)
Lemma step_decided l σ σ' :
  Forall job_decided (jobs σ) ->
  step config l σ = Some σ' ->
  Forall job_decided (jobs σ')
  /\ forall i task c,
       jobs σ' !! i = Some (Running task (Settled c)) ->
       jobs σ !! i = Some (Running task (Settled c))
       \/ verdict task (settling_answer l i) c.
Proof.
  intros Hjobs Hstep.
  destruct l as [ms|[k|k] a|name caps rnd|agentId task|task|tasks|];
    cbn [step] in Hstep.
  - inversion Hstep; subst. simpl. auto.
  - destruct (jobs σ !! k) as [[task|task s]|] eqn:Hk; try discriminate.
    destruct (resume s a false (now σ) (shared σ)) as [[s' o]|] eqn:Hres;
      [|discriminate].
    cbn in Hstep.
    pose proof (resume_decided _ _ _ _ _ _ _ _ (Forall_lookup_1 _ _ _ _ Hjobs Hk) Hres)
      as Hs'.
    set (js := <[k := Running task s']> (jobs σ)) in *.
    assert (Hjs : Forall job_decided js).
    { apply Forall_insert; [exact Hjobs|]. simpl. destruct s'; [exact I|exact Hs']. }
    destruct (pump config (now σ) (pendingCount js) js o) as [js' o'] eqn:Hpump.
    inversion Hstep; subst σ'; clear Hstep. cbn [jobs].
    destruct (pump_decided _ _ _ _ _ _ Hjs Hpump) as [Hok' Hnew].
    split; [exact Hok'|]. intros i task' c Hi. cbn [settling_answer].
    destruct (Hnew _ _ _ Hi) as [Hold|[Hq Hv]].
    + unfold js in Hold. destruct (decide (k = i)) as [->|Hne].
      * rewrite list_lookup_insert_eq in Hold by (eapply lookup_lt_Some; eauto).
        inversion Hold; subst. rewrite Nat.eqb_refl. right. exact Hs'.
      * rewrite list_lookup_insert_ne in Hold by exact Hne. left. exact Hold.
    + destruct (k =? i)%nat eqn:Hki; [|right; exact Hv].
      apply Nat.eqb_eq in Hki. subst k.
      unfold js in Hq.
      rewrite list_lookup_insert_eq in Hq by (eapply lookup_lt_Some; eauto).
      discriminate.
  - destruct (calls σ !! k) as [c0|]; [|discriminate]. cbn in Hstep.
    destruct (resume_call c0 a _ _) as [[c' o]|]; [|discriminate].
    cbn in Hstep. inversion Hstep; subst. simpl. auto.
  - destruct (advance (createAgent name caps) _ _ _) as [s o].
    inversion Hstep; subst. simpl. auto.
  - destruct (advance (assignTask config agentId task) _ _ _) as [s o].
    inversion Hstep; subst. simpl. auto.
  - destruct (advance (executeTask config task) _ _ _) as [s o].
    inversion Hstep; subst. simpl. auto.
  - destruct (fold_left _ tasks _) as [js o] eqn:Hfold.
    inversion Hstep; subst σ'; clear Hstep. cbn [jobs settling_answer].
    apply (fold_queue_add_decided _ _ _ _ _ _ Hjobs Hfold).
  - destruct (advance shutdown _ _ _) as [s o].
    inversion Hstep; subst. simpl. auto.
Qed.

Lemma run_decided ls : forall σ σ',
  Forall job_decided (jobs σ) -> run config ls σ = Some σ' ->
  Forall job_decided (jobs σ').
Proof.
  induction ls as [|l ls IH]; intros σ σ' Hjobs Hrun; simpl in Hrun.
  - inversion Hrun; subst. exact Hjobs.
  - destruct (step config l σ) as [σ1|] eqn:Hstep; [|discriminate].
    eapply IH; [|exact Hrun]. eapply step_decided; eauto.
Qed.

Lemma reachable_decided σ : reachable config σ -> Forall job_decided (jobs σ).
Proof.
  intros (t & σ0 & ls & Hnew & Hrun). eapply run_decided; [|exact Hrun].
  unfold AgentOrchestrator_new in Hnew.
  destruct (1 <=? maxConcurrent config); [|discriminate].
  inversion Hnew; subst. constructor.
Qed.

End DecidedJobs.

Lemma outcomes_in_order tasks rs :
  Forall2 outcome_of tasks rs ->
  length rs = length tasks /\ map r_taskId rs = map t_id tasks.
Proof.
  induction 1 as [|task r tasks rs [Hid _] _ [IHl IHm]]; [auto|].
  simpl. split; congruence.
Qed.

Section Parallel.
Context `{JsonRuntime}.
Variable config : AgentConfig.

Lemma executeTask_returns_outcome W s task :
  exists r s',
    exec W (executeTask config task) s = (Returned r, s') /\ outcome_of task r.
Proof.
  destruct (exec_safe W (returns_outcome task) (executeTask config task) s (clock s))
    as (t' & r & Hr & Hout); [lia|apply safe_executeTask|].
  destruct (exec W (executeTask config task) s) as [c s']. simpl in Hr. subst c.
  eauto.
Qed.

Lemma executeParallel_call_outcomes σ i tasks first c :
  invariant config σ ->
  calls σ !! i = Some (CallExecuteParallel tasks first) ->
  executeParallel σ first (length tasks) = Some c ->
  exists rs, c = Returned rs /\ Forall2 outcome_of tasks rs.
Proof.
  intros Hinv Hi Hc.
  pose proof (Forall_lookup_1 _ _ _ _ (inv_calls _ _ Hinv) Hi) as Hcall.
  eapply executeParallel_outcomes; eauto. apply (inv_jobs _ _ Hinv).
Qed.


End Parallel.


(** *** Instances of the statements about the event loop *)

Lemma reachable_sys_after config ls :
  runs config ls = true -> reachable config (sys_after config ls).
Proof.
  unfold runs, sys_after.
  destruct (AgentOrchestrator_new config 0) as [σ0|] eqn:Hnew; [|discriminate].
  simpl. destruct (run config ls σ0) as [σ|] eqn:Hrun; [|discriminate].
  intros _. exists 0, σ0, ls. auto.
Qed.

Lemma run_sys_after config ls1 ls2 :
  runs config (ls1 ++ ls2) = true ->
  run config ls2 (sys_after config ls1) = Some (sys_after config (ls1 ++ ls2)).
Proof.
  unfold runs, sys_after.
  destruct (AgentOrchestrator_new config 0) as [σ0|] eqn:Hnew; [|discriminate].
  simpl. rewrite run_app.
  destruct (run config ls1 σ0) as [σ1|] eqn:Hrun1; [|discriminate].
  simpl. destruct (run config ls2 σ1) as [σ2|]; [reflexivity|discriminate].
Qed.

Lemma C5_counterexample :
  let σ := sys_after config_one [DoExecuteTask task_t1; DoExecuteTask task_t1] in
  reachable config_one σ
  /\ maxConcurrent config_one = 1
  /\ bodies_of_jobs σ + bodies_of_calls σ = 2.
Proof.
  split; [|split; vm_compute; reflexivity].
  apply reachable_sys_after. vm_compute. reflexivity.
Qed.

Lemma C5_witness :
  let σ := sys_after config_one [DoExecuteParallel [task_t1; task_t1; task_t2]] in
  bodies_of_jobs σ <= pendingCount (jobs σ)
  /\ pendingCount (jobs σ) <= maxConcurrent config_one.
Proof.
  apply (C5_queue_bounds_running_bodies config_one).
  apply reachable_sys_after. vm_compute. reflexivity.
Defined.

Lemma C8_witness :
  let σ := sys_after config_default assign_run in
  reachable config_default σ
  /\ forall id a, agents (shared σ) !! id = Some a ->
       exists ag, heap (shared σ) !! a = Some ag
         /\ (a_currentTask ag <> None <-> a_status ag = busy).
Proof.
  assert (Hr : reachable config_default (sys_after config_default assign_run))
    by (apply reachable_sys_after; vm_compute; reflexivity).
  split; [exact Hr|].
  exact (proj1 (C8_agent_status_discipline config_default _ Hr)).
Defined.

(** C9 as stated fails: a snapshot taken before [assignTask] shows the
    agent busy, with its task, as soon as the task is assigned. *)
Lemma C9_counterexample :
  let created := [DoCreateAgent "Reviewer" ["review"] "k3j9x0q1z"] in
  let assigned := [DoAssignTask reviewer_id task_t1] in
  let σ := sys_after config_default created in
  let σ' := sys_after config_default (created ++ assigned) in
  let snapshot := agents (shared σ) in
  fst (advance getStatus (now σ) EmptyString (shared σ)) = Settled (Returned snapshot)
  /\ run config_default assigned σ = Some σ'
  /\ a_status <$> view snapshot (shared σ) reviewer_id = Some idle
  /\ a_status <$> view snapshot (shared σ') reviewer_id = Some busy
  /\ a_currentTask <$> view snapshot (shared σ') reviewer_id = Some (Some task_t1).
Proof.
  split; [reflexivity|]. split; [apply run_sys_after; vm_compute; reflexivity|].
  repeat split; vm_compute; reflexivity.
Qed.

Lemma C9_witness :
  let created := [DoCreateAgent "Reviewer" ["review"] "k3j9x0q1z"] in
  let assigned := [DoAssignTask reviewer_id task_t1] in
  let σ := sys_after config_default created in
  let σ' := sys_after config_default (created ++ assigned) in
  (view (agents (shared σ)) (shared σ) reviewer_id = None ->
   view (agents (shared σ)) (shared σ') reviewer_id = None)
  /\ (forall ag, view (agents (shared σ)) (shared σ) reviewer_id = Some ag ->
        exists ag', view (agents (shared σ)) (shared σ') reviewer_id = Some ag'
          /\ a_id ag' = a_id ag /\ a_name ag' = a_name ag
          /\ a_capabilities ag' = a_capabilities ag)
  /\ (forall a, agents (shared σ) !! reviewer_id = Some a ->
        view (agents (shared σ)) (shared σ') reviewer_id = heap (shared σ') !! a).
Proof.
  apply (C9_snapshot_copies_the_map_only config_default
           (sys_after config_default [DoCreateAgent "Reviewer" ["review"] "k3j9x0q1z"])
           [DoAssignTask reviewer_id task_t1]).
  - apply reachable_sys_after. vm_compute. reflexivity.
  - reflexivity.
  - apply run_sys_after. vm_compute. reflexivity.
Defined.

(** C1 at its failing input.  [executeTask] returns the outcome of [t1]
    and the result store still has nothing for [t1]; so, in the batch, the
    wait of [t2] on [t1] runs into the timeout and [t2] ends as a failure. *)
Theorem C1_executeTask_does_not_record_its_outcome :
  let r := exec (world_of (reply_content "{}")) (executeTask config_default task_t1)
                (start 0 empty_orch) in
  let σ := sys_after config_default batch_run in
  fst r = Returned (outcome_success task_t1 (JObject []) 0)
  /\ fst (exec (world_of (reply_content "{}")) (getTaskResult "t1") (snd r))
     = Returned None
  /\ reachable config_default σ
  /\ executeParallel σ 0 2
     = Some (Returned [outcome_success task_t1 (JObject []) 0;
                       outcome_failure task_t2 dependency_timeout 300])
  /\ fst (advance (getTaskResult "t1") (now σ) EmptyString (shared σ))
     = Settled (Returned None).
Proof.
  split; [vm_compute; reflexivity|]. split; [vm_compute; reflexivity|].
  split; [apply reachable_sys_after; vm_compute; reflexivity|].
  split; vm_compute; reflexivity.
Qed.


(** A call the provider rejects, with no retry asked for: the outcome is a
    failure with the message of the rejection. *)
Lemma executeTask_reports_the_rejection :
  let W := world_of (reply_error "boom") in
  let r := exec W (executeTask config_default task_t1) (start 0 empty_orch) in
  last_answer W 0 (trace (snd r)) = Some (Replied (reply_error "boom"))
  /\ exists d, fst r = Returned (outcome_failure task_t1 {| message := "boom" |} d).
Proof. vm_compute. eauto. Qed.

(** ** Further properties of the orchestrator and of its callers *)

Lemma slept_app tr1 tr2 : slept (tr1 ++ tr2) = slept tr1 + slept tr2.
Proof.
  induction tr1 as [|ev tr1 IH]; simpl; [reflexivity|].
  destruct ev; rewrite ?IH; lia.
Qed.

Section X_Sequential.
Context `{JsonRuntime}.
Variable config : AgentConfig.
Variable W : World.

Lemma exec_every_success dependencies s :
  exists b, exec W (every_success dependencies) s = (Returned b, s)
    /\ (b = true <-> Forall (fun d => satisfied d (orch s)) dependencies).
Proof.
  induction dependencies as [|d rest (b & Hex & Hb)].
  - exists true. split; [reflexivity|]. split; auto.
  - simpl. rewrite with_orch_id.
    destruct (taskResults (orch s) !! d) as [r|] eqn:Hd.
    + destruct (status_eqb (r_status r) success) eqn:Hs.
      * exists b. split; [exact Hex|]. rewrite Hb. apply status_eqb_eq in Hs.
        split; [intros Hrest; constructor; [exists r; auto|exact Hrest]|].
        intros Hall. apply Forall_cons in Hall. tauto.
      * exists false. split; [reflexivity|]. split; [discriminate|].
        intros Hall. apply Forall_cons in Hall as [[r' [Hr' Hst]] _].
        rewrite Hd in Hr'. inversion Hr'; subst r'. rewrite Hst in Hs. discriminate.
    + exists false. split; [reflexivity|]. split; [discriminate|].
      intros Hall. apply Forall_cons in Hall as [[r' [Hr' _]] _]. congruence.
Qed.

Lemma exec_waitLoop dependencies maxWaitTime startTime :
  forall n s,
    maxWaitTime - (clock s - startTime) <= Z.of_nat n ->
    exists s' k,
      trace s' = (trace s ++ polls k)%list
      /\ clock s <= clock s'
      /\ ((exec W (waitLoop n dependencies maxWaitTime startTime) s = (Returned tt, s')
           /\ Forall (fun d => satisfied d (orch s')) dependencies
           /\ clock s' - startTime < maxWaitTime)
          \/ (exec W (waitLoop n dependencies maxWaitTime startTime) s
                = (Thrown dependency_timeout, s')
              /\ maxWaitTime <= clock s' - startTime)).
Proof.
  induction n as [|n IH]; intros s Hfuel.
  - exists s, 0%nat. simpl. rewrite with_orch_id, app_nil_r.
    assert (Hge : (clock s - startTime <? maxWaitTime) = false)
      by (apply Z.ltb_ge; lia).
    rewrite Hge. split; [reflexivity|]. split; [lia|]. right.
    split; [reflexivity|]. lia.
  - simpl. rewrite with_orch_id.
    destruct (clock s - startTime <? maxWaitTime) eqn:Hlt.
    + rewrite exec_bind. destruct (exec_every_success dependencies s) as (b & -> & Hb).
      destruct b.
      * exists s, 0%nat. rewrite app_nil_r. split; [reflexivity|]. split; [lia|]. left.
        split; [reflexivity|]. split; [apply Hb; reflexivity|]. apply Z.ltb_lt, Hlt.
      * simpl. set (s1 := suspend W (EvSleep checkInterval) checkInterval s).
        pose proof (suspend_poll W s) as Hpoll. fold s1 in Hpoll.
        destruct (IH s1) as (s' & k & Htr & Hclk & Hres); [lia|].
        exists s', (S k). split; [|split].
        -- rewrite Htr. unfold s1; simpl. rewrite <- app_assoc. reflexivity.
        -- lia.
        -- exact Hres.
    + exists s, 0%nat. rewrite app_nil_r. split; [reflexivity|]. split; [lia|]. right.
      split; [reflexivity|]. apply Z.ltb_ge in Hlt. lia.
Qed.

Lemma exec_waitForDependencies dependencies s :
  exists s' k,
    trace s' = (trace s ++ polls k)%list
    /\ clock s <= clock s'
    /\ ((exec W (waitForDependencies config dependencies) s = (Returned tt, s')
         /\ Forall (fun d => satisfied d (orch s')) dependencies
         /\ clock s' - clock s < timeout config)
        \/ (exec W (waitForDependencies config dependencies) s
              = (Thrown dependency_timeout, s')
            /\ timeout config <= clock s' - clock s)).
Proof.
  unfold waitForDependencies. cbn [exec perform handle bind]. rewrite with_orch_id.
  apply exec_waitLoop. pose proof (poll_bound_covers (timeout config)). lia.
Qed.

(** X1: [waitForDependencies] always ends, in one of two ways and after
    nothing but polls.  Either it returns, and then every prerequisite has
    a [success] outcome in the store at that moment and less than
    [timeout] has elapsed on the clock; or it throws the dependency-timeout
    error, [timeout] or more having elapsed.  (How many polls that takes
    is up to the timers: see [early_timers_poll_once_more].) *)
Theorem waitForDependencies_returns_or_times_out dependencies s :
  exists s' k,
    trace s' = (trace s ++ polls k)%list
    /\ ((exec W (waitForDependencies config dependencies) s = (Returned tt, s')
         /\ Forall (fun d => satisfied d (orch s')) dependencies
         /\ clock s' - clock s < timeout config)
        \/ (exec W (waitForDependencies config dependencies) s
              = (Thrown dependency_timeout, s')
            /\ timeout config <= clock s' - clock s)).
Proof.
  destruct (exec_waitForDependencies dependencies s) as (s' & k & Htr & _ & Hres).
  exists s', k. auto.
Qed.

End X_Sequential.
Section X_Assign.
Context `{JsonRuntime}.
Variable config : AgentConfig.
Variable W : World.

Lemma exec_assignTask agentId a task s :
  agents (orch s) !! agentId = Some a ->
  exec W (assignTask config agentId task) s =
  match exec W (executeTask config task) (with_orch (engage a task (orch s)) s) with
  | (Returned r, s2) =>
      (Returned tt,
       with_orch (release a (with_taskResults (insert (t_id task) r) (orch s2))) s2)
  | (Thrown e, s2) => (Thrown e, with_orch (release a (orch s2)) s2)
  | (Spun, s2) => (Spun, s2)
  end.
Proof.
  intros Ha. unfold assignTask. cbn [exec perform handle bind]. rewrite Ha.
  cbn [exec perform handle bind]. rewrite exec_try_finally, exec_bind.
  change (with_orch _ (with_orch _ (with_orch (orch s) s)))
    with (with_orch (engage a task (orch s)) s).
  destruct (exec W (executeTask config task) _) as [[r|e|] s2]; reflexivity.
Qed.

(** X2: for an agent of the registry, [assignTask] returns normally: it
    runs [executeTask] with the agent engaged, writes the outcome returned
    to the result store under the id of the task, replacing what was
    there, and releases the agent; [getTaskResult] then gives that
    outcome. *)
Theorem assignTask_records_the_outcome agentId a task s :
  agents (orch s) !! agentId = Some a ->
  exists r s2 s',
    exec W (executeTask config task) (with_orch (engage a task (orch s)) s)
      = (Returned r, s2)
    /\ outcome_of task r
    /\ exec W (assignTask config agentId task) s = (Returned tt, s')
    /\ orch s' = release a (with_taskResults (insert (t_id task) r) (orch s2))
    /\ exec W (getTaskResult (t_id task)) s' = (Returned (Some r), s')
    /\ trace s' = trace s2.
Proof.
  intros Ha.
  destruct (executeTask_returns_outcome config W
              (with_orch (engage a task (orch s)) s) task) as (r & s2 & Hex & Hout).
  exists r, s2. eexists. split; [exact Hex|]. split; [exact Hout|].
  rewrite (exec_assignTask _ _ _ _ Ha), Hex. split; [reflexivity|].
  split; [reflexivity|]. split; [|reflexivity].
  unfold getTaskResult. cbn [exec perform handle orch with_orch release with_heap
    with_taskResults taskResults]. rewrite lookup_insert_eq. reflexivity.
Qed.

(** X3: with an id the registry does not hold, [assignTask] throws
    [Agent <id> not found] at once: nothing is awaited, the body is not
    called and the state is left as it was. *)
Theorem assignTask_rejects_an_unknown_agent agentId task s :
  agents (orch s) !! agentId = None ->
  exec W (assignTask config agentId task) s = (Thrown (agent_not_found agentId), s).
Proof.
  intros Ha. unfold assignTask. cbn [exec perform handle bind]. rewrite Ha.
  rewrite with_orch_id. reflexivity.
Qed.

(** X4: a success recorded by [assignTask] satisfies the tasks that depend
    on it.  When the provider answers the body of [t1], the store holds a
    [success] for [t1] once [assignTask] has returned, and a task whose
    only prerequisite is [t1] passes the dependency gate without a poll. *)
Theorem assigned_success_opens_the_gate W' agentId a t1 t2 s response :
  agents (orch s) !! agentId = Some a ->
  t_dependencies t1 = None ->
  ai_reply W (suspensions s) (prompt t1) = inr response ->
  t_dependencies t2 = Some [t_id t1] ->
  0 < timeout config ->
  exists s',
    exec W (assignTask config agentId t1) s = (Returned tt, s')
    /\ satisfied (t_id t1) (orch s')
    /\ exec W' (dependency_gate config t2) s' = (Returned tt, s').
Proof.
  intros Ha Hd1 Hreply Hd2 Hpos.
  rewrite (exec_assignTask _ _ _ _ Ha), exec_executeTask.
  unfold dependency_gate at 1. rewrite Hd1. cbn [exec suspensions with_orch].
  rewrite Hreply. cbn zeta. eexists. split; [reflexivity|].
  match goal with |- satisfied _ ?o /\ _ => assert (Hsat : satisfied (t_id t1) o) end.
  { eexists. cbn [orch with_orch release with_heap with_taskResults taskResults].
    rewrite lookup_insert_eq. split; reflexivity. }
  split; [exact Hsat|]. unfold dependency_gate. rewrite Hd2.
  apply exec_waitForDependencies_satisfied; [exact Hpos|].
  constructor; [exact Hsat|constructor].
Qed.

End X_Assign.
Lemma body_invocations_chat messages tr :
  body_invocations (EvChat messages :: tr) = S (body_invocations tr).
Proof. unfold body_invocations. rewrite filter_cons_True by reflexivity. reflexivity. Qed.

Lemma body_invocations_sleep ms tr :
  body_invocations (EvSleep ms :: tr) = body_invocations tr.
Proof.
  unfold body_invocations. rewrite filter_cons_False by (simpl; discriminate).
  reflexivity.
Qed.

Section X_Retry.
Context `{JsonRuntime}.
Variable config : AgentConfig.
Variable W : World.

Lemma slept_retry_events task n : forall attempt,
  0 <= attempt ->
  slept (retry_events task attempt n)
  = 1000 * (Z.of_nat n * attempt) + 500 * (Z.of_nat n * (Z.of_nat n - 1)).
Proof.
  induction n as [|n IH]; intros attempt Hpos; [simpl; lia|].
  cbn [retry_events slept foldr]. fold (slept (retry_events task (attempt + 1) n)).
  rewrite IH by lia. lia.
Qed.

Lemma body_invocations_retry_events task n : forall attempt,
  body_invocations (retry_events task attempt n) = n.
Proof.
  induction n as [|n IH]; intros attempt; [reflexivity|].
  cbn [retry_events]. rewrite body_invocations_sleep, body_invocations_chat, IH.
  reflexivity.
Qed.

Lemma will_retry_true task :
  will_retry config task = true
  <-> t_retryOnFailure task = Some true /\ 0 < retryAttempts config.
Proof.
  unfold will_retry. rewrite andb_true_iff, Z.gtb_lt.
  destruct (t_retryOnFailure task) as [[]|]; simpl; split; intros []; split;
    try done; try lia.
Qed.

(** The retries up to the first whose body returns. *)
Lemma exec_retryLoop_first_success task error response :
  forall j n attempt s,
    (j < n)%nat ->
    Z.of_nat n = retryAttempts config - attempt + 1 ->
    (forall i, (i < j)%nat ->
       failed (ai_reply W (suspensions s + 2 * i + 1)%nat (prompt task))) ->
    ai_reply W (suspensions s + 2 * j + 1)%nat (prompt task) = inr response ->
    exists s',
      exec W (retryLoop config n attempt task error) s
        = (Returned (outcome_success task
                       (parseTaskResult (t_type task) (resp_content response)) 0), s')
      /\ trace s' = (trace s ++ retry_events task attempt (S j))%list.
Proof.
  induction j as [|j IH]; intros n attempt s Hj Hn Hfail Hok;
    (destruct n as [|n]; [lia|]); cbn [retryLoop];
    assert (Hle : (attempt <=? retryAttempts config) = true) by (apply Z.leb_le; lia);
    rewrite Hle, exec_try_catch; cbn [exec bind sleep await answer];
    rewrite exec_bind, exec_processTask; cbn zeta;
    set (s1 := suspend W (EvSleep (1000 * attempt)) (1000 * attempt) s).
  - replace (suspensions s + 2 * 0 + 1)%nat with (suspensions s1) in Hok
      by (unfold s1; simpl; lia).
    rewrite Hok. eexists. split; [reflexivity|].
    unfold s1; simpl. rewrite <- app_assoc. reflexivity.
  - pose proof (Hfail 0%nat ltac:(lia)) as Hf.
    replace (suspensions s + 2 * 0 + 1)%nat with (suspensions s1) in Hf
      by (unfold s1; simpl; lia).
    destruct (ai_reply W (suspensions s1) (prompt task)) as [e0|]; [|done].
    assert (Heq : (attempt =? retryAttempts config) = false) by (apply Z.eqb_neq; lia).
    rewrite Heq.
    destruct (IH n (attempt + 1) (suspend W (EvChat (prompt task)) 0 s1))
      as (s' & Hex & Htr); [lia|lia| | |].
    + intros i Hi. pose proof (Hfail (S i) ltac:(lia)) as Hfi.
      replace (suspensions (suspend W (EvChat (prompt task)) 0 s1) + 2 * i + 1)%nat
        with (suspensions s + 2 * S i + 1)%nat by (unfold s1; simpl; lia).
      exact Hfi.
    + replace (suspensions (suspend W (EvChat (prompt task)) 0 s1) + 2 * j + 1)%nat
        with (suspensions s + 2 * S j + 1)%nat by (unfold s1; simpl; lia).
      exact Hok.
    + exists s'. split; [exact Hex|]. rewrite Htr. unfold s1; simpl.
      rewrite <- !app_assoc. reflexivity.
Qed.

(** X5: when the body throws and the task did not ask for retries, or
    [retryAttempts] is not positive, [executeTask] does not throw: it
    returns a failure outcome with the message of the error and the time
    elapsed since the call, the body having been called once. *)
Theorem failure_without_retry_is_final task s s1 e :
  t_retryOnFailure task <> Some true \/ retryAttempts config <= 0 ->
  exec W (dependency_gate config task) s = (Returned tt, s1) ->
  ai_reply W (suspensions s1) (prompt task) = inl e ->
  exists s',
    exec W (executeTask config task) s
      = (Returned (outcome_failure task e (clock s' - clock s)), s')
    /\ trace s' = (trace s1 ++ [EvChat (prompt task)])%list
    /\ orch s' = interfere W (suspensions s1) (orch s1).
Proof.
  intros Hno Hgate Hreply.
  assert (Hw : will_retry config task = false).
  { destruct (will_retry config task) eqn:Hw; [|reflexivity].
    apply will_retry_true in Hw as [Hr Hn]. destruct Hno; [congruence|lia]. }
  rewrite exec_executeTask, Hgate, Hreply. unfold exec_catch. rewrite Hw.
  eexists. split; [reflexivity|]. split; reflexivity.
Qed.

(** X6: the retries stop at the first attempt whose body returns.  If the
    first call and the retries before the [j]-th fail and the [j]-th
    succeeds, the body is called [j + 1] times, after back-off sleeps of
    1000, 2000, ..., 1000 * j ms, and the outcome is a success with the
    parsed reply of the last call. *)
Theorem retry_stops_at_the_first_success task s s1 j response :
  t_retryOnFailure task = Some true ->
  exec W (dependency_gate config task) s = (Returned tt, s1) ->
  (0 < j)%nat -> Z.of_nat j <= retryAttempts config ->
  (forall i, (i < j)%nat ->
     failed (ai_reply W (suspensions s1 + 2 * i)%nat (prompt task))) ->
  ai_reply W (suspensions s1 + 2 * j)%nat (prompt task) = inr response ->
  exists s' tr,
    exec W (executeTask config task) s
      = (Returned (outcome_success task
                     (parseTaskResult (t_type task) (resp_content response)) 0), s')
    /\ trace s' = (trace s1 ++ tr)%list
    /\ tr = EvChat (prompt task) :: retry_events task 1 j
    /\ body_invocations tr = S j.
Proof.
  intros Hretry Hgate Hj Hle Hfail Hok.
  rewrite exec_executeTask, Hgate.
  pose proof (Hfail 0%nat Hj) as Hf. rewrite Nat.mul_0_r, Nat.add_0_r in Hf.
  destruct (ai_reply W (suspensions s1) (prompt task)) as [e0|]; [|done].
  assert (Hw : will_retry config task = true) by (apply will_retry_true; split; [done|lia]).
  unfold exec_catch, retryTask. rewrite Hw.
  destruct j as [|j]; [lia|].
  destruct (exec_retryLoop_first_success task e0 response j
              (Z.to_nat (retryAttempts config)) 1
              (suspend W (EvChat (prompt task)) 0 s1)) as (s' & Hex & Htr).
  - lia.
  - lia.
  - intros i Hi. pose proof (Hfail (S i) ltac:(lia)) as Hfi.
    replace (suspensions (suspend W (EvChat (prompt task)) 0 s1) + 2 * i + 1)%nat
      with (suspensions s1 + 2 * S i)%nat by (simpl; lia).
    exact Hfi.
  - replace (suspensions (suspend W (EvChat (prompt task)) 0 s1) + 2 * j + 1)%nat
      with (suspensions s1 + 2 * S j)%nat by (simpl; lia).
    exact Hok.
  - exists s', (EvChat (prompt task) :: retry_events task 1 (S j)).
    split; [exact Hex|]. split; [|split; [reflexivity|]].
    + rewrite Htr. cbn [trace suspend]. rewrite <- app_assoc. reflexivity.
    + rewrite body_invocations_chat, body_invocations_retry_events. reflexivity.
Qed.

(** X7: under a positive [retryAttempts], a task that asked for retries and
    whose body throws each time has its body called [1 + retryAttempts]
    times and ends as a failure; the back-off sleeps it asks for add up to
    1000 * (1 + ... + retryAttempts) ms. *)
Theorem failing_body_runs_once_per_attempt task s s1 :
  t_retryOnFailure task = Some true ->
  0 < retryAttempts config ->
  exec W (dependency_gate config task) s = (Returned tt, s1) ->
  (forall n, failed (ai_reply W n (prompt task))) ->
  exists e s' tr,
    exec W (executeTask config task) s = (Returned (outcome_failure task e 0), s')
    /\ trace s' = (trace s1 ++ tr)%list
    /\ tr = EvChat (prompt task)
              :: retry_events task 1 (Z.to_nat (retryAttempts config))
    /\ Z.of_nat (body_invocations tr) = 1 + retryAttempts config
    /\ slept tr = 500 * (retryAttempts config * (retryAttempts config + 1)).
Proof.
  intros Hretry Hn Hgate Hfail.
  rewrite exec_executeTask, Hgate.
  pose proof (Hfail (suspensions s1)) as Hf.
  destruct (ai_reply W (suspensions s1) (prompt task)) as [e0|] eqn:He0; [|done].
  assert (Hw : will_retry config task = true) by (apply will_retry_true; auto).
  unfold exec_catch, retryTask. rewrite Hw.
  destruct (Z.to_nat (retryAttempts config)) as [|n] eqn:Hnat; [lia|].
  set (s2 := suspend W (EvChat (prompt task)) 0 s1).
  destruct (exec_retryLoop_all_fail config W task e0 Hfail n 1 s2)
    as (e & s' & Hex & _ & _ & Htr); [lia|].
  exists e, s', (EvChat (prompt task) :: retry_events task 1 (S n)).
  split; [exact Hex|]. split; [|split; [reflexivity|split]].
  - rewrite Htr. unfold s2. cbn [trace suspend]. rewrite <- app_assoc. reflexivity.
  - rewrite body_invocations_chat, body_invocations_retry_events. lia.
  - cbn [slept foldr]. fold (slept (retry_events task 1 (S n))).
    rewrite slept_retry_events by lia.
    assert (Z.of_nat (S n) = retryAttempts config) by lia. nia.
Qed.

End X_Retry.
Section X_Duration.
Context `{JsonRuntime}.
Variable config : AgentConfig.
Variable W : World.

Lemma exec_retryLoop_duration task error :
  forall n attempt s,
    n = Z.to_nat (retryAttempts config - attempt + 1) ->
    exists r s',
      exec W (retryLoop config n attempt task error) s = (Returned r, s')
      /\ outcome_of task r
      /\ r_metrics r = Some {| duration := 0; tokensUsed := None; filesModified := None |}
      /\ (attempt <= retryAttempts config ->
          clock s + progress (1000 * attempt) <= clock s').
Proof.
  induction n as [|n IH]; intros attempt s Hn; cbn [retryLoop];
    destruct (attempt <=? retryAttempts config) eqn:Hle;
    try (eexists _, _; split; [reflexivity|]; split; [apply outcome_of_failure|];
         split; [reflexivity|]; apply Z.leb_gt in Hle; lia).
  - apply Z.leb_le in Hle. lia.
  - apply Z.leb_le in Hle.
    rewrite exec_try_catch. cbn [exec bind sleep await answer].
    rewrite exec_bind, exec_processTask. cbn zeta.
    set (s1 := suspend W (EvSleep (1000 * attempt)) (1000 * attempt) s).
    assert (Hs1 : clock s + progress (1000 * attempt) <= clock s1)
      by apply suspend_clock.
    set (s2 := suspend W (EvChat (prompt task)) 0 s1).
    assert (Hs2 : clock s1 <= clock s2).
    { pose proof (suspend_clock W (EvChat (prompt task)) 0 s1) as Hc. fold s2 in Hc.
      unfold progress in Hc. lia. }
    destruct (ai_reply W (suspensions s1) (prompt task)) as [e|response].
    + destruct (attempt =? retryAttempts config) eqn:Heq.
      * eexists _, _. split; [reflexivity|]. split; [apply outcome_of_failure|].
        split; [reflexivity|]. lia.
      * apply Z.eqb_neq in Heq.
        destruct (IH (attempt + 1) s2) as (r & s' & Hex & Hout & Hd & Hclk); [lia|].
        exists r, s'. split; [exact Hex|]. split; [exact Hout|]. split; [exact Hd|].
        intros _. specialize (Hclk ltac:(lia)).
        pose proof (progress_nonneg (1000 * (attempt + 1))). lia.
    + eexists _, _. split; [reflexivity|]. split; [apply outcome_of_success|].
      split; [reflexivity|]. fold s2. lia.
Qed.

(** X8: under a positive [retryAttempts], a task that asks for retries
    always gets an outcome, which is either a success reporting the time
    elapsed since the call or, the retries having run, reports a
    [duration] of 0 although the clock has advanced since the call. *)
Theorem retried_outcome_reports_zero_duration task s :
  t_retryOnFailure task = Some true ->
  0 < retryAttempts config ->
  exists r s',
    exec W (executeTask config task) s = (Returned r, s')
    /\ outcome_of task r
    /\ ((exists output, r = outcome_success task output (clock s' - clock s))
        \/ (r_metrics r
            = Some {| duration := 0; tokensUsed := None; filesModified := None |}
            /\ clock s < clock s')).
Proof.
  intros Hretry Hn.
  assert (Hw : will_retry config task = true) by (apply will_retry_true; auto).
  assert (Hcatch : forall e s1, clock s <= clock s1 ->
    exists r s',
      exec_catch config W task (clock s) e s1 = (Returned r, s')
      /\ outcome_of task r
      /\ r_metrics r = Some {| duration := 0; tokensUsed := None; filesModified := None |}
      /\ clock s < clock s').
  { intros e s1 Hs1. unfold exec_catch, retryTask. rewrite Hw.
    destruct (exec_retryLoop_duration task e (Z.to_nat (retryAttempts config)) 1 s1)
      as (r & s' & Hex & Hout & Hd & Hclk); [f_equal; lia|].
    exists r, s'. specialize (Hclk ltac:(lia)). unfold progress in Hclk.
    split; [exact Hex|]. split; [exact Hout|]. split; [exact Hd|]. lia. }
  rewrite exec_executeTask.
  assert (Hgate : exists c s1, exec W (dependency_gate config task) s = (c, s1)
                    /\ c <> Spun /\ clock s <= clock s1).
  { unfold dependency_gate. destruct (t_dependencies task) as [dependencies|].
    - destruct (exec_waitForDependencies config W dependencies s)
        as (s1 & k & _ & Hclk & [[Hex _]|[Hex _]]); rewrite Hex;
        eexists _, _; (split; [reflexivity|]); (split; [discriminate|]); lia.
    - eexists _, _. split; [reflexivity|]. split; [discriminate|]. simpl. lia. }
  destruct Hgate as (c & s1 & -> & Hc & Hs1). destruct c as [[]|e|]; [| |done].
  - destruct (ai_reply W (suspensions s1) (prompt task)) as [e|response].
    + destruct (Hcatch e (suspend W (EvChat (prompt task)) 0 s1))
        as (r & s' & Hex & Hout & Hd & Hclk).
      { pose proof (suspend_clock W (EvChat (prompt task)) 0 s1) as Hchat.
        unfold progress in Hchat. lia. }
      exists r, s'. auto.
    + cbn zeta. eexists _, _. split; [reflexivity|]. split; [apply outcome_of_success|].
      left. eexists. reflexivity.
  - destruct (Hcatch e s1 Hs1) as (r & s' & Hex & Hout & Hd & Hclk).
    exists r, s'. auto.
Qed.

End X_Duration.
(** ** The first stretch of a sequence *)

Lemma advance_bind {A B} (p : Prog A) (f : A -> Prog B) t rnd o :
  advance (bind p f) t rnd o =
  match advance p t rnd o with
  | (Settled (Returned a), o') => advance (f a) t rnd o'
  | (Settled (Thrown e), o') => (Settled (Thrown e), o')
  | (Settled Spun, o') => (Settled Spun, o')
  | (Blocked e since k, o') => (Blocked e since (fun x => bind (k x) f), o')
  end.
Proof.
  revert o. induction p as [a|e| |X e k IH|X e k IH]; intros o; simpl; try reflexivity.
  destruct (handle e t rnd o) as [x o']. apply IH.
Qed.

Lemma advance_try_finally {A} (p : Prog A) c t rnd o :
  advance (try_finally p c) t rnd o =
  match advance p t rnd o with
  | (Settled (Returned a), o') => advance (bind c (fun _ => Ret a)) t rnd o'
  | (Settled (Thrown e), o') => advance (bind c (fun _ => Throw e)) t rnd o'
  | (Settled Spun, o') => (Settled Spun, o')
  | (Blocked e since k, o') => (Blocked e since (fun x => try_finally (k x) c), o')
  end.
Proof.
  revert o. induction p as [a|e| |X e k IH|X e k IH]; intros o; simpl; try reflexivity.
  destruct (handle e t rnd o) as [x o']. apply IH.
Qed.

Section X_Loop.
Context `{JsonRuntime}.
Variable config : AgentConfig.

(** X9: [shutdown] clears nothing when it is called.  The promise of
    [onIdle] it awaits is settled at the call if the queue is idle then,
    and otherwise by the first step of a job that leaves the queue idle;
    until then no answer resumes the call.  Once the promise has settled
    the call can be resumed, whatever the queue holds by then: it empties
    the registry and the result store, leaving the agent objects, the jobs
    and the other calls alone, and from then on [assignTask] finds no
    agent. *)
Theorem shutdown_clears_once_the_queue_was_idle σ i since o :
  (forall σ0,
     step config DoShutdown σ0
     = Some {| now := now σ0; shared := shared σ0; jobs := jobs σ0;
               calls := (calls σ0 ++
                 [CallShutdown (queue_idle (jobs σ0))
                    (fst (advance shutdown (now σ0) EmptyString (shared σ0)))])%list |})
  /\ (calls σ !! i
      = Some (CallShutdown false (fst (advance shutdown since EmptyString o))) ->
      forall a, step config (Resume (InCall i) a) σ = None)
  /\ (forall ready s j a σ',
        calls σ !! i = Some (CallShutdown ready s) ->
        step config (Resume (InJob j) a) σ = Some σ' ->
        calls σ' !! i = Some (CallShutdown (ready || queue_idle (jobs σ')) s))
  /\ (calls σ !! i
      = Some (CallShutdown true (fst (advance shutdown since EmptyString o))) ->
      exists σ',
        step config (Resume (InCall i) Idled) σ = Some σ'
        /\ agents (shared σ') = ∅
        /\ taskResults (shared σ') = ∅
        /\ heap (shared σ') = heap (shared σ)
        /\ jobs σ' = jobs σ
        /\ calls σ' = <[i := CallShutdown true (Settled (Returned tt))]> (calls σ)
        /\ forall agentId task,
             step config (DoAssignTask agentId task) σ'
             = Some {| now := now σ'; shared := shared σ'; jobs := jobs σ';
                       calls := (calls σ' ++
                         [CallAssignTask agentId task None
                            (Settled (Thrown (agent_not_found agentId)))])%list |}).
Proof.
  split; [reflexivity|]. split; [|split].
  - intros Hi a. cbn [step]. rewrite Hi. destruct a; reflexivity.
  - intros ready s j a σ' Hi Hstep. cbn [step] in Hstep.
    destruct (jobs σ !! j) as [[task|task s0]|]; try discriminate.
    destruct (resume s0 a false (now σ) (shared σ)) as [[s' o1]|]; [|discriminate].
    cbn in Hstep. destruct (pump config (now σ) _ _ o1) as [js' o'].
    inversion Hstep; subst σ'. cbn [calls jobs].
    rewrite list_lookup_fmap, Hi. reflexivity.
  - intros Hi. eexists. cbn [step]. rewrite Hi. split; [reflexivity|]. cbn.
    split; [reflexivity|]. split; [reflexivity|]. split; [reflexivity|].
    split; [reflexivity|]. split; [reflexivity|].
    intros agentId task. rewrite lookup_empty. reflexivity.
Qed.

(** X10: [createAgent] registers, under the id it makes up, a new idle
    agent with the name and capabilities given; the entries under other
    ids, the objects already there, the result store, the queue and the
    calls in flight are left as they were. *)
Theorem createAgent_registers_an_idle_agent σ name capabilities rnd :
  let ag := new_agent name capabilities (now σ) rnd in
  exists σ',
    step config (DoCreateAgent name capabilities rnd) σ = Some σ'
    /\ view (agents (shared σ')) (shared σ') (a_id ag) = Some ag
    /\ (forall id, id <> a_id ag ->
          agents (shared σ') !! id = agents (shared σ) !! id)
    /\ (forall a x, heap (shared σ) !! a = Some x -> heap (shared σ') !! a = Some x)
    /\ taskResults (shared σ') = taskResults (shared σ)
    /\ now σ' = now σ /\ jobs σ' = jobs σ /\ calls σ' = calls σ.
Proof.
  intros ag. eexists. cbn [step]. rewrite advance_createAgent. fold ag.
  split; [reflexivity|]. cbn [shared agents heap taskResults with_agents with_heap
    now jobs calls]. split; [|split; [|split]].
  - unfold view. cbn [agents heap with_agents with_heap].
    rewrite lookup_insert_eq. cbn [mbind option_bind].
    rewrite lookup_app_r by lia. rewrite Nat.sub_diag. reflexivity.
  - intros id Hid. rewrite lookup_insert_ne by congruence. reflexivity.
  - intros a x Ha. apply lookup_app_l_Some, Ha.
  - auto.
Qed.

Lemma step_execute_frame l σ σ' :
  invariant config σ ->
  Forall (fun c => is_execute_call c = true) (calls σ) ->
  is_execute_label l = true ->
  step config l σ = Some σ' ->
  shared σ' = shared σ /\ Forall (fun c => is_execute_call c = true) (calls σ').
Proof.
  intros Hinv Hcalls Hl Hstep.
  destruct l as [ms|[i|i] a|name caps rnd|agentId task|task|tasks|]; try discriminate Hl.
  - cbn [step] in Hstep. inversion Hstep; subst. auto.
  - destruct (step_resume_job config _ _ _ _ Hinv Hstep) as (_ & Hsh & _ & Hc & _).
    rewrite Hc. split; [exact Hsh|]. apply Forall_fmap.
    eapply Forall_impl; [exact Hcalls|]. intros [] Hc0; simpl in *; congruence.
  - cbn [step] in Hstep. destruct (calls σ !! i) as [c|] eqn:Hi; [|discriminate].
    cbn [mbind option_bind] in Hstep.
    pose proof (Forall_lookup_1 _ _ _ _ Hcalls Hi) as Hex.
    pose proof (Forall_lookup_1 _ _ _ _ (inv_calls _ _ Hinv) Hi) as Hok.
    destruct c as [task s|? ? ? ?|?|tasks first]; try discriminate Hex;
      [|discriminate Hstep].
    cbn [resume_call] in Hstep.
    destruct (resume s a false (now σ) (shared σ)) as [[s' o']|] eqn:Hres;
      [|discriminate].
    cbn [mbind option_bind] in Hstep. inversion Hstep; subst. cbn [shared calls].
    destruct Hok as [_ Hro].
    destruct (resume_readonly _ _ _ _ _ _ _ Hro Hres) as [-> _].
    split; [reflexivity|]. apply Forall_insert; [exact Hcalls|reflexivity].
  - cbn [step] in Hstep.
    pose proof (advance_readonly (executeTask config task) (now σ) EmptyString (shared σ)
                  (readonly_executeTask config task)) as [Ho _].
    destruct (advance (executeTask config task) (now σ) EmptyString (shared σ)) as [s o].
    inversion Hstep; subst. cbn [shared calls]. split; [exact Ho|].
    apply Forall_app. split; [exact Hcalls|]. repeat constructor.
  - cbn [step] in Hstep.
    destruct (fold_left _ tasks (jobs σ, shared σ)) as [js o] eqn:Hfold.
    destruct (fold_queue_add_spec config _ _ _ _ _ _ (inv_jobs _ _ Hinv)
                (inv_pending _ _ Hinv) (inv_queue _ _ Hinv) Hfold) as (-> & _).
    inversion Hstep; subst. cbn [shared calls]. split; [reflexivity|].
    apply Forall_app. split; [|repeat constructor]. apply Forall_fmap.
    eapply Forall_impl; [exact Hcalls|]. intros [] Hc0; simpl in *; congruence.
Qed.

(** X11: on an orchestrator whose calls in flight are calls of
    [executeTask] and [executeParallel], whatever such calls are added and
    however they and the jobs of the queue are resumed, the registry, the
    agents and the result store stay as they are: only [createAgent],
    [assignTask] and [shutdown] write them. *)
Theorem executing_tasks_never_writes_the_shared_state ls :
  forall σ σ',
    reachable config σ ->
    Forall (fun c => is_execute_call c = true) (calls σ) ->
    Forall (fun l => is_execute_label l = true) ls ->
    run config ls σ = Some σ' ->
    shared σ' = shared σ.
Proof.
  induction ls as [|l ls IH]; intros σ σ' Hr Hcalls Hls Hrun.
  - inversion Hrun; subst. reflexivity.
  - cbn [run] in Hrun. destruct (step config l σ) as [σ1|] eqn:Hstep; [|discriminate].
    cbn [mbind option_bind] in Hrun. apply Forall_cons in Hls as [Hl Hls].
    destruct (step_execute_frame l σ σ1 (reachable_invariant config σ Hr) Hcalls Hl Hstep)
      as [Hsh Hcalls1].
    rewrite <- Hsh. apply IH; auto.
    apply (reachable_run config σ σ1 [l]); [exact Hr|]. cbn [run]. rewrite Hstep. reflexivity.
Qed.

(** X12: a task submitted through [executeParallel] waits in the queue only
    while [maxConcurrent] started tasks are unsettled. *)
Theorem queue_never_idles_a_slot σ task :
  reachable config σ ->
  Queued task ∈ jobs σ ->
  pendingCount (jobs σ) = maxConcurrent config.
Proof.
  intros Hr Hq. apply reachable_invariant in Hr.
  pose proof (inv_pending _ _ Hr). pose proof (inv_queue _ _ Hr task Hq). lia.
Qed.

End X_Loop.
Section X_Takeover.
Context `{JsonRuntime}.
Variable config : AgentConfig.

Lemma advance_executeTask task t o :
  snd (advance (executeTask config task) t EmptyString o) = o
  /\ match fst (advance (executeTask config task) t EmptyString o) with
     | Settled c => exists r, c = Returned r /\ outcome_of task r
     | Blocked _ _ _ => True
     end.
Proof.
  split; [apply advance_readonly, readonly_executeTask|].
  pose proof (advance_safe (returns_outcome task) (executeTask config task) t
                EmptyString o (safe_executeTask config task t)) as Hs.
  destruct (fst (advance (executeTask config task) t EmptyString o)); [|exact I].
  destruct Hs as [t' Hr]. exact Hr.
Qed.

(** X13: [assignTask] takes an agent of the registry in whatever status it
    is.  While the call awaits, the agent is busy with the new task, which
    has replaced the task it may have held; if the call completed at once,
    it returned, the outcome is in the store and the agent is released. *)
Theorem assignTask_does_not_check_the_agent_status σ agentId a task :
  agents (shared σ) !! agentId = Some a ->
  exists s o,
    step config (DoAssignTask agentId task) σ
    = Some {| now := now σ; shared := o; jobs := jobs σ;
              calls := (calls σ ++ [CallAssignTask agentId task (Some a) s])%list |}
    /\ match s with
       | Blocked _ _ _ =>
           o = engage a task (shared σ)
           /\ forall ag, heap (shared σ) !! a = Some ag ->
                heap o !! a = Some (set_status busy (set_currentTask (Some task) ag))
       | Settled c =>
           c = Returned tt
           /\ exists r, outcome_of task r
                /\ o = release a (with_taskResults (insert (t_id task) r)
                                    (engage a task (shared σ)))
       end.
Proof.
  intros Ha. cbn [step]. unfold assignTask. cbn [advance perform handle bind].
  rewrite Ha. cbn [advance perform handle bind].
  rewrite advance_try_finally, advance_bind.
  change (with_heap (alter (set_status busy) a)
            (with_heap (alter (set_currentTask (Some task)) a) (shared σ)))
    with (engage a task (shared σ)).
  destruct (advance_executeTask task (now σ) (engage a task (shared σ))) as [Ho Hs].
  destruct (advance (executeTask config task) (now σ) EmptyString
              (engage a task (shared σ))) as [s o].
  cbn [fst snd] in Ho, Hs. subst o. destruct s as [c|X e since k].
  - destruct Hs as (r & -> & Hout). cbn [advance perform handle bind].
    eexists _, _. split; [reflexivity|]. split; [reflexivity|].
    exists r. split; [exact Hout|reflexivity].
  - eexists _, _. split; [reflexivity|]. split; [reflexivity|].
    intros ag Hag. unfold engage. cbn [heap with_heap].
    rewrite !list_lookup_alter_eq, Hag. reflexivity.
Qed.

End X_Takeover.
Lemma summary_counts tasks results :
  Forall2 outcome_of tasks results ->
  (Commands.successful results + Commands.failed results = length tasks)%nat.
Proof.
  unfold Commands.successful, Commands.failed.
  induction 1 as [|task r tasks results [_ Hst] _ IH]; [reflexivity|].
  destruct Hst as [[Hs _]|[Hs _]].
  - rewrite filter_cons_True by (rewrite Hs; reflexivity).
    rewrite filter_cons_False by (rewrite Hs; simpl; discriminate).
    simpl. lia.
  - rewrite filter_cons_False by (rewrite Hs; simpl; discriminate).
    rewrite filter_cons_True by (rewrite Hs; reflexivity).
    simpl. lia.
Qed.

Section X_Commands.
Context `{JsonRuntime}.
Variable config : AgentConfig.

(** X14: the summary [runParallel] and [executeMulti] print accounts for
    every task: the outcomes [executeParallel] returned are successes or
    failures, so that [successful + failed] is the number of tasks, and the
    [index]-th outcome is that of [tasks[index]]. *)
Theorem summary_accounts_for_every_task σ i tasks first c :
  reachable config σ ->
  calls σ !! i = Some (CallExecuteParallel tasks first) ->
  executeParallel σ first (length tasks) = Some c ->
  exists results,
    c = Returned results
    /\ (Commands.successful results + Commands.failed results = length tasks)%nat
    /\ forall index result, results !! index = Some result ->
         exists task, tasks !! index = Some task /\ r_taskId result = t_id task.
Proof.
  intros Hr Hi Hc.
  destruct (executeParallel_call_outcomes config σ i tasks first c
              (reachable_invariant config σ Hr) Hi Hc) as (results & -> & Hout).
  exists results. split; [reflexivity|]. split; [apply summary_counts, Hout|].
  intros index result Hres.
  destruct (Forall2_lookup_r _ _ _ _ _ Hout Hres) as (task & Htask & Hid & _).
  exists task. auto.
Qed.

(** X15: [executeMulti] submits one task per file, under pairwise distinct
    ids; such a task has no prerequisite and asks for no retry, so that
    under every configuration [executeTask] calls the provider exactly once
    for it and awaits nothing else. *)
Theorem multi_edit_runs_each_file_once files prompt_option :
  let tasks := Commands.executeMulti_tasks files prompt_option in
  length tasks = length files
  /\ NoDup (map t_id tasks)
  /\ forall W task s, task ∈ tasks ->
       exists r s',
         exec W (executeTask config task) s = (Returned r, s')
         /\ outcome_of task r
         /\ trace s' = (trace s ++ [EvChat (prompt task)])%list.
Proof.
  intros tasks. split; [|split].
  - apply length_imap.
  - apply NoDup_alt. intros i j id Hi Hj. unfold tasks, Commands.executeMulti_tasks in *.
    rewrite list_lookup_fmap, list_lookup_imap in Hi, Hj.
    destruct (files !! i); [|discriminate]. destruct (files !! j); [|discriminate].
    cbn in Hi, Hj. rewrite <- Hj in Hi. inversion Hi as [Hp].
    exact (pretty_nat_inj _ _ Hp).
  - intros W task s Hin. apply list_elem_of_lookup in Hin as [i Hi].
    unfold tasks, Commands.executeMulti_tasks in Hi. rewrite list_lookup_imap in Hi.
    destruct (files !! i) as [file|]; [|discriminate]. cbn in Hi.
    assert (Hdeps : t_dependencies task = None) by (injection Hi as <-; reflexivity).
    assert (Hretry : t_retryOnFailure task = None) by (injection Hi as <-; reflexivity).
    rewrite exec_executeTask. unfold dependency_gate at 1, exec_catch, will_retry.
    rewrite Hdeps, Hretry. cbn [truthy andb exec].
    destruct (ai_reply W (suspensions s) (prompt task)) as [e|response]; cbn zeta;
      eexists _, _; (split; [reflexivity|]);
      (split; [first [apply outcome_of_failure|apply outcome_of_success]|reflexivity]).
Qed.

(** X16: in the table [showStatus] prints from the snapshot [getStatus]
    returns, no agent is in the error status, an idle agent is shown with
    the task [None], and a busy agent holds a task, whose description is
    shown unless it is empty. *)
Theorem status_table_is_coherent σ snapshot id a :
  reachable config σ ->
  fst (advance getStatus (now σ) EmptyString (shared σ)) = Settled (Returned snapshot) ->
  snapshot !! id = Some a ->
  exists agent,
    heap (shared σ) !! a = Some agent
    /\ Status (Commands.status_row agent) <> error
    /\ (Status (Commands.status_row agent) = idle ->
        Current_Task (Commands.status_row agent) = "None")
    /\ (Status (Commands.status_row agent) = busy ->
        exists task,
          a_currentTask agent = Some task
          /\ (t_description task <> EmptyString ->
              Current_Task (Commands.status_row agent) = t_description task)).
Proof.
  intros Hr Hsnap Ha. simpl in Hsnap. inversion Hsnap; subst snapshot.
  pose proof (reachable_invariant config σ Hr) as Hinv.
  destruct (inv_orch _ _ Hinv) as [Hh Hreg].
  destruct (Hreg _ _ Ha) as [agent Hag]. exists agent. split; [exact Hag|].
  destruct (Forall_lookup_1 _ _ _ _ Hh Hag) as [Htask Herr].
  cbn [Status Current_Task Commands.status_row]. split; [exact Herr|]. split.
  - intros Hidle. unfold Commands.current_task.
    destruct (a_currentTask agent) as [task|]; [|reflexivity].
    assert (a_status agent = busy) by (apply Htask; discriminate). congruence.
  - intros Hbusy. apply Htask in Hbusy. unfold Commands.current_task.
    destruct (a_currentTask agent) as [task|]; [|done].
    exists task. split; [reflexivity|]. intros Hd.
    destruct (t_description task); [done|reflexivity].
Qed.

End X_Commands.

Lemma or_default_whole x d z dz :
  whole x z -> whole d dz -> 0 <= z ->
  whole (or_default x d) (if z =? 0 then dz else z).
Proof.
  destruct x as [q| |]; simpl; try contradiction. intros Hq Hd Hz.
  destruct (Qeq_bool q (inject_Z 0)) eqn:Hq0.
  - apply Qeq_bool_iff in Hq0. rewrite Hq in Hq0.
    assert (z = 0) as -> by (unfold Qeq in Hq0; simpl in Hq0; lia). exact Hd.
  - apply Qeq_bool_neq in Hq0. destruct (z =? 0) eqn:Hz0; [|exact Hq].
    apply Z.eqb_eq in Hz0. subst z. contradiction.
Qed.

Lemma whole_inj x z z' : whole x z -> whole x z' -> z = z'.
Proof.
  destruct x as [q| |]; simpl; try contradiction. intros Hz Hz'.
  rewrite Hz in Hz'. unfold Qeq in Hz'. simpl in Hz'. lia.
Qed.

Section X_Settings.
Context `{JsonRuntime}.

(** X17: the CLI hands [setting || default] to the orchestrator.  For
    settings that are whole numbers and not negative, a setting of 0 is
    replaced by the default and any other is kept; the orchestrator can
    then be constructed, lets a task with an empty list of prerequisites
    through the dependency gate at once, and retries every task that asks
    for it.  (A setting that is not whole is kept as well:
    [or_default_keeps_fractions].) *)
Theorem cli_settings_of_zero_fall_back settings m t r :
  whole (s_maxConcurrent settings) m ->
  whole (s_timeout settings) t ->
  whole (s_retryAttempts settings) r ->
  0 <= m -> 0 <= t -> 0 <= r ->
  (exists config, configures (Commands.orchestrator_config settings) config)
  /\ forall config,
       configures (Commands.orchestrator_config settings) config ->
       maxConcurrent config = (if m =? 0 then 5 else m)
       /\ timeout config = (if t =? 0 then 300000 else t)
       /\ retryAttempts config = (if r =? 0 then 3 else r)
       /\ (forall t0, is_Some (AgentOrchestrator_new config t0))
       /\ (forall W task s, t_dependencies task = Some [] ->
             exec W (dependency_gate config task) s = (Returned tt, s))
       /\ (forall task, t_retryOnFailure task = Some true ->
             will_retry config task = true).
Proof.
  intros Hm Ht Hr Hm0 Ht0 Hr0.
  pose proof (or_default_whole _ (Finite (inject_Z 5)) m 5 Hm (Qeq_refl _) Hm0) as Wm.
  pose proof (or_default_whole _ (Finite (inject_Z 300000)) t 300000 Ht (Qeq_refl _) Ht0)
    as Wt.
  pose proof (or_default_whole _ (Finite (inject_Z 3)) r 3 Hr (Qeq_refl _) Hr0) as Wr.
  split.
  { exists {| maxConcurrent := if m =? 0 then 5 else m;
              timeout := if t =? 0 then 300000 else t;
              retryAttempts := if r =? 0 then 3 else r;
              autoScale := None |}.
    split; [exact Wt|]. split; [exact Wm|exact Wr]. }
  intros config (Hct & Hcm & Hcr).
  cbn [Commands.orchestrator_config o_timeout o_maxConcurrent o_retryAttempts]
    in Hct, Hcm, Hcr.
  pose proof (whole_inj _ _ _ Hcm Wm) as Em.
  pose proof (whole_inj _ _ _ Hct Wt) as Et.
  pose proof (whole_inj _ _ _ Hcr Wr) as Er.
  split; [exact Em|]. split; [exact Et|]. split; [exact Er|].
  assert (Hpm : 1 <= maxConcurrent config).
  { rewrite Em. destruct (m =? 0) eqn:E; [lia|]. apply Z.eqb_neq in E. lia. }
  assert (Hpt : 0 < timeout config).
  { rewrite Et. destruct (t =? 0) eqn:E; [lia|]. apply Z.eqb_neq in E. lia. }
  assert (Hpr : 0 < retryAttempts config).
  { rewrite Er. destruct (r =? 0) eqn:E; [lia|]. apply Z.eqb_neq in E. lia. }
  split; [|split].
  - intros t0. unfold AgentOrchestrator_new.
    assert (Hle : (1 <=? maxConcurrent config) = true) by (apply Z.leb_le; exact Hpm).
    rewrite Hle. eauto.
  - intros W task s Hd. unfold dependency_gate. rewrite Hd.
    apply exec_waitForDependencies_empty. exact Hpt.
  - intros task Hretry. apply will_retry_true. split; [exact Hretry|exact Hpr].
Qed.

End X_Settings.

(** *** Instances of the further properties *)

(** With timers that fire a millisecond early the three polls that a
    timeout of 300 ms takes otherwise are followed by a fourth, the clock
    reading 297 after the third. *)
Lemma early_timers_poll_once_more :
  let r := exec (world_early (reply_content "{}"))
                (waitForDependencies config_default ["d"]) (start 0 empty_orch) in
  fst r = Thrown dependency_timeout
  /\ trace (snd r) = polls 4
  /\ clock (snd r) = 396
  /\ trace (snd (exec (world_of (reply_content "{}"))
                      (waitForDependencies config_default ["d"]) (start 0 empty_orch)))
     = polls 3.
Proof. vm_compute. auto. Qed.

(** With such timers the three back-off sleeps of a task that fails
    throughout, set for 6000 ms in all, take 5997 ms on the clock. *)
Lemma early_timers_shorten_the_back_off :
  let r := exec (world_early (reply_error "boom"))
                (executeTask config_default task_retry) (start 0 empty_orch) in
  slept (trace (snd r)) = 6000 /\ clock (snd r) = 5997.
Proof. vm_compute. auto. Qed.

Lemma assignTask_records_the_outcome_witness :
  let W := world_of (reply_content "{}") in
  let s := start 0 orch_reviewer in
  exists r s2 s',
    exec W (executeTask config_default task_t1)
         (with_orch (engage 0%nat task_t1 (orch s)) s) = (Returned r, s2)
    /\ outcome_of task_t1 r
    /\ exec W (assignTask config_default reviewer_id task_t1) s = (Returned tt, s')
    /\ orch s' = release 0%nat (with_taskResults (insert (t_id task_t1) r) (orch s2))
    /\ exec W (getTaskResult (t_id task_t1)) s' = (Returned (Some r), s')
    /\ trace s' = trace s2.
Proof.
  apply (assignTask_records_the_outcome config_default (world_of (reply_content "{}"))
           reviewer_id 0%nat task_t1 (start 0 orch_reviewer)).
  vm_compute. reflexivity.
Defined.

Lemma assignTask_rejects_an_unknown_agent_witness :
  exec (world_of (reply_content "{}")) (assignTask config_default "agent-7" task_t1)
       (start 0 orch_reviewer)
  = (Thrown (agent_not_found "agent-7"), start 0 orch_reviewer).
Proof.
  apply (assignTask_rejects_an_unknown_agent config_default
           (world_of (reply_content "{}")) "agent-7" task_t1 (start 0 orch_reviewer)).
  vm_compute. reflexivity.
Defined.

Lemma assigned_success_opens_the_gate_witness :
  let W := world_of (reply_content "{}") in
  let s := start 0 orch_reviewer in
  exists s',
    exec W (assignTask config_default reviewer_id task_t1) s = (Returned tt, s')
    /\ satisfied (t_id task_t1) (orch s')
    /\ exec W (dependency_gate config_default task_t2) s' = (Returned tt, s').
Proof.
  apply (assigned_success_opens_the_gate config_default (world_of (reply_content "{}"))
           (world_of (reply_content "{}")) reviewer_id 0%nat task_t1 task_t2
           (start 0 orch_reviewer)
           {| resp_content := "{}"; resp_tokensUsed := None; resp_model := "m";
              resp_finishReason := None |}).
  - vm_compute. reflexivity.
  - reflexivity.
  - reflexivity.
  - reflexivity.
  - reflexivity.
Defined.

Lemma assignTask_does_not_check_the_agent_status_witness :
  let σ := sys_after config_default assign_run in
  (exists ag, heap (shared σ) !! 0%nat = Some ag /\ a_status ag = busy
              /\ a_currentTask ag = Some task_t1)
  /\ exists s o,
       step config_default (DoAssignTask reviewer_id task_t2) σ
       = Some {| now := now σ; shared := o; jobs := jobs σ;
                 calls := (calls σ ++ [CallAssignTask reviewer_id task_t2 (Some 0%nat) s])%list |}
       /\ match s with
          | Blocked _ _ _ =>
              o = engage 0%nat task_t2 (shared σ)
              /\ forall ag, heap (shared σ) !! 0%nat = Some ag ->
                   heap o !! 0%nat
                   = Some (set_status busy (set_currentTask (Some task_t2) ag))
          | Settled c =>
              c = Returned tt
              /\ exists r, outcome_of task_t2 r
                   /\ o = release 0%nat (with_taskResults (insert (t_id task_t2) r)
                                           (engage 0%nat task_t2 (shared σ)))
          end.
Proof.
  split.
  - eexists. vm_compute. split; [reflexivity|]. split; reflexivity.
  - apply (assignTask_does_not_check_the_agent_status config_default
             (sys_after config_default assign_run) reviewer_id 0%nat task_t2).
    vm_compute. reflexivity.
Defined.

Lemma failure_without_retry_is_final_witness :
  let W := world_of (reply_error "boom") in
  let s := start 0 empty_orch in
  exists s',
    exec W (executeTask config_default task_t1) s
      = (Returned (outcome_failure task_t1 {| message := "boom" |} (clock s' - clock s)), s')
    /\ trace s' = (trace s ++ [EvChat (prompt task_t1)])%list
    /\ orch s' = interfere W (suspensions s) (orch s).
Proof.
  apply (failure_without_retry_is_final config_default (world_of (reply_error "boom"))
           task_t1 (start 0 empty_orch) (start 0 empty_orch) {| message := "boom" |}).
  - left. discriminate.
  - reflexivity.
  - reflexivity.
Defined.

Lemma retry_stops_at_the_first_success_witness :
  let s := start 0 empty_orch in
  exists s' tr,
    exec world_recovering (executeTask config_default task_retry) s
      = (Returned (outcome_success task_retry
                     (parseTaskResult (t_type task_retry) "{}") 0), s')
    /\ trace s' = (trace s ++ tr)%list
    /\ tr = EvChat (prompt task_retry) :: retry_events task_retry 1 1
    /\ body_invocations tr = 2%nat.
Proof.
  apply (retry_stops_at_the_first_success config_default world_recovering task_retry
           (start 0 empty_orch) (start 0 empty_orch) 1
           {| resp_content := "{}"; resp_tokensUsed := None; resp_model := "m";
              resp_finishReason := None |}).
  - reflexivity.
  - reflexivity.
  - lia.
  - simpl. lia.
  - intros i Hi. assert (i = 0%nat) as -> by lia. exact I.
  - reflexivity.
Defined.

Lemma failing_body_runs_once_per_attempt_witness :
  let W := world_of (reply_error "boom") in
  let s := start 0 empty_orch in
  exists e s' tr,
    exec W (executeTask config_default task_retry) s
      = (Returned (outcome_failure task_retry e 0), s')
    /\ trace s' = (trace s ++ tr)%list
    /\ tr = EvChat (prompt task_retry)
              :: retry_events task_retry 1 (Z.to_nat (retryAttempts config_default))
    /\ Z.of_nat (body_invocations tr) = 1 + retryAttempts config_default
    /\ slept tr
       = 500 * (retryAttempts config_default * (retryAttempts config_default + 1)).
Proof.
  apply (failing_body_runs_once_per_attempt config_default (world_of (reply_error "boom"))
           task_retry (start 0 empty_orch) (start 0 empty_orch)).
  - reflexivity.
  - simpl. lia.
  - reflexivity.
  - intros n. exact I.
Defined.

Lemma retried_outcome_reports_zero_duration_witness :
  let s := start 0 empty_orch in
  exists r s',
    exec world_recovering (executeTask config_default task_retry) s = (Returned r, s')
    /\ outcome_of task_retry r
    /\ ((exists output, r = outcome_success task_retry output (clock s' - clock s))
        \/ (r_metrics r
            = Some {| duration := 0; tokensUsed := None; filesModified := None |}
            /\ clock s < clock s')).
Proof.
  apply (retried_outcome_reports_zero_duration config_default world_recovering
           task_retry (start 0 empty_orch)).
  - reflexivity.
  - simpl. lia.
Defined.

Lemma createAgent_registers_an_idle_agent_witness :
  let σ := sys_after config_default [] in
  let ag := new_agent "Reviewer" ["review"] (now σ) "k3j9x0q1z" in
  exists σ',
    step config_default (DoCreateAgent "Reviewer" ["review"] "k3j9x0q1z") σ = Some σ'
    /\ view (agents (shared σ')) (shared σ') (a_id ag) = Some ag
    /\ (forall id, id <> a_id ag ->
          agents (shared σ') !! id = agents (shared σ) !! id)
    /\ (forall a x, heap (shared σ) !! a = Some x -> heap (shared σ') !! a = Some x)
    /\ taskResults (shared σ') = taskResults (shared σ)
    /\ now σ' = now σ /\ jobs σ' = jobs σ /\ calls σ' = calls σ.
Proof.
  exact (createAgent_registers_an_idle_agent config_default
           (sys_after config_default []) "Reviewer" ["review"] "k3j9x0q1z").
Defined.

Lemma shutdown_clears_once_the_queue_was_idle_witness :
  let σ := sys_after config_default shutdown_run in
  pendingCount (jobs σ) = 1
  /\ agents (shared σ) !! reviewer_id = Some 0%nat
  /\ exists σ',
       step config_default (Resume (InCall 0) Idled) σ = Some σ'
       /\ agents (shared σ') = ∅
       /\ taskResults (shared σ') = ∅
       /\ jobs σ' = jobs σ.
Proof.
  intros σ. split; [vm_compute; reflexivity|]. split; [vm_compute; reflexivity|].
  destruct (proj2 (proj2 (proj2
              (shutdown_clears_once_the_queue_was_idle config_default σ 0%nat 0
                 empty_orch))))
    as (σ' & Hres & Hag & Hst & _ & Hjobs & _); [vm_compute; reflexivity|].
  exists σ'. auto.
Defined.

Lemma executing_tasks_never_writes_the_shared_state_witness :
  shared (sys_after config_default batch_run) = shared (sys_after config_default []).
Proof.
  apply (executing_tasks_never_writes_the_shared_state config_default batch_run
           (sys_after config_default []) (sys_after config_default batch_run)).
  - apply reachable_sys_after. vm_compute. reflexivity.
  - vm_compute. constructor.
  - unfold batch_run. repeat constructor.
  - apply (run_sys_after config_default [] batch_run). vm_compute. reflexivity.
Defined.

Lemma queue_never_idles_a_slot_witness :
  let σ := sys_after config_one [DoExecuteParallel [task_t1; task_t1; task_t2]] in
  pendingCount (jobs σ) = maxConcurrent config_one.
Proof.
  apply (queue_never_idles_a_slot config_one
           (sys_after config_one [DoExecuteParallel [task_t1; task_t1; task_t2]]) task_t1).
  - apply reachable_sys_after. vm_compute. reflexivity.
  - apply (list_elem_of_lookup_2 _ 1%nat). vm_compute. reflexivity.
Defined.

Lemma summary_accounts_for_every_task_witness :
  let tasks := [task_t1; task_t2] in
  exists results,
    Returned [outcome_success task_t1 (JObject []) 0;
              outcome_failure task_t2 dependency_timeout 300] = Returned results
    /\ (Commands.successful results + Commands.failed results = length tasks)%nat
    /\ forall index result, results !! index = Some result ->
         exists task, tasks !! index = Some task /\ r_taskId result = t_id task.
Proof.
  apply (summary_accounts_for_every_task config_default
           (sys_after config_default batch_run) 0%nat [task_t1; task_t2] 0%nat).
  - apply reachable_sys_after. vm_compute. reflexivity.
  - vm_compute. reflexivity.
  - vm_compute. reflexivity.
Defined.

Lemma multi_edit_runs_each_file_once_witness :
  let tasks := Commands.executeMulti_tasks ["a.ts"; "b.ts"] (Some "tidy") in
  map t_id tasks = ["edit-0"; "edit-1"]
  /\ length tasks = 2%nat
  /\ NoDup (map t_id tasks)
  /\ forall W task s, task ∈ tasks ->
       exists r s',
         exec W (executeTask config_default task) s = (Returned r, s')
         /\ outcome_of task r
         /\ trace s' = (trace s ++ [EvChat (prompt task)])%list.
Proof.
  split; [vm_compute; reflexivity|].
  exact (multi_edit_runs_each_file_once config_default ["a.ts"; "b.ts"] (Some "tidy")).
Defined.

Lemma status_table_is_coherent_witness :
  let σ := sys_after config_default assign_run in
  exists agent,
    heap (shared σ) !! 0%nat = Some agent
    /\ Status (Commands.status_row agent) <> error
    /\ (Status (Commands.status_row agent) = idle ->
        Current_Task (Commands.status_row agent) = "None")
    /\ (Status (Commands.status_row agent) = busy ->
        exists task,
          a_currentTask agent = Some task
          /\ (t_description task <> EmptyString ->
              Current_Task (Commands.status_row agent) = t_description task)).
Proof.
  apply (status_table_is_coherent config_default (sys_after config_default assign_run)
           (agents (shared (sys_after config_default assign_run))) reviewer_id 0%nat).
  - apply reachable_sys_after. vm_compute. reflexivity.
  - reflexivity.
  - vm_compute. reflexivity.
Defined.

Lemma cli_settings_of_zero_fall_back_witness :
  configures (Commands.orchestrator_config settings_zero) config_cli
  /\ maxConcurrent config_cli = 5
  /\ timeout config_cli = 300000
  /\ retryAttempts config_cli = 3
  /\ (forall t0, is_Some (AgentOrchestrator_new config_cli t0))
  /\ (forall W task s, t_dependencies task = Some [] ->
        exec W (dependency_gate config_cli task) s = (Returned tt, s))
  /\ (forall task, t_retryOnFailure task = Some true ->
        will_retry config_cli task = true).
Proof.
  assert (Hc : configures (Commands.orchestrator_config settings_zero) config_cli)
    by (split; [|split]; reflexivity).
  split; [exact Hc|].
  apply (proj2 (cli_settings_of_zero_fall_back settings_zero 0 0 0
                  (Qeq_refl _) (Qeq_refl _) (Qeq_refl _)
                  (Z.le_refl 0) (Z.le_refl 0) (Z.le_refl 0)) config_cli Hc).
Defined.

(** A setting that is not a whole number goes to the orchestrator as it
    is: [0.5 || 5] is [0.5], with which p-queue refuses to be
    constructed. *)
Lemma or_default_keeps_fractions d :
  or_default (Finite (1 # 2)) d = Finite (1 # 2).
Proof. reflexivity. Qed.
